(** * Collaborative Canvas: the server's history store and coordinator

    A shallow embedding of [server/state-manager.js] (class StateManager),
    [server/rooms.js] (class RoomManager), the socket handlers of
    [server/server.js] and [CanvasManager.stopDrawing] of the client,
    followed by the properties of the undo/redo engine. *)

From Stdlib Require Import Ascii.
From stdpp Require Import gmap strings list fin_maps pretty.


(** ** JavaScript values and objects *)

#[local] Set Warnings "-register-all".

(** The payloads that travel through the server are JSON values.  Numbers
    that the server computes with (timestamps, the id counter) are
    integers; coordinates are carried around and never inspected. *)
Inductive value : Type :=
| VUndefined
| VNull
| VBool (b : bool)
| VNum (n : Z)
| VStr (s : string)
| VArr (vs : list value)
| VObj (fields : list (string * value)).

(** A plain object: own properties by name.  A missing key reads as
    [undefined]. *)
Abbreviation obj := (gmap string value).
Abbreviation stroke := (gmap string value).

(** [o.userId === userId] for a string [userId]: strict equality holds
    only for a string-valued property with the same characters. *)
Definition prop_is (o : obj) (key : string) (s : string) : bool :=
  match o !! key with
  | Some (VStr s') => bool_decide (s' = s)
  | _ => false
  end.

(** The redo maps are keyed by connection ids, which are strings; a
    property that is not a string is never one of their keys. *)
Definition string_prop (o : obj) (key : string) : option string :=
  match o !! key with
  | Some (VStr s) => Some s
  | _ => None
  end.

(** [arr.pop()] on a JS array whose top is the last element. *)
Definition array_pop {A} (l : list A) : option (A * list A) :=
  match last l with
  | Some x => Some (x, take (length l - 1) l)
  | None => None
  end.

(** ** StateManager (server/state-manager.js) *)

Record StateManager : Type := mkSM {
  roomStrokes : gmap string (list stroke);
  redoStacks : gmap string (gmap string (list stroke));
  strokeIdCounter : N
}.

(** [new StateManager()] *)
Definition newStateManager : StateManager :=
  {| roomStrokes := ∅; redoStacks := ∅; strokeIdCounter := 0 |}.

Definition set_roomStrokes (f : gmap string (list stroke) → gmap string (list stroke))
    (sm : StateManager) : StateManager :=
  {| roomStrokes := f (roomStrokes sm);
     redoStacks := redoStacks sm;
     strokeIdCounter := strokeIdCounter sm |}.

Definition set_redoStacks
    (f : gmap string (gmap string (list stroke)) → gmap string (gmap string (list stroke)))
    (sm : StateManager) : StateManager :=
  {| roomStrokes := roomStrokes sm;
     redoStacks := f (redoStacks sm);
     strokeIdCounter := strokeIdCounter sm |}.

(** The template literal [`stroke_${Date.now()}_${this.strokeIdCounter}`].
    Both numbers print as plain decimal integers, as JavaScript prints
    integers below 10^21.  The counter is counted in [N]: that a
    JavaScript number stops growing by one at 2^53 is not modelled. *)
Definition strokeIdOf (now : Z) (counter : N) : string :=
  "stroke_" +:+ pretty now +:+ "_" +:+ pretty counter.

(** [generateStrokeId()]; [now] is the value [Date.now()] returns. *)
Definition generateStrokeId (now : Z) (sm : StateManager) : string * StateManager :=
  let c := (strokeIdCounter sm + 1)%N in
  (strokeIdOf now c,
   {| roomStrokes := roomStrokes sm; redoStacks := redoStacks sm;
      strokeIdCounter := c |}).

(** [initRoom(roomId)] *)
Definition initRoom (roomId : string) (sm : StateManager) : StateManager :=
  match roomStrokes sm !! roomId with
  | Some _ => sm
  | None =>
      {| roomStrokes := <[roomId := []]> (roomStrokes sm);
         redoStacks := <[roomId := ∅]> (redoStacks sm);
         strokeIdCounter := strokeIdCounter sm |}
  end.

(** The object literal [{ id: ..., ...strokeData, createdAt: ... }]:
    properties written later win, so [strokeData]'s own properties
    override [id], and [createdAt] overrides [strokeData]. *)
Definition finalize (id : string) (strokeData : obj) (createdAt : Z) : stroke :=
  <["createdAt" := VNum createdAt]> (strokeData ∪ {["id" := VStr id]}).

(** The methods below return [None] where the JavaScript throws a
    TypeError (a method called on the [undefined] that [Map.get] returns
    for a missing room). *)

(** [addStroke(roomId, strokeData)]; [tId] and [tCreated] are the two
    readings of [Date.now()], in evaluation order. *)
Definition addStroke (roomId : string) (strokeData : obj) (tId tCreated : Z)
    (sm : StateManager) : option (stroke * StateManager) :=
  let sm := initRoom roomId sm in
  let '(id, sm) := generateStrokeId tId sm in
  let stroke := finalize id strokeData tCreated in
  strokes ← roomStrokes sm !! roomId;
  let sm := set_roomStrokes <[roomId := strokes ++ [stroke]]> sm in
  redoStack ← redoStacks sm !! roomId;
  match string_prop strokeData "userId" with
  | Some userId =>
      match redoStack !! userId with
      | Some _ =>
          Some (stroke,
                set_redoStacks <[roomId := <[userId := []]> redoStack]> sm)
      | None => Some (stroke, sm)
      end
  | None => Some (stroke, sm)
  end.

(** [getStrokes(roomId)] *)
Definition getStrokes (roomId : string) (sm : StateManager)
    : option (list stroke * StateManager) :=
  let sm := initRoom roomId sm in
  strokes ← roomStrokes sm !! roomId;
  Some (strokes, sm).

(** The reverse search of [undoStroke]: [for (i = n - 1; i >= 0; i--)],
    returning the first index whose stroke belongs to [userId]. *)
Fixpoint undo_scan (strokes : list stroke) (userId : string) (n : nat) : option nat :=
  match n with
  | 0 => None
  | S i =>
      match strokes !! i with
      | Some s => if prop_is s "userId" userId then Some i
                  else undo_scan strokes userId i
      | None => undo_scan strokes userId i
      end
  end.

(** [undoStroke(roomId, userId)]; the inner [None] is JavaScript's [null]. *)
Definition undoStroke (roomId userId : string) (sm : StateManager)
    : option (option stroke * StateManager) :=
  let sm := initRoom roomId sm in
  strokes ← roomStrokes sm !! roomId;
  match undo_scan strokes userId (length strokes) with
  | Some i =>
      undoneStroke ← strokes !! i;
      let sm := set_roomStrokes <[roomId := delete i strokes]> sm in
      redoStack ← redoStacks sm !! roomId;
      let stack := default [] (redoStack !! userId) in
      Some (Some undoneStroke,
            set_redoStacks
              <[roomId := <[userId := stack ++ [undoneStroke]]> redoStack]> sm)
  | None => Some (None, sm)
  end.

(** [redoStroke(roomId, userId)] *)
Definition redoStroke (roomId userId : string) (sm : StateManager)
    : option (option stroke * StateManager) :=
  let sm := initRoom roomId sm in
  strokes ← roomStrokes sm !! roomId;
  redoStack ← redoStacks sm !! roomId;
  match redoStack !! userId with
  | None => Some (None, sm)
  | Some stack =>
      match array_pop stack with
      | None => Some (None, sm)
      | Some (stroke, rest) =>
          let sm := set_redoStacks <[roomId := <[userId := rest]> redoStack]> sm in
          let sm := set_roomStrokes <[roomId := strokes ++ [stroke]]> sm in
          Some (Some stroke, sm)
      end
  end.

(** [clearStrokes(roomId)] *)
Definition clearStrokes (roomId : string) (sm : StateManager) : StateManager :=
  let sm := initRoom roomId sm in
  let sm := set_roomStrokes <[roomId := []]> sm in
  set_redoStacks <[roomId := ∅]> sm.

(** [strokes.findIndex(s => s.id === strokeId)], with [None] for [-1]. *)
Fixpoint findIndex_id (strokes : list stroke) (strokeId : string) : option nat :=
  match strokes with
  | [] => None
  | s :: rest =>
      if prop_is s "id" strokeId then Some 0
      else S <$> findIndex_id rest strokeId
  end.

(** [removeStroke(roomId, strokeId)] *)
Definition removeStroke (roomId strokeId : string) (sm : StateManager)
    : option (bool * StateManager) :=
  let sm := initRoom roomId sm in
  strokes ← roomStrokes sm !! roomId;
  match findIndex_id strokes strokeId with
  | Some index =>
      Some (true, set_roomStrokes <[roomId := delete index strokes]> sm)
  | None => Some (false, sm)
  end.

(** [getStrokeCount(roomId)] *)
Definition getStrokeCount (roomId : string) (sm : StateManager)
    : option (nat * StateManager) :=
  let sm := initRoom roomId sm in
  strokes ← roomStrokes sm !! roomId;
  Some (length strokes, sm).

(** [cleanupUserHistory(roomId, userId)] *)
Definition cleanupUserHistory (roomId userId : string) (sm : StateManager)
    : StateManager :=
  match redoStacks sm !! roomId with
  | Some redoStack =>
      set_redoStacks <[roomId := delete userId redoStack]> sm
  | None => sm
  end.

(** [getUserStrokes(roomId, userId)] *)
Definition getUserStrokes (roomId userId : string) (sm : StateManager)
    : option (list stroke * StateManager) :=
  let sm := initRoom roomId sm in
  strokes ← roomStrokes sm !! roomId;
  Some (filter (λ s, prop_is s "userId" userId = true) strokes, sm).

(** ** RoomManager (server/rooms.js) *)

(** The per-connection [userData] object. *)
Record userData : Type := mkUser {
  user_id : string;
  username : string;
  color : string;
  cursorX : value;
  cursorY : value;
  isDrawing : bool
}.

(** [rooms]: roomId -> (userId -> userData).  The iteration order of the
    inner [Map] is not tracked. *)
Record RoomManager : Type := mkRM {
  rooms : gmap string (gmap string userData)
}.

Definition newRoomManager : RoomManager := {| rooms := ∅ |}.

(** [createRoom(roomId)] *)
Definition createRoom (roomId : string) (rm : RoomManager) : RoomManager :=
  match rooms rm !! roomId with
  | Some _ => rm
  | None => {| rooms := <[roomId := ∅]> (rooms rm) |}
  end.

(** [addUser(roomId, userData)] *)
Definition addUser (roomId : string) (u : userData) (rm : RoomManager)
    : RoomManager :=
  let rm := match rooms rm !! roomId with
            | Some _ => rm
            | None => createRoom roomId rm
            end in
  let room := default ∅ (rooms rm !! roomId) in
  {| rooms := <[roomId := <[user_id u := u]> room]> (rooms rm) |}.

(** [removeUser(roomId, userId)] *)
Definition removeUser (roomId userId : string) (rm : RoomManager)
    : bool * RoomManager :=
  match rooms rm !! roomId with
  | None => (false, rm)
  | Some room =>
      match room !! userId with
      | Some _ =>
          let room := delete userId room in
          if bool_decide (size room = 0)
          then (true, {| rooms := delete roomId (rooms rm) |})
          else (true, {| rooms := <[roomId := room]> (rooms rm) |})
      | None => (false, rm)
      end
  end.

(** [getUsers(roomId)].  The list comes in the order of the keys, where
    [Array.from(room.values())] follows the order in which the users were
    added: its members and its length are what this definition gives. *)
Definition getUsers (roomId : string) (rm : RoomManager) : list userData :=
  match rooms rm !! roomId with
  | None => []
  | Some room => (map_to_list room).*2
  end.

(** [getUserCount(roomId)] *)
Definition getUserCount (roomId : string) (rm : RoomManager) : nat :=
  match rooms rm !! roomId with
  | None => 0
  | Some room => size room
  end.

(** [roomExists(roomId)] *)
Definition roomExists (roomId : string) (rm : RoomManager) : bool :=
  bool_decide (is_Some (rooms rm !! roomId)).

(** ** The socket handlers (server/server.js) *)

Record Server : Type := mkServer {
  roomManager : RoomManager;
  stateManager : StateManager
}.

Definition newServer : Server :=
  {| roomManager := newRoomManager; stateManager := newStateManager |}.

(** Where an emit goes: [socket.emit], [socket.to(room).emit] and
    [io.to(room).emit]. *)
Inductive target : Type :=
| ToSocket (socketId : string)
| ToOthers (socketId room : string)
| ToRoom (room : string).

(** The events the server emits, with their payloads. *)
Inductive message : Type :=
| init (userId uname userColor : string) (strokes : list stroke)
       (users : list userData)
| user_joined (u : userData)
| drawing_step (strokeData : obj)
| stroke_saved (strokeData : obj)
| cursor_update (userId uname ucolor : string) (x y : value)
| undo_stroke (strokeId : value) (userId : string) (allStrokes : list stroke)
| redo_stroke (s : stroke) (userId : string) (allStrokes : list stroke)
| canvas_cleared (userId uname : string)
| user_left (userId uname : string).

Definition defaultRoom : string := "main".

(** Which sockets are in a room ([socket.join]) is the business of the
    socket.io adapter; the emits keep their target as written. *)

(** A handler returns the new server state and the emits it made, in
    order; [None] is an uncaught TypeError.  The argument [socket] is the
    [userData] object the connection's closures capture ([socket.id] is
    its [user_id]); readings of [Date.now()] and the random name and
    color are arguments. *)
Definition handler_result : Type := option (Server * list (target * message)).

(** [io.on('connection', ...)] up to the registration of the handlers. *)
Definition on_connection (socketId uname ucolor : string) (s : Server)
    : handler_result :=
  let socket := {| user_id := socketId; username := uname; color := ucolor;
                   cursorX := VNum 0; cursorY := VNum 0; isDrawing := false |} in
  let rm := addUser defaultRoom socket (roomManager s) in
  '(strokes, sm) ← getStrokes defaultRoom (stateManager s);
  Some ({| roomManager := rm; stateManager := sm |},
        [ (ToSocket socketId,
           init socketId uname ucolor strokes (getUsers defaultRoom rm));
          (ToOthers socketId defaultRoom, user_joined socket) ]).

(** [socket.on('drawing_step', ...)] *)
Definition on_drawing_step (socket : userData) (data : obj) (now : Z)
    (s : Server) : handler_result :=
  let strokeData :=
    <["timestamp" := VNum now]> (<["userId" := VStr (user_id socket)]> data) in
  Some (s, [ (ToOthers (user_id socket) defaultRoom, drawing_step strokeData) ]).

(** The object literal [{ ...data, userId: socket.id, username:
    userData.username, timestamp: Date.now() }] of the [stroke_complete]
    handler. *)
Definition strokeData_of (socket : userData) (data : obj) (now : Z) : obj :=
  <["timestamp" := VNum now]>
    (<["username" := VStr (username socket)]>
       (<["userId" := VStr (user_id socket)]> data)).

(** [socket.on('stroke_complete', ...)]; [now] is the handler's own
    [Date.now()], [tId] and [tCreated] those of [addStroke]. *)
Definition on_stroke_complete (socket : userData) (data : obj)
    (now tId tCreated : Z) (s : Server) : handler_result :=
  let strokeData := strokeData_of socket data now in
  '(_, sm) ← addStroke defaultRoom strokeData tId tCreated (stateManager s);
  Some ({| roomManager := roomManager s; stateManager := sm |},
        [ (ToRoom defaultRoom, stroke_saved strokeData) ]).

(** [socket.on('cursor_move', ...)]: the [userData] object it updates is
    the one stored in the room. *)
Definition on_cursor_move (socket : userData) (data : obj) (s : Server)
    : handler_result :=
  let x := default VUndefined (data !! "x") in
  let y := default VUndefined (data !! "y") in
  let move (u : userData) :=
    {| user_id := user_id u; username := username u; color := color u;
       cursorX := x; cursorY := y; isDrawing := isDrawing u |} in
  Some ({| roomManager :=
             {| rooms := alter (alter move (user_id socket)) defaultRoom
                           (rooms (roomManager s)) |};
           stateManager := stateManager s |},
        [ (ToOthers (user_id socket) defaultRoom,
           cursor_update (user_id socket) (username socket) (color socket) x y) ]).

(** [socket.on('undo', ...)] *)
Definition on_undo (socket : userData) (s : Server) : handler_result :=
  '(undoneStroke, sm) ← undoStroke defaultRoom (user_id socket) (stateManager s);
  match undoneStroke with
  | Some undone =>
      '(allStrokes, sm) ← getStrokes defaultRoom sm;
      Some ({| roomManager := roomManager s; stateManager := sm |},
            [ (ToRoom defaultRoom,
               undo_stroke (default VUndefined (undone !! "id"))
                           (user_id socket) allStrokes) ])
  | None => Some ({| roomManager := roomManager s; stateManager := sm |}, [])
  end.

(** [socket.on('redo', ...)] *)
Definition on_redo (socket : userData) (s : Server) : handler_result :=
  '(redoneStroke, sm) ← redoStroke defaultRoom (user_id socket) (stateManager s);
  match redoneStroke with
  | Some redone =>
      '(allStrokes, sm) ← getStrokes defaultRoom sm;
      Some ({| roomManager := roomManager s; stateManager := sm |},
            [ (ToRoom defaultRoom,
               redo_stroke redone (user_id socket) allStrokes) ])
  | None => Some ({| roomManager := roomManager s; stateManager := sm |}, [])
  end.

(** [socket.on('clear_canvas', ...)] *)
Definition on_clear_canvas (socket : userData) (s : Server) : handler_result :=
  Some ({| roomManager := roomManager s;
           stateManager := clearStrokes defaultRoom (stateManager s) |},
        [ (ToRoom defaultRoom,
           canvas_cleared (user_id socket) (username socket)) ]).

(** [socket.on('disconnect', ...)] *)
Definition on_disconnect (socket : userData) (s : Server) : handler_result :=
  let '(_, rm) := removeUser defaultRoom (user_id socket) (roomManager s) in
  let sm := cleanupUserHistory defaultRoom (user_id socket) (stateManager s) in
  Some ({| roomManager := rm; stateManager := sm |},
        [ (ToOthers (user_id socket) defaultRoom,
           user_left (user_id socket) (username socket)) ]).

(** ** The drawing client: [CanvasManager.stopDrawing] *)

(** The fields of [CanvasManager] that [stopDrawing] reads or writes;
    [onStrokeComplete] records whether a callback is installed. *)
Record CanvasManager : Type := mkCM {
  cm_isDrawing : bool;
  currentPath : list value;
  currentStroke : option obj;
  onStrokeComplete : bool
}.

(** [stopDrawing()]: the new fields and the argument handed to
    [onStrokeComplete], if it is called. *)
Definition stopDrawing (cm : CanvasManager)
    : option (CanvasManager * option obj) :=
  if negb (cm_isDrawing cm) then Some (cm, None)
  else
    let reset := {| cm_isDrawing := false; currentPath := [];
                    currentStroke := None;
                    onStrokeComplete := onStrokeComplete cm |} in
    if bool_decide (1 < length (currentPath cm)) && onStrokeComplete cm then
      cs ← currentStroke cm;
      let prop k := default VUndefined (cs !! k) in
      Some (reset,
            Some (<["tool" := prop "tool"]>
                    (<["width" := prop "width"]>
                       (<["color" := prop "color"]>
                          {["points" := VArr (currentPath cm)]}))))
    else Some (reset, None).

(** ** Observations and the well-formedness of the store *)

(** What [getStrokes] shows of a room, without creating it: an unknown
    room reads as the empty history. *)
Definition history (roomId : string) (sm : StateManager) : list stroke :=
  default [] (roomStrokes sm !! roomId).

(** The redo map of a room and the redo stack of one participant in it;
    an unknown room or participant reads as empty. *)
Definition redoMap (roomId : string) (sm : StateManager)
    : gmap string (list stroke) :=
  default ∅ (redoStacks sm !! roomId).

Definition redoStack (roomId userId : string) (sm : StateManager)
    : list stroke :=
  default [] (redoMap roomId sm !! userId).

(** The two maps of the store list the same rooms. *)
Definition rooms_agree (sm : StateManager) : Prop :=
  ∀ roomId, is_Some (roomStrokes sm !! roomId) ↔ is_Some (redoStacks sm !! roomId).

(** A stroke belongs to a participant. *)
Definition owned_by (userId : string) (s : stroke) : Prop :=
  prop_is s "userId" userId = true.

#[local] Instance owned_by_dec userId s : Decision (owned_by userId s).
Proof. unfold owned_by. apply _. Defined.

(** Both entries of one room written at once. *)
Definition put_room (roomId : string) (h : list stroke)
    (m : gmap string (list stroke)) (sm : StateManager) : StateManager :=
  {| roomStrokes := <[roomId := h]> (roomStrokes sm);
     redoStacks := <[roomId := m]> (redoStacks sm);
     strokeIdCounter := strokeIdCounter sm |}.


(** ** Sample data *)

(** What the client sends for a stroke of two points. *)
Definition sample_points : value :=
  VArr [VObj [("x", VNum 100); ("y", VNum 150)];
        VObj [("x", VNum 102); ("y", VNum 153)]].

Definition sample_data : obj :=
  {[ "points" := sample_points; "color" := VStr "#e74c3c";
     "width" := VNum 5; "tool" := VStr "brush" ]}.

(** The same stroke as the server hands it to [addStroke] for the
    participant [userId]. *)
Definition sample_strokeData (userId uname : string) (now : Z) : obj :=
  <["timestamp" := VNum now]>
    (<["username" := VStr uname]> (<["userId" := VStr userId]> sample_data)).

(** The store after participant A and then participant B committed one
    stroke each in room [main]. *)
Definition store_AB : StateManager :=
  let sm := newStateManager in
  let sm := default sm
    (snd <$> addStroke "main" (sample_strokeData "A" "HappyArtist1" 1000) 1000 1000 sm) in
  default sm
    (snd <$> addStroke "main" (sample_strokeData "B" "SwiftPainter2" 2000) 2000 2000 sm).

(** The store after A undid its stroke in [store_AB]. *)
Definition store_AB_undone : StateManager :=
  default store_AB (snd <$> undoStroke "main" "A" store_AB).

(** The stroke A committed in [store_AB]. *)
Definition stroke_A : stroke :=
  finalize "stroke_1000_1" (sample_strokeData "A" "HappyArtist1" 1000) 1000.

(** Two stores show the same thing: the same history for every room, the
    same redo stack for every participant, the same id counter. *)
Definition same_view (sm sm' : StateManager) : Prop :=
  strokeIdCounter sm' = strokeIdCounter sm
  ∧ (∀ r, history r sm' = history r sm)
  ∧ (∀ r u, redoStack r u sm' = redoStack r u sm).

(** The redo map [addStroke] leaves behind: the stack of the stroke's
    [userId] is reset if there is one. *)
Definition cleared_for (strokeData : obj) (m : gmap string (list stroke))
    : gmap string (list stroke) :=
  match string_prop strokeData "userId" with
  | Some userId =>
      match m !! userId with
      | Some _ => <[userId := []]> m
      | None => m
      end
  | None => m
  end.

(** The store with its id counter advanced by one. *)
Definition bump (sm : StateManager) : StateManager :=
  {| roomStrokes := roomStrokes sm; redoStacks := redoStacks sm;
     strokeIdCounter := strokeIdCounter sm + 1 |}.

(** The closures' [userData] of two connections and the server states of
    a short session: A and B connect, then B commits a stroke. *)
Definition socket_A : userData :=
  {| user_id := "A"; username := "HappyArtist1"; color := "#e74c3c";
     cursorX := VNum 0; cursorY := VNum 0; isDrawing := false |}.

Definition socket_B : userData :=
  {| user_id := "B"; username := "SwiftPainter2"; color := "#3498db";
     cursorX := VNum 0; cursorY := VNum 0; isDrawing := false |}.

Definition after (r : handler_result) (s : Server) : Server :=
  default s (fst <$> r).

Definition server_AB : Server :=
  let s := after (on_connection "A" "HappyArtist1" "#e74c3c" newServer) newServer in
  after (on_connection "B" "SwiftPainter2" "#3498db" s) s.

Definition server_B_drew : Server :=
  after (on_stroke_complete socket_B sample_data 2000 2000 2001 server_AB)
        server_AB.

(** ** Identifiers *)

(** The character occurs in the string. *)
Fixpoint occurs (c : ascii) (s : string) : bool :=
  match s with
  | EmptyString => false
  | String c' s' => bool_decide (c' = c) || occurs c s'
  end.

(** The identifier a stroke carries, [undefined] read as [None]. *)
Definition id_of (s : stroke) : option value := s !! "id".

(** All the strokes of the redo stacks of one room, stack after stack. *)
Definition stacked (m : gmap string (list stroke)) : list stroke :=
  concat (map_to_list m).*2.

(** Every stroke a room holds: those of its history and those waiting on
    its redo stacks. *)
Definition room_pool (roomId : string) (sm : StateManager) : list stroke :=
  history roomId sm ++ stacked (redoMap roomId sm).

(** The identifier was made by [generateStrokeId] at a counter value not
    above [n]. *)
Definition issued_upto (n : N) (s : stroke) : Prop :=
  ∃ t c, id_of s = Some (VStr (strokeIdOf t c)) ∧ (c ≤ n)%N.

(** The strokes a room holds carry pairwise distinct identifiers, all of
    them issued by this store. *)
Definition ids_ok (sm : StateManager) : Prop :=
  ∀ roomId,
    NoDup (id_of <$> room_pool roomId sm)
    ∧ Forall (issued_upto (strokeIdCounter sm)) (room_pool roomId sm).

(** ** Sequences of calls *)

(** One call of a method of the state manager, with the readings of the
    clock it makes. *)
Inductive call : Type :=
| call_addStroke (roomId : string) (strokeData : obj) (tId tCreated : Z)
| call_getStrokes (roomId : string)
| call_undoStroke (roomId userId : string)
| call_redoStroke (roomId userId : string)
| call_clearStrokes (roomId : string)
| call_removeStroke (roomId strokeId : string)
| call_getStrokeCount (roomId : string)
| call_cleanupUserHistory (roomId userId : string)
| call_getUserStrokes (roomId userId : string).

(** The store a call leaves behind. *)
Definition exec (c : call) (sm : StateManager) : option StateManager :=
  match c with
  | call_addStroke r sd tId tCreated => snd <$> addStroke r sd tId tCreated sm
  | call_getStrokes r => snd <$> getStrokes r sm
  | call_undoStroke r u => snd <$> undoStroke r u sm
  | call_redoStroke r u => snd <$> redoStroke r u sm
  | call_clearStrokes r => Some (clearStrokes r sm)
  | call_removeStroke r i => snd <$> removeStroke r i sm
  | call_getStrokeCount r => snd <$> getStrokeCount r sm
  | call_cleanupUserHistory r u => Some (cleanupUserHistory r u sm)
  | call_getUserStrokes r u => snd <$> getUserStrokes r u sm
  end.

(** The identifiers [generateStrokeId] hands out during a call. *)
Definition assigned (c : call) (sm : StateManager) : list string :=
  match c with
  | call_addStroke r _ tId _ => [fst (generateStrokeId tId (initRoom r sm))]
  | _ => []
  end.

(** A run of calls: the final store and the identifiers handed out, in
    order. *)
Fixpoint run (cs : list call) (sm : StateManager)
    : option (StateManager * list string) :=
  match cs with
  | [] => Some (sm, [])
  | c :: cs =>
      sm' ← exec c sm;
      '(sm'', ids) ← run cs sm';
      Some (sm'', assigned c sm ++ ids)
  end.

(** The stroke data handed to [addStroke] is a stroke without an
    identifier of its own. *)
Definition without_id (c : call) : Prop :=
  match c with
  | call_addStroke _ strokeData _ _ => strokeData !! "id" = None
  | _ => True
  end.

Definition pool_ok (n : N) (l : list stroke) : Prop :=
  NoDup (id_of <$> l) ∧ Forall (issued_upto n) l.

(** Stroke data that carries an [id] property of its own, as a client may
    send it with [stroke_complete]. *)
Definition named_data : obj := <["id" := VStr "mine"]> sample_data.

(** A commit whose point sequence is empty, and the server after A sent
    it. *)
Definition pointless_data : obj :=
  {[ "points" := VArr []; "color" := VStr "#e74c3c";
     "width" := VNum 5; "tool" := VStr "brush" ]}.

(** A lone participant A who committed one stroke, and the server after
    A then disconnected. *)
Definition server_A_drew : Server :=
  let s := after (on_connection "A" "HappyArtist1" "#e74c3c" newServer) newServer in
  after (on_stroke_complete socket_A sample_data 1000 1000 1001 s) s.

Definition server_A_left : Server :=
  after (on_disconnect socket_A server_A_drew) server_A_drew.

Definition server_A_joined : Server :=
  after (on_connection "A" "HappyArtist1" "#e74c3c" newServer) newServer.

(** The stroke of A that [server_A_drew] keeps. *)
Definition stroke_A_kept : stroke :=
  finalize "stroke_1000_1" (strokeData_of socket_A sample_data 1000) 1001.

(** The history carried by the [init] message a connection sends to the
    new socket. *)
Definition init_strokes (r : handler_result) : option (list stroke) :=
  match r with
  | Some (_, (ToSocket _, init _ _ _ strokes _) :: _) => Some strokes
  | _ => None
  end.

(** The room a call is about. *)
Definition room_of (c : call) : string :=
  match c with
  | call_addStroke r _ _ _ | call_getStrokes r | call_undoStroke r _
  | call_redoStroke r _ | call_clearStrokes r | call_removeStroke r _
  | call_getStrokeCount r | call_cleanupUserHistory r _
  | call_getUserStrokes r _ => r
  end.

Definition is_addStroke (c : call) : bool :=
  match c with
  | call_addStroke _ _ _ _ => true
  | _ => false
  end.

(** The strokes that the [addStroke] calls of a run make for one room,
    given the counter value the run starts from. *)
Fixpoint strokes_made (roomId : string) (cs : list call) (counter : N)
    : list stroke :=
  match cs with
  | [] => []
  | call_addStroke r strokeData tId tCreated :: cs =>
      (if bool_decide (r = roomId)
       then [finalize (strokeIdOf tId (counter + 1)) strokeData tCreated]
       else [])
      ++ strokes_made roomId cs (counter + 1)
  | _ :: cs => strokes_made roomId cs counter
  end.

(** The readings of the clock that the [addStroke] calls of a run hand to
    [generateStrokeId], in order. *)
Definition commit_times (cs : list call) : list Z :=
  omap (λ c, match c with
             | call_addStroke _ _ tId _ => Some tId
             | _ => None
             end) cs.

(** The identifiers made one after the other from counter value [n]. *)
Fixpoint ids_from (n : N) (ts : list Z) : list string :=
  match ts with
  | [] => []
  | t :: ts => strokeIdOf t (n + 1) :: ids_from (n + 1) ts
  end.

(** The store after A, B and A again committed a stroke each, and the
    strokes of B and of A's second commit. *)
Definition store_ABA : StateManager :=
  default store_AB
    (snd <$> addStroke "main" (sample_strokeData "A" "HappyArtist1" 3000)
               3000 3001 store_AB).

Definition stroke_B : stroke :=
  finalize "stroke_2000_2" (sample_strokeData "B" "SwiftPainter2" 2000) 2000.

Definition stroke_A2 : stroke :=
  finalize "stroke_3000_3" (sample_strokeData "A" "HappyArtist1" 3000) 3001.

(** ** The rest of RoomManager *)

(** [getUser(roomId, userId)], [None] for [null]. *)
Definition getUser (roomId userId : string) (rm : RoomManager)
    : option userData :=
  match rooms rm !! roomId with
  | None => None
  | Some room => room !! userId
  end.

(** The properties an [updates] object may carry, among those of
    [userData]; properties outside of [userData] are not tracked. *)
Record userUpdates : Type := mkUpdates {
  up_id : option string;
  up_username : option string;
  up_color : option string;
  up_cursorX : option value;
  up_cursorY : option value;
  up_isDrawing : option bool
}.

(** The object literal [{ ...user, ...updates }]. *)
Definition merge_user (u : userData) (updates : userUpdates) : userData :=
  {| user_id := default (user_id u) (up_id updates);
     username := default (username u) (up_username updates);
     color := default (color u) (up_color updates);
     cursorX := default (cursorX u) (up_cursorX updates);
     cursorY := default (cursorY u) (up_cursorY updates);
     isDrawing := default (isDrawing u) (up_isDrawing updates) |}.

(** [updateUser(roomId, userId, updates)] *)
Definition updateUser (roomId userId : string) (updates : userUpdates)
    (rm : RoomManager) : bool * RoomManager :=
  match rooms rm !! roomId with
  | None => (false, rm)
  | Some room =>
      match room !! userId with
      | Some user =>
          (true,
           {| rooms := <[roomId := <[userId := merge_user user updates]> room]>
                         (rooms rm) |})
      | None => (false, rm)
      end
  end.

(** [getAllRooms()].  The list comes in the order of the keys, where
    [Array.from(this.rooms.keys())] follows the order in which the rooms
    were created: its members are what this definition gives. *)
Definition getAllRooms (rm : RoomManager) : list string :=
  (map_to_list (rooms rm)).*1.

(** The members of a room, an unknown room read as empty. *)
Definition members (roomId : string) (rm : RoomManager)
    : gmap string userData :=
  default ∅ (rooms rm !! roomId).

(** The registry holds no room without a member. *)
Definition no_empty_room (rm : RoomManager) : Prop :=
  map_Forall (λ _ room, size room ≠ 0) (rooms rm).

(** One call of a method that changes the registry. *)
Inductive registry_call : Type :=
| reg_addUser (roomId : string) (u : userData)
| reg_removeUser (roomId userId : string)
| reg_updateUser (roomId userId : string) (updates : userUpdates).

Definition reg_exec (c : registry_call) (rm : RoomManager) : RoomManager :=
  match c with
  | reg_addUser r u => addUser r u rm
  | reg_removeUser r i => (removeUser r i rm).2
  | reg_updateUser r i updates => (updateUser r i updates rm).2
  end.

Definition reg_run (cs : list registry_call) (rm : RoomManager) : RoomManager :=
  foldl (λ rm c, reg_exec c rm) rm cs.

(** The registry after A and B joined room [main]. *)
Definition registry_AB : RoomManager :=
  addUser "main" socket_B (addUser "main" socket_A newRoomManager).

(** ** Events of the server *)

(** What the server reacts to: a new connection, or an event of a
    connected socket, with the closure's [userData] and the readings of
    the clock.  A [cursor_move] may come without a payload ([None] for
    [undefined] or [null]); the other handlers only spread theirs, which
    reads [undefined] as the empty object. *)
Inductive event : Type :=
| ev_connection (socketId uname ucolor : string)
| ev_drawing_step (socket : userData) (data : obj) (now : Z)
| ev_stroke_complete (socket : userData) (data : obj) (now tId tCreated : Z)
| ev_cursor_move (socket : userData) (data : option obj)
| ev_undo (socket : userData)
| ev_redo (socket : userData)
| ev_clear_canvas (socket : userData)
| ev_disconnect (socket : userData).

Definition handle (ev : event) (s : Server) : handler_result :=
  match ev with
  | ev_connection i n c => on_connection i n c s
  | ev_drawing_step socket data now => on_drawing_step socket data now s
  | ev_stroke_complete socket data now tId tCreated =>
      on_stroke_complete socket data now tId tCreated s
  | ev_cursor_move socket (Some data) => on_cursor_move socket data s
  | ev_cursor_move socket None => None
  | ev_undo socket => on_undo socket s
  | ev_redo socket => on_redo socket s
  | ev_clear_canvas socket => on_clear_canvas socket s
  | ev_disconnect socket => on_disconnect socket s
  end.

(** The server over a sequence of events: the final state and all the
    emits, in order. *)
Fixpoint serve (evs : list event) (s : Server) : handler_result :=
  match evs with
  | [] => Some (s, [])
  | ev :: evs =>
      '(s', out) ← handle ev s;
      '(s'', out') ← serve evs s';
      Some (s'', out ++ out')
  end.

(** The event carries the payload its handler reads properties of. *)
Definition has_payload (ev : event) : bool :=
  match ev with
  | ev_cursor_move _ None => false
  | _ => true
  end.

(** The store is well formed and the registry holds no empty room. *)
Definition server_ok (s : Server) : Prop :=
  rooms_agree (stateManager s) ∧ no_empty_room (roomManager s).

(** ** The drawing client: a gesture on the canvas *)

(** The fields of [CanvasManager] used by [startDrawing] and [draw]
    besides those [stopDrawing] uses.  Coordinates are what
    [getCanvasCoordinates] returns for the event; [strokeWidth] is the
    integer the width slider gives.  The [points] property of
    [currentStroke] is the array [currentPath] itself and is read
    through [currentPath] only. *)
Record Canvas : Type := mkCanvas {
  core : CanvasManager;
  lastX : value;
  lastY : value;
  strokeColor : string;
  strokeWidth : Z;
  tool : string;
  onDrawStep : bool
}.

Definition point (x y : value) : value := VObj [("x", x); ("y", y)].

(** What a method does besides changing fields: a line drawn on the local
    canvas, a call of [onDrawStep], a call of [onStrokeComplete]. *)
Inductive canvas_effect : Type :=
| fx_line (x1 y1 x2 y2 lcolor lwidth : value)
| fx_step (data : obj)
| fx_complete (data : obj).

Definition set_core (f : CanvasManager → CanvasManager) (c : Canvas) : Canvas :=
  {| core := f (core c); lastX := lastX c; lastY := lastY c;
     strokeColor := strokeColor c; strokeWidth := strokeWidth c;
     tool := tool c; onDrawStep := onDrawStep c |}.

(** [startDrawing(event)] *)
Definition startDrawing (x y : value) (c : Canvas) : Canvas :=
  let eraser := bool_decide (tool c = "eraser") in
  {| core :=
       {| cm_isDrawing := true;
          currentPath := [point x y];
          currentStroke :=
            Some {[ "color" := VStr (if eraser then "#ffffff" else strokeColor c);
                    "width" := VNum (if eraser then strokeWidth c * 3
                                     else strokeWidth c);
                    "tool" := VStr (tool c) ]};
          onStrokeComplete := onStrokeComplete (core c) |};
     lastX := x; lastY := y;
     strokeColor := strokeColor c; strokeWidth := strokeWidth c;
     tool := tool c; onDrawStep := onDrawStep c |}.

(** [draw(event)] *)
Definition draw (x y : value) (c : Canvas)
    : option (Canvas * list canvas_effect) :=
  if negb (cm_isDrawing (core c)) then Some (c, [])
  else
    cs ← currentStroke (core c);
    let lcolor := default VUndefined (cs !! "color") in
    let lwidth := default VUndefined (cs !! "width") in
    let step :=
      {[ "start" := point (lastX c) (lastY c); "end" := point x y;
         "color" := lcolor; "width" := lwidth; "tool" := VStr (tool c) ]} in
    Some ({| core :=
               {| cm_isDrawing := true;
                  currentPath := currentPath (core c) ++ [point x y];
                  currentStroke := currentStroke (core c);
                  onStrokeComplete := onStrokeComplete (core c) |};
             lastX := x; lastY := y;
             strokeColor := strokeColor c; strokeWidth := strokeWidth c;
             tool := tool c; onDrawStep := onDrawStep c |},
          fx_line (lastX c) (lastY c) x y lcolor lwidth
          :: (if onDrawStep c then [fx_step step] else [])).

(** [stopDrawing()] on the whole canvas. *)
Definition stop (c : Canvas) : option (Canvas * list canvas_effect) :=
  '(cm, out) ← stopDrawing (core c);
  Some (set_core (λ _, cm) c,
        match out with Some data => [fx_complete data] | None => [] end).

(** [setColor], [setStrokeWidth], [setTool] *)
Definition setColor (v : string) (c : Canvas) : Canvas :=
  {| core := core c; lastX := lastX c; lastY := lastY c;
     strokeColor := v; strokeWidth := strokeWidth c;
     tool := tool c; onDrawStep := onDrawStep c |}.

Definition setStrokeWidth (w : Z) (c : Canvas) : Canvas :=
  {| core := core c; lastX := lastX c; lastY := lastY c;
     strokeColor := strokeColor c; strokeWidth := w;
     tool := tool c; onDrawStep := onDrawStep c |}.

Definition setTool (t : string) (c : Canvas) : Canvas :=
  {| core := core c; lastX := lastX c; lastY := lastY c;
     strokeColor := strokeColor c; strokeWidth := strokeWidth c;
     tool := t; onDrawStep := onDrawStep c |}.

(** What happens on the canvas: mouse or touch down, move, up (or out),
    and the controls. *)
Inductive canvas_event : Type :=
| ce_start (x y : value)
| ce_draw (x y : value)
| ce_stop
| ce_setColor (v : string)
| ce_setStrokeWidth (w : Z)
| ce_setTool (t : string).

Definition canvas_step (e : canvas_event) (c : Canvas)
    : option (Canvas * list canvas_effect) :=
  match e with
  | ce_start x y => Some (startDrawing x y c, [])
  | ce_draw x y => draw x y c
  | ce_stop => stop c
  | ce_setColor v => Some (setColor v c, [])
  | ce_setStrokeWidth w => Some (setStrokeWidth w c, [])
  | ce_setTool t => Some (setTool t c, [])
  end.

Fixpoint canvas_run (es : list canvas_event) (c : Canvas)
    : option (Canvas * list canvas_effect) :=
  match es with
  | [] => Some (c, [])
  | e :: es =>
      '(c', out) ← canvas_step e c;
      '(c'', out') ← canvas_run es c';
      Some (c'', out ++ out')
  end.

(** The effects of the moves of a gesture that started at [q]: for each
    move a line from the previous point and a step with the same ends. *)
Fixpoint moves (q : value * value) (ps : list (value * value))
    (lcolor lwidth : value) (t : string) : list canvas_effect :=
  match ps with
  | [] => []
  | p :: ps =>
      [ fx_line q.1 q.2 p.1 p.2 lcolor lwidth;
        fx_step {[ "start" := point q.1 q.2; "end" := point p.1 p.2;
                   "color" := lcolor; "width" := lwidth; "tool" := VStr t ]} ]
      ++ moves p ps lcolor lwidth t
  end.

(** The data of the strokes handed to [onStrokeComplete]. *)
Definition completed (out : list canvas_effect) : list obj :=
  omap (λ fx, match fx with fx_complete d => Some d | _ => None end) out.

(** A canvas as [main.js] sets it up: both callbacks installed. *)
Definition wired_canvas : Canvas :=
  {| core := {| cm_isDrawing := false; currentPath := [];
                currentStroke := None; onStrokeComplete := true |};
     lastX := VNum 0; lastY := VNum 0;
     strokeColor := "#000000"; strokeWidth := 3; tool := "brush";
     onDrawStep := true |}.

(** Moves and changes of the controls: the events that can come between
    the start and the end of a gesture. *)
Definition during_gesture (e : canvas_event) : bool :=
  match e with
  | ce_draw _ _ | ce_setColor _ | ce_setStrokeWidth _ | ce_setTool _ => true
  | ce_start _ _ | ce_stop => false
  end.

(** ** The drawing client: what it keeps of the history (main.js) *)






(** ** The drawing client: WebSocketClient (client/websocket.js) *)

(** The fields of [WebSocketClient]; a callback is [None] for [null] and
    otherwise the function installed, named by a number. *)
Record WebSocketClient : Type := mkWS {
  ws_userId : option string;
  ws_username : option string;
  ws_userColor : option string;
  connected : bool;
  callbacks : gmap string (option nat)
}.

(** [new WebSocketClient()] of client/websocket.js. *)
Definition newWebSocketClient : WebSocketClient :=
  {| ws_userId := None; ws_username := None; ws_userColor := None;
     connected := false;
     callbacks :=
       list_to_map
         ((λ k, (k, None)) <$>
          ["onConnect"; "onDisconnect"; "onInit"; "onUserJoined";
           "onUserLeft"; "onDrawingStep"; "onStrokeSaved"; "onCursorUpdate";
           "onUndoStroke"; "onRedoStroke"; "onCanvasCleared"]) |}.

(** [c.toUpperCase()] for a character of the ASCII range; a byte outside
    it is left as it is, where JavaScript also maps some characters beyond
    ASCII (U+0131 to [I]). *)
Definition upper (c : ascii) : ascii :=
  let n := nat_of_ascii c in
  if bool_decide (97 ≤ n ≤ 122) then ascii_of_nat (n - 32) else c.

(** ['on' + event.charAt(0).toUpperCase() + event.slice(1)] *)
Definition callback_name (event : string) : string :=
  "on" +:+ match event with
           | EmptyString => EmptyString
           | String c rest => String (upper c) rest
           end.

(** [on(event, callback)] *)
Definition ws_on (event : string) (callback : nat) (c : WebSocketClient)
    : WebSocketClient :=
  match callbacks c !! callback_name event with
  | Some _ =>
      {| ws_userId := ws_userId c; ws_username := ws_username c;
         ws_userColor := ws_userColor c; connected := connected c;
         callbacks := <[callback_name event := Some callback]> (callbacks c) |}
  | None => c
  end.

(** What the application asks the client to send. *)
Inductive request : Type :=
| rq_drawing_step (data : obj)
| rq_stroke_complete (data : obj)
| rq_cursor_move (x y : value)
| rq_undo
| rq_redo
| rq_clear_canvas.

(** The event name and the payload of [socket.emit]. *)
Definition wire (r : request) : string * option obj :=
  match r with
  | rq_drawing_step data => ("drawing_step", Some data)
  | rq_stroke_complete data => ("stroke_complete", Some data)
  | rq_cursor_move x y => ("cursor_move", Some {[ "x" := x; "y" := y ]})
  | rq_undo => ("undo", None)
  | rq_redo => ("redo", None)
  | rq_clear_canvas => ("clear_canvas", None)
  end.

(** [emitDrawingStep], [emitStrokeComplete], [emitCursorMove],
    [emitUndo], [emitRedo], [emitClearCanvas]: what goes out. *)
Definition ws_emit (r : request) (c : WebSocketClient)
    : list (string * option obj) :=
  if negb (connected c) then [] else [wire r].

(** What happens to the client: the socket connects or disconnects, or
    the application asks for an emit or registers a callback. *)
Inductive ws_event : Type :=
| ws_connect
| ws_disconnect
| ws_request (r : request)
| ws_register (event : string) (callback : nat).

Definition set_connected (b : bool) (c : WebSocketClient) : WebSocketClient :=
  {| ws_userId := ws_userId c; ws_username := ws_username c;
     ws_userColor := ws_userColor c; connected := b;
     callbacks := callbacks c |}.

(** The client after an event; what it sends; the callbacks it calls. *)
Definition ws_step (e : ws_event) (c : WebSocketClient)
    : WebSocketClient * list (string * option obj) * list nat :=
  match e with
  | ws_connect =>
      (set_connected true c, [],
       match callbacks c !! "onConnect" with
       | Some (Some f) => [f] | _ => []
       end)
  | ws_disconnect =>
      (set_connected false c, [],
       match callbacks c !! "onDisconnect" with
       | Some (Some f) => [f] | _ => []
       end)
  | ws_request r => (c, ws_emit r c, [])
  | ws_register event callback => (ws_on event callback c, [], [])
  end.

Fixpoint ws_run (es : list ws_event) (c : WebSocketClient)
    : WebSocketClient * list (string * option obj) :=
  match es with
  | [] => (c, [])
  | e :: es =>
      let '(c', sent, _) := ws_step e c in
      let '(c'', sent') := ws_run es c' in
      (c'', sent ++ sent')
  end.

Definition is_request (e : ws_event) : bool :=
  match e with ws_request _ => true | _ => false end.

Definition requests_of (es : list ws_event) : list (string * option obj) :=
  omap (λ e, match e with ws_request r => Some (wire r) | _ => None end) es.
(** * Properties *)

Lemma rooms_agree_dom sm :
  rooms_agree sm ↔ dom (roomStrokes sm) = dom (redoStacks sm).
Proof.
  unfold rooms_agree. split.
  - intros H. apply set_eq. intros r. rewrite !elem_of_dom. apply H.
  - intros H r. rewrite <- !elem_of_dom, H. done.
Qed.

Lemma rooms_agree_new : rooms_agree newStateManager.
Proof. intros r. simpl. rewrite !lookup_empty. done. Qed.

Lemma rooms_agree_put roomId h m sm :
  rooms_agree sm → rooms_agree (put_room roomId h m sm).
Proof.
  intros H r. simpl. destruct (decide (roomId = r)) as [->|Hne].
  - rewrite !lookup_insert_eq. split; eauto.
  - rewrite !lookup_insert_ne by done. apply H.
Qed.

Lemma history_put roomId r h m sm :
  history r (put_room roomId h m sm)
  = if decide (roomId = r) then h else history r sm.
Proof.
  unfold history. simpl. rewrite lookup_insert.
  destruct (decide (roomId = r)); done.
Qed.

Lemma redoMap_put roomId r h m sm :
  redoMap r (put_room roomId h m sm)
  = if decide (roomId = r) then m else redoMap r sm.
Proof.
  unfold redoMap. simpl. rewrite lookup_insert.
  destruct (decide (roomId = r)); done.
Qed.

Lemma put_room_put roomId h m h' m' sm :
  put_room roomId h' m' (put_room roomId h m sm) = put_room roomId h' m' sm.
Proof. unfold put_room. simpl. by rewrite !insert_insert_eq. Qed.

Lemma sm_eq sm1 sm2 :
  roomStrokes sm1 = roomStrokes sm2 → redoStacks sm1 = redoStacks sm2 →
  strokeIdCounter sm1 = strokeIdCounter sm2 → sm1 = sm2.
Proof. destruct sm1, sm2. simpl. by intros -> -> ->. Qed.

(** On a well-formed store [initRoom] writes back what the room already
    reads as. *)
Lemma initRoom_put roomId sm :
  rooms_agree sm →
  initRoom roomId sm = put_room roomId (history roomId sm) (redoMap roomId sm) sm.
Proof.
  intros Hag. unfold initRoom, history, redoMap.
  destruct (roomStrokes sm !! roomId) as [h|] eqn:Hh.
  - destruct (proj1 (Hag roomId)) as [m Hm]; [by eauto|].
    rewrite Hm. simpl. apply sm_eq; simpl; [| |done].
    + by rewrite insert_id.
    + by rewrite insert_id.
  - destruct (redoStacks sm !! roomId) as [m|] eqn:Hm.
    + destruct (proj2 (Hag roomId)) as [h Hh']; [by eauto|]. congruence.
    + done.
Qed.

(** Once a room is known, [initRoom] does nothing at all. *)
Lemma initRoom_known roomId sm :
  is_Some (roomStrokes sm !! roomId) → initRoom roomId sm = sm.
Proof. intros [h Hh]. unfold initRoom. by rewrite Hh. Qed.

Lemma initRoom_history roomId r sm :
  history r (initRoom roomId sm) = history r sm.
Proof.
  unfold initRoom, history.
  destruct (roomStrokes sm !! roomId) as [h|] eqn:Hh; [done|]. simpl.
  destruct (decide (roomId = r)) as [->|Hne].
  - by rewrite lookup_insert_eq, Hh.
  - by rewrite lookup_insert_ne.
Qed.

Lemma initRoom_redoMap roomId r sm :
  rooms_agree sm → redoMap r (initRoom roomId sm) = redoMap r sm.
Proof.
  intros Hag. rewrite initRoom_put by done. rewrite redoMap_put.
  destruct (decide (roomId = r)) as [->|]; done.
Qed.

Lemma initRoom_counter roomId sm :
  strokeIdCounter (initRoom roomId sm) = strokeIdCounter sm.
Proof. unfold initRoom. by destruct (roomStrokes sm !! roomId). Qed.

Lemma initRoom_lookups roomId sm :
  rooms_agree sm →
  roomStrokes (initRoom roomId sm) !! roomId = Some (history roomId sm)
  ∧ redoStacks (initRoom roomId sm) !! roomId = Some (redoMap roomId sm).
Proof.
  intros Hag. rewrite initRoom_put by done. simpl.
  by rewrite !lookup_insert_eq.
Qed.

Lemma put_room_initRoom roomId h m sm :
  rooms_agree sm →
  put_room roomId h m (initRoom roomId sm) = put_room roomId h m sm.
Proof. intros Hag. rewrite initRoom_put by done. apply put_room_put. Qed.

(** ** The reverse search *)

Lemma undo_scan_Some strokes userId n i :
  undo_scan strokes userId n = Some i →
  n ≤ length strokes →
  i < n ∧ (∃ s, strokes !! i = Some s ∧ owned_by userId s)
  ∧ ∀ j s, i < j < n → strokes !! j = Some s → ¬ owned_by userId s.
Proof.
  induction n as [|n IH]; simpl; [done|]. intros Hscan Hn.
  destruct (strokes !! n) as [s|] eqn:Hs.
  - destruct (prop_is s "userId" userId) eqn:Hown.
    + inversion Hscan; subst i. split; [lia|]. split; [by eauto|].
      intros j s' Hj. lia.
    + destruct (IH Hscan) as (Hi & Hfound & Hlater); [lia|].
      split; [lia|]. split; [done|]. intros j s' Hj Hs'.
      destruct (decide (j = n)) as [->|].
      * unfold owned_by. congruence.
      * apply (Hlater j); [lia|done].
  - apply lookup_ge_None in Hs. lia.
Qed.

Lemma undo_scan_None strokes userId n :
  undo_scan strokes userId n = None →
  ∀ j s, j < n → strokes !! j = Some s → ¬ owned_by userId s.
Proof.
  induction n as [|n IH]; simpl; [intros; lia|]. intros Hscan j s Hj Hs.
  destruct (strokes !! n) as [s'|] eqn:Hs'.
  - destruct (prop_is s' "userId" userId) eqn:Hown; [done|].
    destruct (decide (j = n)) as [->|].
    + unfold owned_by. congruence.
    + apply (IH Hscan j); [lia|done].
  - apply (IH Hscan j); [|done].
    destruct (decide (j = n)) as [->|]; [congruence|lia].
Qed.

(** The found index splits the history around the requester's most
    recent stroke. *)
Lemma undo_scan_split strokes userId i :
  undo_scan strokes userId (length strokes) = Some i →
  ∃ s, strokes !! i = Some s
  ∧ strokes = take i strokes ++ s :: drop (S i) strokes
  ∧ owned_by userId s
  ∧ Forall (λ s', ¬ owned_by userId s') (drop (S i) strokes).
Proof.
  intros Hscan.
  destruct (undo_scan_Some _ _ _ _ Hscan) as (Hi & (s & Hs & Hown) & Hlater);
    [done|].
  exists s. split; [done|]. split.
  { by rewrite <- (take_drop_middle strokes i s) at 1. }
  split; [done|]. apply Forall_lookup. intros k s' Hk.
  rewrite lookup_drop in Hk. apply (Hlater (S i + k)); [|done].
  apply lookup_lt_Some in Hk. lia.
Qed.

Lemma undo_scan_None_Forall strokes userId :
  undo_scan strokes userId (length strokes) = None →
  Forall (λ s, ¬ owned_by userId s) strokes.
Proof.
  intros Hscan. apply Forall_lookup. intros j s Hs.
  apply (undo_scan_None _ _ _ Hscan j); [|done].
  by apply lookup_lt_Some in Hs.
Qed.

(** A search that finds nothing is exactly a history without a stroke of
    the requester. *)
Lemma undo_scan_Forall_None strokes userId :
  Forall (λ s, ¬ owned_by userId s) strokes →
  undo_scan strokes userId (length strokes) = None.
Proof.
  intros Hall.
  destruct (undo_scan strokes userId (length strokes)) as [i|] eqn:Hscan;
    [|done].
  destruct (undo_scan_split _ _ _ Hscan) as (s & Hs & _ & Hown & _).
  rewrite Forall_lookup in Hall. by destruct (Hall i s Hs).
Qed.

(** ** The methods on a well-formed store *)

Lemma undoStroke_found roomId userId sm i s :
  rooms_agree sm →
  undo_scan (history roomId sm) userId (length (history roomId sm)) = Some i →
  history roomId sm !! i = Some s →
  undoStroke roomId userId sm
  = Some (Some s,
          put_room roomId (delete i (history roomId sm))
            (<[userId := redoStack roomId userId sm ++ [s]]> (redoMap roomId sm))
            sm).
Proof.
  intros Hag Hscan Hs. unfold undoStroke.
  destruct (initRoom_lookups roomId sm Hag) as [Hh Hm].
  rewrite Hh. simpl. rewrite Hscan, Hs. simpl.
  rewrite Hm. simpl. f_equal. f_equal.
  rewrite <- (put_room_initRoom roomId _ _ sm Hag).
  done.
Qed.

Lemma undoStroke_nothing roomId userId sm :
  rooms_agree sm →
  undo_scan (history roomId sm) userId (length (history roomId sm)) = None →
  undoStroke roomId userId sm = Some (None, initRoom roomId sm).
Proof.
  intros Hag Hscan. unfold undoStroke.
  destruct (initRoom_lookups roomId sm Hag) as [Hh Hm].
  rewrite Hh. simpl. by rewrite Hscan.
Qed.

Lemma array_pop_app {A} (l : list A) x : array_pop (l ++ [x]) = Some (x, l).
Proof.
  unfold array_pop. rewrite last_snoc, length_app. simpl.
  replace (length l + 1 - 1) with (length l) by lia.
  by rewrite take_app_length.
Qed.

Lemma array_pop_nil {A} : array_pop (@nil A) = None.
Proof. done. Qed.

Lemma array_pop_None {A} (l : list A) : array_pop l = None → l = [].
Proof.
  destruct l as [|x l] using rev_ind; [done|]. by rewrite array_pop_app.
Qed.

Lemma redoStroke_found roomId userId sm rest s :
  rooms_agree sm →
  redoMap roomId sm !! userId = Some (rest ++ [s]) →
  redoStroke roomId userId sm
  = Some (Some s,
          put_room roomId (history roomId sm ++ [s])
            (<[userId := rest]> (redoMap roomId sm)) sm).
Proof.
  intros Hag Hstack. unfold redoStroke.
  destruct (initRoom_lookups roomId sm Hag) as [Hh Hm].
  rewrite Hh, Hm. simpl. rewrite Hstack, array_pop_app.
  f_equal. f_equal.
  rewrite <- (put_room_initRoom roomId _ _ sm Hag).
  done.
Qed.

Lemma redoStroke_nothing roomId userId sm :
  rooms_agree sm →
  redoStack roomId userId sm = [] →
  redoStroke roomId userId sm = Some (None, initRoom roomId sm).
Proof.
  intros Hag Hstack. unfold redoStroke.
  destruct (initRoom_lookups roomId sm Hag) as [Hh Hm].
  rewrite Hh, Hm. simpl. unfold redoStack in Hstack.
  destruct (redoMap roomId sm !! userId) as [stack|]; [|done].
  simpl in Hstack. by rewrite Hstack.
Qed.

Lemma clearStrokes_put roomId sm :
  rooms_agree sm → clearStrokes roomId sm = put_room roomId [] ∅ sm.
Proof.
  intros Hag. rewrite <- (put_room_initRoom roomId _ _ sm Hag).
  done.
Qed.

(** ** Undo *)

Lemma owned_by_unique p p' s : owned_by p s → owned_by p' s → p' = p.
Proof.
  unfold owned_by, prop_is. destruct (s !! "userId") as [[]|]; try done.
  intros H1 H2. apply bool_decide_eq_true in H1, H2. congruence.
Qed.

(** C1. [undoStroke] takes out of the room's history exactly the
    requester's most recent stroke still in it and pushes it on the
    requester's redo stack; every stroke that is not the requester's stays
    where it was, in the same order; a requester without a stroke in the
    history gets [null] and the history is unchanged. *)
Theorem undo_is_per_owner (roomId p : string) (sm : StateManager) :
  rooms_agree sm →
  ∃ res sm',
    undoStroke roomId p sm = Some (res, sm')
    ∧ filter (λ s, ¬ owned_by p s) (history roomId sm')
      = filter (λ s, ¬ owned_by p s) (history roomId sm)
    ∧ (∀ p', p' ≠ p →
         filter (owned_by p') (history roomId sm')
         = filter (owned_by p') (history roomId sm))
    ∧ (Forall (λ s', ¬ owned_by p s') (history roomId sm) ↔ res = None)
    ∧ match res with
      | Some s =>
          ∃ pre post,
            history roomId sm = pre ++ s :: post
            ∧ owned_by p s
            ∧ Forall (λ s', ¬ owned_by p s') post
            ∧ history roomId sm' = pre ++ post
            ∧ redoStack roomId p sm' = redoStack roomId p sm ++ [s]
      | None =>
          Forall (λ s', ¬ owned_by p s') (history roomId sm)
          ∧ history roomId sm' = history roomId sm
          ∧ ∀ r u, redoStack r u sm' = redoStack r u sm
      end.
Proof.
  intros Hag.
  destruct (undo_scan (history roomId sm) p (length (history roomId sm)))
    as [i|] eqn:Hscan.
  - destruct (undo_scan_split _ _ _ Hscan) as (s & Hs & Hsplit & Hown & Hpost).
    eexists (Some s), _. split; [by apply undoStroke_found|].
    rewrite history_put, decide_True by done.
    rewrite delete_take_drop.
    set (pre := take i (history roomId sm)) in *.
    set (post := drop (S i) (history roomId sm)) in *.
    split; [|split; [|split]].
    + rewrite Hsplit, !filter_app, filter_cons_False; [done|]. by intros [].
    + intros p' Hne. rewrite Hsplit, !filter_app, filter_cons_False; [done|].
      intros Hown'. by apply Hne, (owned_by_unique p p' s).
    + split; [|done]. intros Hall. rewrite Forall_lookup in Hall.
      by destruct (Hall i s Hs).
    + exists pre, post. repeat split; try done.
      unfold redoStack at 1. rewrite redoMap_put, decide_True by done.
      by rewrite lookup_insert_eq.
  - exists None, (initRoom roomId sm).
    split; [by apply undoStroke_nothing|].
    rewrite initRoom_history.
    pose proof (undo_scan_None_Forall _ _ Hscan) as Hall.
    repeat split; try done.
    intros r u. unfold redoStack. by rewrite initRoom_redoMap.
Qed.

Lemma store_AB_agree : rooms_agree store_AB.
Proof. apply rooms_agree_dom. vm_compute. reflexivity. Qed.

Lemma undo_is_per_owner_witness :
  ∃ res sm',
    undoStroke "main" "A" store_AB = Some (res, sm')
    ∧ filter (λ s, ¬ owned_by "A" s) (history "main" sm')
      = filter (λ s, ¬ owned_by "A" s) (history "main" store_AB)
    ∧ (∀ p', p' ≠ "A" →
         filter (owned_by p') (history "main" sm')
         = filter (owned_by p') (history "main" store_AB))
    ∧ (Forall (λ s', ¬ owned_by "A" s') (history "main" store_AB) ↔ res = None)
    ∧ match res with
      | Some s =>
          ∃ pre post,
            history "main" store_AB = pre ++ s :: post
            ∧ owned_by "A" s
            ∧ Forall (λ s', ¬ owned_by "A" s') post
            ∧ history "main" sm' = pre ++ post
            ∧ redoStack "main" "A" sm' = redoStack "main" "A" store_AB ++ [s]
      | None =>
          Forall (λ s', ¬ owned_by "A" s') (history "main" store_AB)
          ∧ history "main" sm' = history "main" store_AB
          ∧ ∀ r u, redoStack r u sm' = redoStack r u store_AB
      end.
Proof.
  apply (undo_is_per_owner "main" "A" store_AB).
  apply rooms_agree_dom. vm_compute. reflexivity.
Defined.

(** ** Redo *)

Lemma redoStack_top roomId p sm rest s :
  redoStack roomId p sm = rest ++ [s] →
  redoMap roomId sm !! p = Some (rest ++ [s]).
Proof.
  unfold redoStack. destruct (redoMap roomId sm !! p) as [l|]; simpl.
  - by intros ->.
  - intros H. by destruct rest.
Qed.

Lemma redo_pops_top roomId p sm rest s :
  rooms_agree sm →
  redoStack roomId p sm = rest ++ [s] →
  ∃ sm',
    redoStroke roomId p sm = Some (Some s, sm')
    ∧ history roomId sm' = history roomId sm ++ [s]
    ∧ redoStack roomId p sm' = rest
    ∧ rooms_agree sm'.
Proof.
  intros Hag Hstack. apply redoStack_top in Hstack.
  eexists. split; [by apply redoStroke_found|].
  rewrite history_put, decide_True by done. split; [done|].
  split; [|by apply rooms_agree_put].
  unfold redoStack. rewrite redoMap_put, decide_True by done.
  by rewrite lookup_insert_eq.
Qed.

Lemma undo_pushes roomId p sm s sm1 :
  rooms_agree sm →
  undoStroke roomId p sm = Some (Some s, sm1) →
  rooms_agree sm1
  ∧ redoStack roomId p sm1 = redoStack roomId p sm ++ [s]
  ∧ ∃ i, history roomId sm !! i = Some s
         ∧ history roomId sm1 = delete i (history roomId sm).
Proof.
  intros Hag Hundo.
  destruct (undo_scan (history roomId sm) p (length (history roomId sm)))
    as [i|] eqn:Hscan.
  - destruct (undo_scan_split _ _ _ Hscan) as (s' & Hs & _).
    rewrite (undoStroke_found _ _ _ _ _ Hag Hscan Hs) in Hundo.
    inversion Hundo; subst s' sm1; clear Hundo.
    split; [by apply rooms_agree_put|]. split.
    + unfold redoStack at 1. rewrite redoMap_put, decide_True by done.
      by rewrite lookup_insert_eq.
    + exists i. split; [done|]. by rewrite history_put, decide_True.
  - rewrite (undoStroke_nothing _ _ _ Hag Hscan) in Hundo. done.
Qed.

(** C6. With a redo stack whose top is [s], [redoStroke] pops [s] (last
    in, first out), appends it at the end of the room's history and
    returns it unchanged; so a redo right after an undo puts back the very
    stroke the undo removed, at the tail of the history as it then is. *)
Theorem redo_restores_at_tail (roomId p : string) (sm : StateManager) :
  rooms_agree sm →
  (∀ rest s,
     redoStack roomId p sm = rest ++ [s] →
     ∃ sm',
       redoStroke roomId p sm = Some (Some s, sm')
       ∧ history roomId sm' = history roomId sm ++ [s]
       ∧ redoStack roomId p sm' = rest)
  ∧ (∀ s sm1,
       undoStroke roomId p sm = Some (Some s, sm1) →
       ∃ sm2,
         redoStroke roomId p sm1 = Some (Some s, sm2)
         ∧ history roomId sm2 = history roomId sm1 ++ [s]
         ∧ redoStack roomId p sm2 = redoStack roomId p sm).
Proof.
  intros Hag. split.
  - intros rest s Hstack.
    destruct (redo_pops_top _ _ _ _ _ Hag Hstack) as (sm' & ? & ? & ? & _).
    by exists sm'.
  - intros s sm1 Hundo.
    destruct (undo_pushes _ _ _ _ _ Hag Hundo) as (Hag1 & Hstack & _).
    destruct (redo_pops_top _ _ _ _ _ Hag1 Hstack) as (sm2 & ? & ? & ? & _).
    by exists sm2.
Qed.

Lemma store_AB_undone_agree : rooms_agree store_AB_undone.
Proof. apply rooms_agree_dom. vm_compute. reflexivity. Qed.

Lemma redo_restores_at_tail_witness :
  (∃ sm',
     redoStroke "main" "A" store_AB_undone = Some (Some stroke_A, sm')
     ∧ history "main" sm' = history "main" store_AB_undone ++ [stroke_A]
     ∧ redoStack "main" "A" sm' = [])
  ∧ (∃ sm2,
       redoStroke "main" "A" store_AB_undone = Some (Some stroke_A, sm2)
       ∧ history "main" sm2 = history "main" store_AB_undone ++ [stroke_A]
       ∧ redoStack "main" "A" sm2 = redoStack "main" "A" store_AB).
Proof.
  split.
  - refine (proj1 (redo_restores_at_tail "main" "A" store_AB_undone _) [] stroke_A _).
    + apply rooms_agree_dom. vm_compute. reflexivity.
    + vm_compute. reflexivity.
  - refine (proj2 (redo_restores_at_tail "main" "A" store_AB _)
              stroke_A store_AB_undone _).
    + apply rooms_agree_dom. vm_compute. reflexivity.
    + vm_compute. reflexivity.
Defined.

(** ** Clear *)

(** C7. After [clearStrokes] the room's history is empty and the room
    has no redo stack left for any participant, whatever the store held
    before. *)
Theorem clear_empties_room (roomId : string) (sm : StateManager) :
  history roomId (clearStrokes roomId sm) = []
  ∧ redoMap roomId (clearStrokes roomId sm) = ∅
  ∧ ∀ p, redoStack roomId p (clearStrokes roomId sm) = [].
Proof.
  unfold redoStack, redoMap, history, clearStrokes. simpl.
  rewrite !lookup_insert_eq. simpl. split; [done|]. split; [done|].
  intros p. by rewrite lookup_empty.
Qed.

(** ** Requests that find nothing *)

Lemma same_view_initRoom roomId sm :
  rooms_agree sm → same_view sm (initRoom roomId sm).
Proof.
  intros Hag. split; [apply initRoom_counter|]. split.
  - intros r. apply initRoom_history.
  - intros r u. unfold redoStack. by rewrite initRoom_redoMap.
Qed.

(** C8. An undo for a participant who owns no stroke in the history, and
    a redo for a participant whose redo stack is empty, return [null] and
    leave every history, every redo stack and the id counter as they were
    (the store is the one [initRoom] gives, identical to the old one once
    the room is known, as it is from the first connection on); the socket
    handlers then emit nothing. *)
Theorem nothing_to_undo_or_redo (socket : userData) (roomId : string) (s : Server) :
  rooms_agree (stateManager s) →
  let sm := stateManager s in
  let p := user_id socket in
  (Forall (λ st, ¬ owned_by p st) (history roomId sm) →
     undoStroke roomId p sm = Some (None, initRoom roomId sm))
  ∧ (redoStack roomId p sm = [] →
     redoStroke roomId p sm = Some (None, initRoom roomId sm))
  ∧ same_view sm (initRoom roomId sm)
  ∧ (is_Some (roomStrokes sm !! roomId) → initRoom roomId sm = sm)
  ∧ (Forall (λ st, ¬ owned_by p st) (history defaultRoom sm) →
     on_undo socket s
     = Some ({| roomManager := roomManager s;
                stateManager := initRoom defaultRoom sm |}, []))
  ∧ (redoStack defaultRoom p sm = [] →
     on_redo socket s
     = Some ({| roomManager := roomManager s;
                stateManager := initRoom defaultRoom sm |}, [])).
Proof.
  intros Hag sm p. subst sm p. repeat split.
  - intros Hnone. apply undoStroke_nothing; [done|].
    by apply undo_scan_Forall_None.
  - intros Hempty. by apply redoStroke_nothing.
  - apply initRoom_counter.
  - intros r. apply initRoom_history.
  - intros r u. unfold redoStack. by rewrite initRoom_redoMap.
  - apply initRoom_known.
  - intros Hnone. unfold on_undo.
    rewrite undoStroke_nothing; [done|done|].
    by apply undo_scan_Forall_None.
  - intros Hempty. unfold on_redo. by rewrite redoStroke_nothing.
Qed.

Lemma nothing_to_undo_or_redo_witness :
  on_undo socket_A server_B_drew = Some (server_B_drew, [])
  ∧ on_redo socket_A server_B_drew = Some (server_B_drew, []).
Proof.
  destruct (nothing_to_undo_or_redo socket_A "main" server_B_drew)
    as (_ & _ & _ & _ & Hu & Hr).
  { apply rooms_agree_dom. vm_compute. reflexivity. }
  split.
  - rewrite Hu; [vm_compute; reflexivity|].
    repeat constructor. vm_compute. intros H. discriminate H.
  - rewrite Hr; vm_compute; reflexivity.
Defined.

(** ** Commit *)

Lemma addStroke_put roomId strokeData tId tCreated sm :
  rooms_agree sm →
  let s := finalize (strokeIdOf tId (strokeIdCounter sm + 1)) strokeData tCreated in
  addStroke roomId strokeData tId tCreated sm
  = Some (s, put_room roomId (history roomId sm ++ [s])
               (cleared_for strokeData (redoMap roomId sm)) (bump sm)).
Proof.
  intros Hag s. unfold addStroke, generateStrokeId.
  destruct (initRoom_lookups roomId sm Hag) as [Hh Hm].
  rewrite initRoom_counter. simpl. rewrite Hh. simpl. rewrite Hm. simpl.
  fold s. unfold cleared_for.
  destruct (string_prop strokeData "userId") as [u|];
    [destruct (redoMap roomId sm !! u)|];
    f_equal; f_equal; apply sm_eq; simpl;
    rewrite ?initRoom_counter, ?(initRoom_put roomId sm Hag); simpl;
    by rewrite ?insert_insert_eq.
Qed.

Lemma cleared_for_own strokeData p m :
  strokeData !! "userId" = Some (VStr p) →
  default [] (cleared_for strokeData m !! p) = [].
Proof.
  intros Hp. unfold cleared_for, string_prop. rewrite Hp.
  destruct (m !! p) eqn:Hm.
  - by rewrite lookup_insert_eq.
  - by rewrite Hm.
Qed.

Lemma finalize_id id strokeData createdAt :
  strokeData !! "id" = None →
  finalize id strokeData createdAt !! "id" = Some (VStr id).
Proof.
  intros Hid. unfold finalize. rewrite lookup_insert_ne by done.
  rewrite lookup_union_r by done. by rewrite lookup_singleton_eq.
Qed.

Lemma finalize_createdAt id strokeData createdAt :
  finalize id strokeData createdAt !! "createdAt" = Some (VNum createdAt).
Proof. unfold finalize. by rewrite lookup_insert_eq. Qed.

Lemma finalize_other id strokeData createdAt k :
  k ≠ "id" → k ≠ "createdAt" →
  finalize id strokeData createdAt !! k = strokeData !! k.
Proof.
  intros Hid Hc. unfold finalize. rewrite lookup_insert_ne by done.
  destruct (strokeData !! k) as [v|] eqn:Hk.
  - by apply lookup_union_Some_l.
  - rewrite lookup_union_r by done. by rewrite lookup_singleton_ne.
Qed.

(** ** Identifiers are distinct *)

Lemma occurs_app c s1 s2 :
  occurs c (s1 +:+ s2) = occurs c s1 || occurs c s2.
Proof.
  induction s1 as [|c' s1 IH]; simpl; [done|].
  rewrite IH. by rewrite orb_assoc.
Qed.

(** Two strings cut at the first occurrence of a character agree part
    by part. *)
Lemma split_at_first c s1 r1 s2 r2 :
  occurs c s1 = false → occurs c s2 = false →
  s1 +:+ String c r1 = s2 +:+ String c r2 → s1 = s2 ∧ r1 = r2.
Proof.
  revert s2. induction s1 as [|a s1 IH]; intros [|b s2]; simpl.
  - intros _ _ Heq. by inversion Heq.
  - intros _ Hb Heq. inversion Heq; subst.
    by rewrite bool_decide_eq_true_2 in Hb.
  - intros Ha _ Heq. inversion Heq; subst.
    by rewrite bool_decide_eq_true_2 in Ha.
  - intros Ha Hb Heq. inversion Heq; subst.
    apply orb_false_elim in Ha as [_ Ha], Hb as [_ Hb].
    destruct (IH s2 Ha Hb) as [-> ->]; done.
Qed.

Lemma pretty_N_char_not_underscore d : pretty_N_char d ≠ "_"%char.
Proof. unfold pretty_N_char. by repeat case_match. Qed.

Lemma pretty_N_go_no_underscore x s :
  occurs "_" s = false → occurs "_" (pretty_N_go x s) = false.
Proof.
  revert s. induction (N.lt_wf_0 x) as [x _ IH]; intros s Hs.
  assert (x = 0 ∨ 0 < x)%N as [->|Hpos] by lia.
  - by rewrite pretty_N_go_0.
  - rewrite pretty_N_go_step by done. apply IH.
    { by apply N.div_lt. }
    simpl. rewrite Hs.
    by rewrite bool_decide_eq_false_2 by apply pretty_N_char_not_underscore.
Qed.

Lemma pretty_N_no_underscore (x : N) : occurs "_" (pretty x) = false.
Proof.
  unfold pretty, pretty_N. case_decide; [done|].
  by apply pretty_N_go_no_underscore.
Qed.

Lemma pretty_Z_no_underscore (x : Z) : occurs "_" (pretty x) = false.
Proof.
  destruct x as [|p|p]; [done| |].
  - apply (pretty_N_no_underscore (N.pos p)).
  - change (pretty (Z.neg p)) with ("-" +:+ pretty (N.pos p)).
    rewrite occurs_app, pretty_N_no_underscore. done.
Qed.

(** The counter can be read back from an identifier: two identifiers are
    equal only if made at the same time with the same counter value. *)
Lemma strokeIdOf_inj t1 c1 t2 c2 :
  strokeIdOf t1 c1 = strokeIdOf t2 c2 → t1 = t2 ∧ c1 = c2.
Proof.
  unfold strokeIdOf. intros Heq. simpl in Heq.
  injection Heq as Heq.
  apply split_at_first in Heq as [Ht Hc];
    [|apply pretty_Z_no_underscore..].
  split; [by apply (inj pretty)|by apply (inj pretty)].
Qed.



(** ** Every call, on a well-formed store *)

Lemma set_roomStrokes_initRoom roomId h sm :
  rooms_agree sm →
  set_roomStrokes <[roomId := h]> (initRoom roomId sm)
  = put_room roomId h (redoMap roomId sm) sm.
Proof.
  intros Hag. rewrite initRoom_put by done.
  apply sm_eq; simpl; [|done..]. by rewrite insert_insert_eq.
Qed.

Lemma removeStroke_put roomId strokeId sm :
  rooms_agree sm →
  ∃ found h,
    removeStroke roomId strokeId sm
    = Some (found, put_room roomId h (redoMap roomId sm) sm)
    ∧ sublist h (history roomId sm).
Proof.
  intros Hag. unfold removeStroke.
  destruct (initRoom_lookups roomId sm Hag) as [Hh Hm].
  rewrite Hh. simpl.
  destruct (findIndex_id (history roomId sm) strokeId) as [i|].
  - exists true, (delete i (history roomId sm)).
    rewrite set_roomStrokes_initRoom by done.
    split; [done|]. apply sublist_delete.
  - exists false, (history roomId sm).
    rewrite initRoom_put by done. done.
Qed.

Lemma cleanupUserHistory_put roomId userId sm :
  rooms_agree sm →
  cleanupUserHistory roomId userId sm = sm
  ∨ cleanupUserHistory roomId userId sm
    = put_room roomId (history roomId sm) (delete userId (redoMap roomId sm)) sm.
Proof.
  intros Hag. unfold cleanupUserHistory, redoMap, history.
  destruct (redoStacks sm !! roomId) as [m|] eqn:Hm; [right|by left].
  destruct (proj2 (Hag roomId)) as [h Hh]; [by eauto|].
  rewrite Hh. simpl. apply sm_eq; simpl; [|done..]. by rewrite insert_id.
Qed.

Lemma concat_Permutation {A} (ls ks : list (list A)) :
  ls ≡ₚ ks → concat ls ≡ₚ concat ks.
Proof.
  induction 1 as [|l ls ks _ IH|l k ls|ls ks js _ IH1 _ IH2]; simpl.
  - done.
  - by rewrite IH.
  - rewrite !(assoc (++)). by rewrite (comm (++) l k).
  - by rewrite IH1.
Qed.

Lemma stacked_insert (m : gmap string (list stroke)) u l :
  stacked (<[u := l]> m) ≡ₚ l ++ stacked (delete u m).
Proof.
  unfold stacked. rewrite <- insert_delete_eq.
  rewrite (concat_Permutation _ ((u, l) :: map_to_list (delete u m)).*2).
  - done.
  - apply fmap_Permutation, map_to_list_insert, lookup_delete_eq.
Qed.

Lemma stacked_lookup (m : gmap string (list stroke)) u :
  stacked m ≡ₚ default [] (m !! u) ++ stacked (delete u m).
Proof.
  destruct (m !! u) as [l|] eqn:Hu; simpl.
  - rewrite <- stacked_insert. by rewrite insert_id.
  - by rewrite delete_id.
Qed.

Lemma room_pool_put roomId r h m sm :
  room_pool r (put_room roomId h m sm)
  = if decide (roomId = r) then h ++ stacked m else room_pool r sm.
Proof.
  unfold room_pool. rewrite history_put, redoMap_put.
  by destruct (decide (roomId = r)).
Qed.

Lemma room_pool_bump r sm : room_pool r (bump sm) = room_pool r sm.
Proof. done. Qed.

(** What a call does to a well-formed store: it rewrites the two entries
    of one room (or nothing), and the strokes the room then holds are
    among those it held, plus the new stroke in the case of [addStroke]. *)
Lemma exec_shape c sm :
  rooms_agree sm →
  (exec c sm = Some sm ∧ assigned c sm = [])
  ∨ (∃ r h m,
       exec c sm = Some (put_room r h m sm) ∧ assigned c sm = []
       ∧ h ++ stacked m ⊆+ room_pool r sm)
  ∨ (∃ r h m s t,
       exec c sm = Some (put_room r h m (bump sm))
       ∧ assigned c sm = [strokeIdOf t (strokeIdCounter sm + 1)]
       ∧ (without_id c →
          id_of s = Some (VStr (strokeIdOf t (strokeIdCounter sm + 1))))
       ∧ h ++ stacked m ⊆+ s :: room_pool r sm).
Proof.
  intros Hag.
  assert (Hinit : ∀ r, ∃ r' h m,
             Some (initRoom r sm) = Some (put_room r' h m sm)
             ∧ h ++ stacked m ⊆+ room_pool r' sm).
  { intros r. exists r, (history r sm), (redoMap r sm).
    by rewrite initRoom_put. }
  destruct c as [r sd tId tC|r|r u|r u|r|r i|r|r u|r u]; simpl.
  - right; right.
    exists r, (history r sm ++ [finalize (strokeIdOf tId (strokeIdCounter sm + 1)) sd tC]),
      (cleared_for sd (redoMap r sm)),
      (finalize (strokeIdOf tId (strokeIdCounter sm + 1)) sd tC), tId.
    rewrite addStroke_put by done. simpl. rewrite initRoom_counter.
    repeat split; [by apply finalize_id|].
    unfold room_pool, cleared_for.
    destruct (string_prop sd "userId") as [u|]; [|solve_submseteq].
    destruct (redoMap r sm !! u) as [l|] eqn:Hu; [|solve_submseteq].
    rewrite stacked_insert, (stacked_lookup (redoMap r sm) u), Hu. simpl.
    solve_submseteq.
  - right; left. unfold getStrokes.
    destruct (initRoom_lookups r sm Hag) as [-> _]. simpl.
    destruct (Hinit r) as (r' & h & m & ? & ?). by exists r', h, m.
  - right; left.
    destruct (undo_scan (history r sm) u (length (history r sm)))
      as [i|] eqn:Hscan.
    + destruct (undo_scan_split _ _ _ Hscan) as (s & Hs & Hsplit & _).
      rewrite (undoStroke_found _ _ _ _ _ Hag Hscan Hs). simpl.
      eexists _, _, _. repeat split.
      unfold room_pool. rewrite stacked_insert.
      rewrite (stacked_lookup (redoMap r sm) u).
      rewrite delete_take_drop, (comm (++) (history r sm)).
      rewrite Hsplit at 3. unfold redoStack.
      apply Permutation_submseteq. solve_Permutation.
    + rewrite undoStroke_nothing by done. simpl.
      destruct (Hinit r) as (r' & h & m & ? & ?). by exists r', h, m.
  - right; left.
    destruct (redoMap r sm !! u) as [stack|] eqn:Hu.
    + destruct stack as [|s rest _] using rev_ind.
      * rewrite redoStroke_nothing; [|done|by unfold redoStack; rewrite Hu].
        simpl. destruct (Hinit r) as (r' & h & m & ? & ?). by exists r', h, m.
      * rewrite (redoStroke_found _ _ _ rest s) by done. simpl.
        eexists _, _, _. repeat split.
        unfold room_pool. rewrite stacked_insert.
        rewrite (stacked_lookup (redoMap r sm) u), Hu. simpl.
        apply Permutation_submseteq. solve_Permutation.
    + rewrite redoStroke_nothing; [|done|by unfold redoStack; rewrite Hu].
      simpl. destruct (Hinit r) as (r' & h & m & ? & ?). by exists r', h, m.
  - right; left. exists r, [], ∅. rewrite clearStrokes_put by done.
    repeat split. unfold stacked. rewrite map_to_list_empty. simpl.
    apply submseteq_nil_l.
  - right; left.
    destruct (removeStroke_put r i sm Hag) as (found & h & -> & Hsub).
    simpl. exists r, h, (redoMap r sm). repeat split.
    unfold room_pool. apply submseteq_app; [by apply sublist_submseteq|done].
  - right; left. unfold getStrokeCount.
    destruct (initRoom_lookups r sm Hag) as [-> _]. simpl.
    destruct (Hinit r) as (r' & h & m & ? & ?). by exists r', h, m.
  - destruct (cleanupUserHistory_put r u sm Hag) as [->| ->]; [by left|].
    right; left. eexists _, _, _. repeat split.
    unfold room_pool. rewrite (stacked_lookup (redoMap r sm) u).
    solve_submseteq.
  - right; left. unfold getUserStrokes.
    destruct (initRoom_lookups r sm Hag) as [-> _]. simpl.
    destruct (Hinit r) as (r' & h & m & ? & ?). by exists r', h, m.
Qed.

(** ** The two maps list the same rooms *)

Lemma rooms_agree_bump sm : rooms_agree sm → rooms_agree (bump sm).
Proof. intros Hag r. apply Hag. Qed.

Lemma rooms_agree_initRoom roomId sm :
  rooms_agree sm → rooms_agree (initRoom roomId sm).
Proof. intros Hag. rewrite initRoom_put by done. by apply rooms_agree_put. Qed.

Lemma exec_agree c sm :
  rooms_agree sm → ∃ sm', exec c sm = Some sm' ∧ rooms_agree sm'.
Proof.
  intros Hag.
  destruct (exec_shape c sm Hag)
    as [[-> _]|[(r & h & m & -> & _)|(r & h & m & s & t & -> & _)]].
  - by exists sm.
  - eexists. split; [done|]. by apply rooms_agree_put.
  - eexists. split; [done|]. by apply rooms_agree_put, rooms_agree_bump.
Qed.

Lemma run_agree cs sm :
  rooms_agree sm → ∃ sm' ids, run cs sm = Some (sm', ids) ∧ rooms_agree sm'.
Proof.
  revert sm. induction cs as [|c cs IH]; intros sm Hag; simpl.
  - by exists sm, [].
  - destruct (exec_agree c sm Hag) as (sm1 & -> & Hag1). simpl.
    destruct (IH sm1 Hag1) as (sm2 & ids & -> & Hag2). simpl.
    by eexists _, _.
Qed.

(** C10. A room is a key of [roomStrokes] exactly when it is a key of
    [redoStacks]: this holds of a new state manager, and every method
    ([initRoom], [addStroke], [getStrokes], [undoStroke], [redoStroke],
    [clearStrokes], [removeStroke], [getStrokeCount],
    [cleanupUserHistory], [getUserStrokes]) returns normally from a store
    where it holds and leaves a store where it holds; so it holds after
    every run of calls. *)
Theorem rooms_agree_maintained :
  rooms_agree newStateManager
  ∧ (∀ roomId sm, rooms_agree sm → rooms_agree (initRoom roomId sm))
  ∧ (∀ c sm, rooms_agree sm → ∃ sm', exec c sm = Some sm' ∧ rooms_agree sm')
  ∧ (∀ cs, ∃ sm ids, run cs newStateManager = Some (sm, ids) ∧ rooms_agree sm).
Proof.
  split; [apply rooms_agree_new|]. split; [apply rooms_agree_initRoom|].
  split; [apply exec_agree|]. intros cs. apply run_agree, rooms_agree_new.
Qed.

Lemma rooms_agree_maintained_witness :
  rooms_agree (initRoom "lobby" store_AB)
  ∧ ∃ sm', exec (call_undoStroke "main" "A") store_AB = Some sm'
           ∧ rooms_agree sm'.
Proof.
  destruct rooms_agree_maintained as (_ & Hinit & Hexec & _). split.
  - apply (Hinit "lobby" store_AB).
    apply rooms_agree_dom. vm_compute. reflexivity.
  - apply (Hexec (call_undoStroke "main" "A") store_AB).
    apply rooms_agree_dom. vm_compute. reflexivity.
Defined.

(** ** Identifiers in a run of calls *)

Lemma pool_ok_submseteq n l l' : l' ⊆+ l → pool_ok n l → pool_ok n l'.
Proof.
  intros Hsub [Hnd Hall]. split.
  - apply (fmap_submseteq id_of) in Hsub.
    apply submseteq_Permutation in Hsub as [k Hk].
    rewrite Hk in Hnd. by apply NoDup_app in Hnd as [? _].
  - apply submseteq_Permutation in Hsub as [k Hk].
    rewrite Hk in Hall. by apply Forall_app in Hall as [? _].
Qed.

Lemma issued_upto_mono n n' s : (n ≤ n')%N → issued_upto n s → issued_upto n' s.
Proof. intros Hle (t & c & Hid & Hc). exists t, c. split; [done|lia]. Qed.

Lemma pool_ok_mono n n' l : (n ≤ n')%N → pool_ok n l → pool_ok n' l.
Proof.
  intros Hle [Hnd Hall]. split; [done|].
  eapply Forall_impl; [done|]. intros s. by apply issued_upto_mono.
Qed.

Lemma pool_ok_new n l s t :
  id_of s = Some (VStr (strokeIdOf t (n + 1))) →
  pool_ok n l → pool_ok (n + 1) (s :: l).
Proof.
  intros Hid [Hnd Hall]. split.
  - rewrite fmap_cons. apply NoDup_cons. split; [|done].
    intros Hin. apply list_elem_of_fmap in Hin as (s' & Heq & Hs').
    rewrite Forall_forall in Hall.
    destruct (Hall s' Hs') as (t' & c & Hid' & Hc).
    assert (Hsame : strokeIdOf t (n + 1) = strokeIdOf t' c) by congruence.
    apply strokeIdOf_inj in Hsame as [_ Hsame]. lia.
  - constructor.
    + exists t, (n + 1)%N. split; [done|lia].
    + eapply Forall_impl; [done|]. intros s'. apply issued_upto_mono. lia.
Qed.

Lemma ids_ok_new : ids_ok newStateManager.
Proof.
  intros r. unfold room_pool, history, redoMap, stacked. simpl.
  rewrite !lookup_empty. simpl. rewrite map_to_list_empty. simpl.
  split; constructor.
Qed.

(** One call keeps the identifiers distinct; the identifier it hands out,
    if any, is made at the next counter value. *)
Lemma exec_ids_ok c sm :
  rooms_agree sm → ids_ok sm → without_id c →
  ∃ sm',
    exec c sm = Some sm' ∧ rooms_agree sm' ∧ ids_ok sm'
    ∧ (strokeIdCounter sm ≤ strokeIdCounter sm')%N
    ∧ Forall (λ i, ∃ t c', i = strokeIdOf t c'
                ∧ (strokeIdCounter sm < c' ≤ strokeIdCounter sm')%N)
             (assigned c sm)
    ∧ length (assigned c sm) ≤ 1.
Proof.
  intros Hag Hok Hwo.
  destruct (exec_shape c sm Hag)
    as [[-> ->]|[(r & h & m & -> & -> & Hsub)
                |(r & h & m & s & t & -> & -> & Hid & Hsub)]].
  - exists sm. split; [done|]. split; [done|]. split; [done|].
    split; [lia|]. split; [constructor|simpl; lia].
  - eexists. split; [done|]. split; [by apply rooms_agree_put|].
    split; [|simpl; split; [lia|split; [constructor|lia]]].
    intros r'. rewrite room_pool_put. simpl.
    destruct (decide (r = r')) as [<-|]; [|apply Hok].
    by apply (pool_ok_submseteq _ _ _ Hsub), Hok.
  - eexists. split; [done|].
    split; [by apply rooms_agree_put, rooms_agree_bump|].
    split; [|simpl; split; [lia|split; [|lia]]].
    + intros r'. rewrite room_pool_put. simpl.
      destruct (decide (r = r')) as [<-|].
      * apply (pool_ok_submseteq _ _ _ Hsub).
        apply (pool_ok_new _ _ _ t); [by apply Hid|]. apply Hok.
      * rewrite room_pool_bump.
        apply (pool_ok_mono (strokeIdCounter sm)); [lia|]. apply Hok.
    + repeat constructor. exists t, (strokeIdCounter sm + 1)%N.
      split; [done|lia].
Qed.

Lemma run_ids_ok cs sm :
  rooms_agree sm → ids_ok sm → Forall without_id cs →
  ∃ sm' ids,
    run cs sm = Some (sm', ids) ∧ rooms_agree sm' ∧ ids_ok sm'
    ∧ (strokeIdCounter sm ≤ strokeIdCounter sm')%N
    ∧ NoDup ids
    ∧ Forall (λ i, ∃ t c', i = strokeIdOf t c'
                ∧ (strokeIdCounter sm < c' ≤ strokeIdCounter sm')%N) ids.
Proof.
  revert sm. induction cs as [|c cs IH]; intros sm Hag Hok Hwo; simpl.
  - exists sm, []. split; [done|]. split; [done|]. split; [done|].
    split; [lia|]. split; constructor.
  - apply Forall_cons in Hwo as [Hc Hcs].
    destruct (exec_ids_ok c sm Hag Hok Hc)
      as (sm1 & -> & Hag1 & Hok1 & Hle1 & Hnew & Hlen). simpl.
    destruct (IH sm1 Hag1 Hok1 Hcs)
      as (sm2 & ids & -> & Hag2 & Hok2 & Hle2 & Hnd & Hids). simpl.
    eexists _, _. split; [done|]. split; [done|]. split; [done|].
    split; [lia|]. split.
    + apply NoDup_app. split; [|split; [|done]].
      * destruct (assigned c sm) as [|i [|]]; simpl in Hlen; try lia.
        -- constructor.
        -- apply NoDup_singleton.
      * intros i Hi Hi'. rewrite Forall_forall in Hnew, Hids.
        destruct (Hnew i Hi) as (t & c1 & -> & Hc1).
        destruct (Hids _ Hi') as (t' & c2 & Heq & Hc2).
        apply strokeIdOf_inj in Heq as [_ Heq]. lia.
    + apply Forall_app. split.
      * eapply Forall_impl; [done|]. intros i (t & c' & -> & Hc').
        exists t, c'. split; [done|lia].
      * eapply Forall_impl; [done|]. intros i (t & c' & -> & Hc').
        exists t, c'. split; [done|lia].
Qed.

(** In every run of calls on a new state manager whose [addStroke] calls
    are given stroke data without an identifier of its own, the
    identifiers [generateStrokeId] hands out are pairwise distinct, and at
    the end no room's history holds two strokes with the same identifier
    (nor do its history and redo stacks taken together). *)
Lemma ids_distinct_without_client_id (cs : list call) :
  Forall without_id cs →
  ∃ sm ids,
    run cs newStateManager = Some (sm, ids)
    ∧ NoDup ids
    ∧ (∀ roomId, NoDup (id_of <$> history roomId sm))
    ∧ (∀ roomId, NoDup (id_of <$> room_pool roomId sm)).
Proof.
  intros Hwo.
  destruct (run_ids_ok cs newStateManager rooms_agree_new ids_ok_new Hwo)
    as (sm & ids & Hrun & _ & Hok & _ & Hnd & _).
  exists sm, ids. repeat split; try done.
  - intros r. destruct (Hok r) as [Hpool _].
    unfold room_pool in Hpool. rewrite fmap_app in Hpool.
    by apply NoDup_app in Hpool as [? _].
  - intros r. apply Hok.
Qed.

(** The hypothesis on the stroke data is needed: an [id] property of the
    data comes after the generated one in the object literal and replaces
    it. *)
Remark payload_id_replaces_generated :
  id_of (finalize (strokeIdOf 1000 1) (<["id" := VStr "mine"]> sample_data) 1001)
  = Some (VStr "mine").
Proof. vm_compute. reflexivity. Qed.

(** ** The socket handlers *)

Lemma getStrokes_history roomId sm :
  rooms_agree sm →
  getStrokes roomId sm = Some (history roomId sm, initRoom roomId sm).
Proof.
  intros Hag. unfold getStrokes.
  by destruct (initRoom_lookups roomId sm Hag) as [-> _].
Qed.

Lemma on_stroke_complete_put socket data now tId tCreated s :
  rooms_agree (stateManager s) →
  let sm := stateManager s in
  let strokeData := strokeData_of socket data now in
  let persisted := finalize (strokeIdOf tId (strokeIdCounter sm + 1))
                     strokeData tCreated in
  on_stroke_complete socket data now tId tCreated s
  = Some ({| roomManager := roomManager s;
             stateManager :=
               put_room defaultRoom (history defaultRoom sm ++ [persisted])
                 (cleared_for strokeData (redoMap defaultRoom sm)) (bump sm) |},
          [ (ToRoom defaultRoom, stroke_saved strokeData) ]).
Proof.
  intros Hag sm strokeData persisted. unfold on_stroke_complete.
  fold strokeData. by rewrite addStroke_put.
Qed.

Lemma strokeData_of_other socket data now k :
  k ≠ "timestamp" → k ≠ "username" → k ≠ "userId" →
  strokeData_of socket data now !! k = data !! k.
Proof.
  intros ???. unfold strokeData_of. by rewrite !lookup_insert_ne.
Qed.

(** C3. What the [stroke_complete] handler broadcasts as [stroke_saved]
    is the stroke data it built before calling [addStroke], not the
    stroke [addStroke] returns and keeps in the history: for data without
    [id] and [createdAt] of its own, the history entry has the new
    identifier and the creation time and the broadcast payload has
    neither. *)
Theorem stroke_saved_omits_id_and_createdAt (socket : userData) (data : obj)
    (now tId tCreated : Z) (s : Server) :
  rooms_agree (stateManager s) →
  data !! "id" = None →
  data !! "createdAt" = None →
  ∃ s' payload persisted,
    on_stroke_complete socket data now tId tCreated s
    = Some (s', [ (ToRoom defaultRoom, stroke_saved payload) ])
    ∧ last (history defaultRoom (stateManager s')) = Some persisted
    ∧ id_of persisted
      = Some (VStr (strokeIdOf tId (strokeIdCounter (stateManager s) + 1)))
    ∧ persisted !! "createdAt" = Some (VNum tCreated)
    ∧ payload = strokeData_of socket data now
    ∧ id_of payload = None
    ∧ payload !! "createdAt" = None
    ∧ payload ≠ persisted.
Proof.
  intros Hag Hid Hc.
  assert (Hpid : strokeData_of socket data now !! "id" = None)
    by (by rewrite strokeData_of_other).
  assert (Hpc : strokeData_of socket data now !! "createdAt" = None)
    by (by rewrite strokeData_of_other).
  eexists _, _, _. split; [by apply on_stroke_complete_put|]. simpl.
  rewrite history_put, decide_True by done. rewrite last_snoc.
  split; [done|]. split; [by apply finalize_id|].
  split; [apply finalize_createdAt|]. split; [done|].
  split; [done|]. split; [done|].
  intros Heq. rewrite Heq, finalize_createdAt in Hpc. done.
Qed.

Lemma stroke_saved_omits_id_and_createdAt_witness :
  ∃ s' payload persisted,
    on_stroke_complete socket_B sample_data 2000 2000 2001 server_AB
    = Some (s', [ (ToRoom defaultRoom, stroke_saved payload) ])
    ∧ last (history defaultRoom (stateManager s')) = Some persisted
    ∧ id_of persisted
      = Some (VStr (strokeIdOf 2000 (strokeIdCounter (stateManager server_AB) + 1)))
    ∧ persisted !! "createdAt" = Some (VNum 2001)
    ∧ payload = strokeData_of socket_B sample_data 2000
    ∧ id_of payload = None
    ∧ payload !! "createdAt" = None
    ∧ payload ≠ persisted.
Proof.
  apply (stroke_saved_omits_id_and_createdAt socket_B sample_data 2000 2000 2001
           server_AB).
  - apply rooms_agree_dom. vm_compute. reflexivity.
  - vm_compute. reflexivity.
  - vm_compute. reflexivity.
Defined.

(** C4. The [stroke_complete] handler checks nothing: a commit with
    fewer than two points is appended to the history and broadcast like
    any other. *)
Theorem short_stroke_is_persisted_and_broadcast (socket : userData)
    (data : obj) (pts : list value) (now tId tCreated : Z) (s : Server) :
  rooms_agree (stateManager s) →
  data !! "points" = Some (VArr pts) →
  length pts < 2 →
  ∃ s' payload persisted,
    on_stroke_complete socket data now tId tCreated s
    = Some (s', [ (ToRoom defaultRoom, stroke_saved payload) ])
    ∧ history defaultRoom (stateManager s')
      = history defaultRoom (stateManager s) ++ [persisted]
    ∧ persisted !! "points" = Some (VArr pts)
    ∧ payload !! "points" = Some (VArr pts).
Proof.
  intros Hag Hpts _.
  eexists _, _, _. split; [by apply on_stroke_complete_put|]. simpl.
  rewrite history_put, decide_True by done. split; [done|].
  rewrite finalize_other by done. by rewrite strokeData_of_other.
Qed.

Lemma short_stroke_is_persisted_and_broadcast_witness :
  ∃ s' payload persisted,
    on_stroke_complete socket_A pointless_data 3000 3000 3001 server_AB
    = Some (s', [ (ToRoom defaultRoom, stroke_saved payload) ])
    ∧ history defaultRoom (stateManager s')
      = history defaultRoom (stateManager server_AB) ++ [persisted]
    ∧ persisted !! "points" = Some (VArr [])
    ∧ payload !! "points" = Some (VArr []).
Proof.
  apply (short_stroke_is_persisted_and_broadcast socket_A pointless_data []
           3000 3000 3001 server_AB).
  - apply rooms_agree_dom. vm_compute. reflexivity.
  - vm_compute. reflexivity.
  - simpl. lia.
Defined.

(** The drawing client is where short strokes stop: [stopDrawing] hands a
    path of fewer than two points to no one. *)
Lemma stopDrawing_drops_short_path cm :
  length (currentPath cm) < 2 →
  ∃ cm', stopDrawing cm = Some (cm', None) ∧ cm_isDrawing cm' = false.
Proof.
  intros Hlen. unfold stopDrawing.
  destruct (cm_isDrawing cm) eqn:Hd; simpl.
  - rewrite bool_decide_eq_false_2 by lia. simpl. by eexists.
  - by exists cm.
Qed.

Lemma on_connection_knows_room socketId uname ucolor s :
  rooms_agree (stateManager s) →
  ∃ s' e,
    on_connection socketId uname ucolor s = Some (s', e)
    ∧ rooms_agree (stateManager s')
    ∧ is_Some (roomStrokes (stateManager s') !! defaultRoom).
Proof.
  intros Hag. unfold on_connection. rewrite getStrokes_history by done.
  eexists _, _. split; [done|]. simpl.
  split; [by apply rooms_agree_initRoom|].
  destruct (initRoom_lookups defaultRoom (stateManager s) Hag) as [-> _].
  eauto.
Qed.

(** No call ever forgets a room. *)
Lemma exec_keeps_room c sm sm' roomId :
  rooms_agree sm → exec c sm = Some sm' →
  is_Some (roomStrokes sm !! roomId) → is_Some (roomStrokes sm' !! roomId).
Proof.
  intros Hag Hexec Hknown.
  destruct (exec_shape c sm Hag)
    as [[Heq _]|[(r & h & m & Heq & _)|(r & h & m & s & t & Heq & _)]];
    rewrite Heq in Hexec; injection Hexec as <-; [done|..]; simpl;
    (destruct (decide (r = roomId)) as [->|];
     [rewrite lookup_insert_eq; eauto|by rewrite lookup_insert_ne]).
Qed.

(** ** A room that empties *)

Lemma cleanupUserHistory_view roomId userId sm :
  rooms_agree sm →
  rooms_agree (cleanupUserHistory roomId userId sm)
  ∧ (∀ r, history r (cleanupUserHistory roomId userId sm) = history r sm)
  ∧ redoStack roomId userId (cleanupUserHistory roomId userId sm) = []
  ∧ (∀ r u, (r, u) ≠ (roomId, userId) →
       redoStack r u (cleanupUserHistory roomId userId sm) = redoStack r u sm).
Proof.
  intros Hag. unfold cleanupUserHistory.
  destruct (redoStacks sm !! roomId) as [m|] eqn:Hm.
  - split; [|split; [done|split]].
    + intros r. simpl. destruct (decide (roomId = r)) as [<-|].
      * rewrite lookup_insert_eq. rewrite (Hag roomId), Hm. split; eauto.
      * rewrite lookup_insert_ne by done. apply Hag.
    + unfold redoStack, redoMap. simpl. rewrite lookup_insert_eq. simpl.
      by rewrite lookup_delete_eq.
    + intros r u Hne. unfold redoStack, redoMap. simpl.
      destruct (decide (roomId = r)) as [<-|].
      * rewrite lookup_insert_eq, Hm. simpl.
        rewrite lookup_delete_ne; [done|]. congruence.
      * by rewrite lookup_insert_ne.
  - repeat split; try done. apply Hag. apply Hag.
    unfold redoStack, redoMap. by rewrite Hm.
Qed.

Lemma removeUser_last roomId userId u rm :
  rooms rm !! roomId = Some {[userId := u]} →
  removeUser roomId userId rm = (true, {| rooms := delete roomId (rooms rm) |}).
Proof.
  intros Hroom. unfold removeUser. rewrite Hroom, lookup_singleton_eq.
  by rewrite delete_singleton_eq.
Qed.

(** C2. When the only member of the room disconnects, the room leaves
    the registry ([roomExists] is false), and of the store only that
    participant's redo stack is dropped: the history stays, and the next
    connection receives it unchanged in its [init] message. *)
Theorem history_outlives_empty_room (socket u : userData) (s : Server)
    (newId uname ucolor : string) :
  rooms_agree (stateManager s) →
  rooms (roomManager s) !! defaultRoom = Some {[user_id socket := u]} →
  ∃ s1 e1 s2 e2,
    on_disconnect socket s = Some (s1, e1)
    ∧ roomExists defaultRoom (roomManager s1) = false
    ∧ getUserCount defaultRoom (roomManager s1) = 0
    ∧ history defaultRoom (stateManager s1) = history defaultRoom (stateManager s)
    ∧ redoStack defaultRoom (user_id socket) (stateManager s1) = []
    ∧ on_connection newId uname ucolor s1 = Some (s2, e2)
    ∧ init_strokes (on_connection newId uname ucolor s1)
      = Some (history defaultRoom (stateManager s))
    ∧ history defaultRoom (stateManager s2) = history defaultRoom (stateManager s)
    ∧ roomExists defaultRoom (roomManager s2) = true.
Proof.
  intros Hag Hroom.
  destruct (cleanupUserHistory_view defaultRoom (user_id socket)
              (stateManager s) Hag) as (Hag1 & Hhist & Hstack & _).
  unfold on_disconnect. rewrite (removeUser_last _ _ u) by done.
  eexists _, _, _, _. split; [done|]. simpl.
  split. { unfold roomExists. simpl. rewrite lookup_delete_eq.
           apply bool_decide_eq_false_2. by intros [? ?]. }
  split. { unfold getUserCount. simpl. by rewrite lookup_delete_eq. }
  split; [apply Hhist|]. split; [done|].
  unfold on_connection. simpl. rewrite getStrokes_history by done. simpl.
  rewrite Hhist. split; [done|]. split; [done|].
  split. { simpl. by rewrite initRoom_history. }
  unfold roomExists, addUser, createRoom. simpl. rewrite lookup_delete_eq. simpl.
  apply bool_decide_eq_true_2. rewrite lookup_insert_eq. eauto.
Qed.

Lemma history_outlives_empty_room_witness :
  ∃ s1 e1 s2 e2,
    on_disconnect socket_A server_A_drew = Some (s1, e1)
    ∧ roomExists defaultRoom (roomManager s1) = false
    ∧ getUserCount defaultRoom (roomManager s1) = 0
    ∧ history defaultRoom (stateManager s1)
      = history defaultRoom (stateManager server_A_drew)
    ∧ redoStack defaultRoom (user_id socket_A) (stateManager s1) = []
    ∧ on_connection "B" "SwiftPainter2" "#3498db" s1 = Some (s2, e2)
    ∧ init_strokes (on_connection "B" "SwiftPainter2" "#3498db" s1)
      = Some (history defaultRoom (stateManager server_A_drew))
    ∧ history defaultRoom (stateManager s2)
      = history defaultRoom (stateManager server_A_drew)
    ∧ roomExists defaultRoom (roomManager s2) = true.
Proof.
  apply (history_outlives_empty_room socket_A socket_A server_A_drew).
  - apply rooms_agree_dom. vm_compute. reflexivity.
  - vm_compute. reflexivity.
Defined.

(** A session in which the claim that a rejoin sees an empty history
    fails: A connects alone, commits a stroke and disconnects; the room is
    gone from the registry, yet B, connecting next, is sent A's stroke. *)
Lemma rejoin_sees_old_history_counterexample :
  fst <$> on_connection "A" "HappyArtist1" "#e74c3c" newServer
  = Some server_A_joined
  ∧ fst <$> on_stroke_complete socket_A sample_data 1000 1000 1001 server_A_joined
    = Some server_A_drew
  ∧ fst <$> on_disconnect socket_A server_A_drew = Some server_A_left
  ∧ roomExists defaultRoom (roomManager server_A_left) = false
  ∧ init_strokes (on_connection "B" "SwiftPainter2" "#3498db" server_A_left)
    = Some [stroke_A_kept]
  ∧ ¬ (init_strokes (on_connection "B" "SwiftPainter2" "#3498db" server_A_left)
       = Some []).
Proof.
  assert (Hinit : init_strokes
            (on_connection "B" "SwiftPainter2" "#3498db" server_A_left)
          = Some [stroke_A_kept]) by (vm_compute; reflexivity).
  repeat split; try (vm_compute; reflexivity).
  rewrite Hinit. discriminate.
Qed.

(** ** The scenario of two participants *)

(** P1 commits S1, P2 commits S2; P1's undo removes S1 and not the more
    recent S2; P2's undo empties the history; P1's redo brings S1 back. *)
Example scenario_two_participants :
  let commits :=
    [ call_addStroke "main" (sample_strokeData "P1" "HappyArtist1" 1000) 1000 1000;
      call_addStroke "main" (sample_strokeData "P2" "SwiftPainter2" 2000) 2000 2000 ] in
  let ids_after cs :=
    (λ r, id_of <$> history "main" r.1) <$> run cs newStateManager in
  ids_after commits
  = Some [Some (VStr "stroke_1000_1"); Some (VStr "stroke_2000_2")]
  ∧ ids_after (commits ++ [call_undoStroke "main" "P1"])
    = Some [Some (VStr "stroke_2000_2")]
  ∧ ids_after (commits ++ [call_undoStroke "main" "P1";
                           call_undoStroke "main" "P2"])
    = Some []
  ∧ ids_after (commits ++ [call_undoStroke "main" "P1";
                           call_undoStroke "main" "P2";
                           call_redoStroke "main" "P1"])
    = Some [Some (VStr "stroke_1000_1")].
Proof. repeat split; vm_compute; reflexivity. Qed.

(** * Further properties of the state manager *)

Lemma filter_none {A} (P : A → Prop) `{∀ x, Decision (P x)} (l : list A) :
  Forall (λ x, ¬ P x) l → filter P l = [].
Proof.
  induction 1 as [|x l Hx _ IH]; [done|]. by rewrite filter_cons_False.
Qed.

(** ** removeStroke *)

Lemma findIndex_id_Some strokes strokeId i :
  findIndex_id strokes strokeId = Some i →
  ∃ s, strokes !! i = Some s
       ∧ prop_is s "id" strokeId = true
       ∧ Forall (λ s', prop_is s' "id" strokeId = false) (take i strokes).
Proof.
  revert i. induction strokes as [|s strokes IH]; intros i; simpl; [done|].
  destruct (prop_is s "id" strokeId) eqn:Hs.
  - intros [= <-]. exists s. repeat split; [done|]. constructor.
  - destruct (findIndex_id strokes strokeId) as [j|]; [|done].
    intros [= <-]. destruct (IH j eq_refl) as (s' & Hj & Hid & Hpre).
    exists s'. simpl. repeat split; [done..|]. by constructor.
Qed.

Lemma findIndex_id_None strokes strokeId :
  findIndex_id strokes strokeId = None →
  Forall (λ s, prop_is s "id" strokeId = false) strokes.
Proof.
  induction strokes as [|s strokes IH]; simpl; [constructor|].
  destruct (prop_is s "id" strokeId) eqn:Hs; [done|].
  destruct (findIndex_id strokes strokeId); [done|].
  intros _. constructor; [done|]. by apply IH.
Qed.

(** X1. [removeStroke] takes out of the history the first stroke carrying the
    identifier and answers [true]; without such a stroke it answers
    [false] and the history stays.  It touches no redo stack, no other
    room and not the counter. *)
Theorem removeStroke_first_match (roomId strokeId : string) (sm : StateManager) :
  rooms_agree sm →
  ∃ found sm',
    removeStroke roomId strokeId sm = Some (found, sm')
    ∧ rooms_agree sm'
    ∧ strokeIdCounter sm' = strokeIdCounter sm
    ∧ (∀ r u, redoStack r u sm' = redoStack r u sm)
    ∧ (∀ r, r ≠ roomId → history r sm' = history r sm)
    ∧ if found then
        ∃ pre s post,
          history roomId sm = pre ++ s :: post
          ∧ prop_is s "id" strokeId = true
          ∧ Forall (λ s', prop_is s' "id" strokeId = false) pre
          ∧ history roomId sm' = pre ++ post
      else
        Forall (λ s, prop_is s "id" strokeId = false) (history roomId sm)
        ∧ history roomId sm' = history roomId sm.
Proof.
  intros Hag. unfold removeStroke.
  destruct (initRoom_lookups roomId sm Hag) as [Hh Hm].
  rewrite Hh. simpl.
  destruct (findIndex_id (history roomId sm) strokeId) as [i|] eqn:Hfind.
  - destruct (findIndex_id_Some _ _ _ Hfind) as (s & Hs & Hid & Hpre).
    exists true. eexists. split; [done|].
    rewrite set_roomStrokes_initRoom by done.
    split; [by apply rooms_agree_put|]. split; [done|].
    split. { intros r u. unfold redoStack. rewrite redoMap_put.
             by destruct (decide (roomId = r)) as [->|]. }
    split. { intros r Hr. rewrite history_put. by rewrite decide_False. }
    exists (take i (history roomId sm)), s, (drop (S i) (history roomId sm)).
    split; [by rewrite take_drop_middle|]. split; [done|]. split; [done|].
    rewrite history_put, decide_True by done. apply delete_take_drop.
  - exists false, (initRoom roomId sm). split; [done|].
    split; [by apply rooms_agree_initRoom|].
    split; [apply initRoom_counter|].
    split. { intros r u. unfold redoStack. by rewrite initRoom_redoMap. }
    split. { intros r _. apply initRoom_history. }
    split; [by apply findIndex_id_None|]. apply initRoom_history.
Qed.

Lemma removeStroke_first_match_witness :
  ∃ found sm',
    removeStroke "main" "stroke_2000_2" store_AB = Some (found, sm')
    ∧ rooms_agree sm'
    ∧ strokeIdCounter sm' = strokeIdCounter store_AB
    ∧ (∀ r u, redoStack r u sm' = redoStack r u store_AB)
    ∧ (∀ r, r ≠ "main" → history r sm' = history r store_AB)
    ∧ if found then
        ∃ pre s post,
          history "main" store_AB = pre ++ s :: post
          ∧ prop_is s "id" "stroke_2000_2" = true
          ∧ Forall (λ s', prop_is s' "id" "stroke_2000_2" = false) pre
          ∧ history "main" sm' = pre ++ post
      else
        Forall (λ s, prop_is s "id" "stroke_2000_2" = false)
          (history "main" store_AB)
        ∧ history "main" sm' = history "main" store_AB.
Proof.
  apply (removeStroke_first_match "main" "stroke_2000_2" store_AB).
  apply rooms_agree_dom. vm_compute. reflexivity.
Defined.

(** ** The read-only methods *)

(** X2. [getStrokes], [getStrokeCount] and [getUserStrokes] answer with the
    history, its length and the requester's strokes in history order;
    they change no history, no redo stack and not the counter. *)
Theorem accessors_read_the_history (roomId userId : string) (sm : StateManager) :
  rooms_agree sm →
  ∃ sm',
    getStrokes roomId sm = Some (history roomId sm, sm')
    ∧ getStrokeCount roomId sm = Some (length (history roomId sm), sm')
    ∧ getUserStrokes roomId userId sm
      = Some (filter (owned_by userId) (history roomId sm), sm')
    ∧ same_view sm sm'
    ∧ rooms_agree sm'
    ∧ (is_Some (roomStrokes sm !! roomId) → sm' = sm).
Proof.
  intros Hag. exists (initRoom roomId sm).
  unfold getStrokes, getStrokeCount, getUserStrokes.
  destruct (initRoom_lookups roomId sm Hag) as [-> _]. simpl.
  split; [done|]. split; [done|]. split; [done|].
  split; [by apply same_view_initRoom|].
  split; [by apply rooms_agree_initRoom|]. apply initRoom_known.
Qed.

Lemma accessors_read_the_history_witness :
  ∃ sm',
    getStrokes "main" store_AB = Some (history "main" store_AB, sm')
    ∧ getStrokeCount "main" store_AB
      = Some (length (history "main" store_AB), sm')
    ∧ getUserStrokes "main" "A" store_AB
      = Some (filter (owned_by "A") (history "main" store_AB), sm')
    ∧ same_view store_AB sm'
    ∧ rooms_agree sm'
    ∧ (is_Some (roomStrokes store_AB !! "main") → sm' = store_AB).
Proof.
  apply (accessors_read_the_history "main" "A" store_AB).
  apply rooms_agree_dom. vm_compute. reflexivity.
Defined.

(** ** Undo and the requester's own strokes *)

(** A history cut at the requester's last stroke is where the reverse
    search stops. *)
Lemma undo_scan_at strokes userId pre s post :
  strokes = pre ++ s :: post →
  owned_by userId s →
  Forall (λ s', ¬ owned_by userId s') post →
  undo_scan strokes userId (length strokes) = Some (length pre).
Proof.
  intros -> Hown Hpost.
  destruct (undo_scan (pre ++ s :: post) userId (length (pre ++ s :: post)))
    as [i|] eqn:Hscan.
  - destruct (undo_scan_Some _ _ _ _ Hscan) as (Hi & (s' & Hs' & Hown') & Hlater);
      [done|].
    f_equal. destruct (decide (i = length pre)) as [|Hne]; [done|]. exfalso.
    destruct (decide (i < length pre)).
    + apply (Hlater (length pre) s); [|by rewrite list_lookup_middle|done].
      rewrite length_app. simpl. lia.
    + rewrite lookup_app_r in Hs' by lia.
      destruct (i - length pre) as [|k] eqn:Hk; [lia|]. simpl in Hs'.
      rewrite Forall_lookup in Hpost. by destruct (Hpost k s' Hs').
  - apply undo_scan_None_Forall in Hscan.
    apply Forall_app in Hscan as [_ Hscan].
    apply Forall_cons in Hscan as [Hs _]. done.
Qed.

Lemma undoStroke_at roomId userId sm pre s post :
  rooms_agree sm →
  history roomId sm = pre ++ s :: post →
  owned_by userId s →
  Forall (λ s', ¬ owned_by userId s') post →
  undoStroke roomId userId sm
  = Some (Some s,
          put_room roomId (pre ++ post)
            (<[userId := redoStack roomId userId sm ++ [s]]> (redoMap roomId sm))
            sm).
Proof.
  intros Hag Hsplit Hown Hpost.
  rewrite (undoStroke_found roomId userId sm (length pre) s Hag).
  - rewrite Hsplit, delete_take_drop.
    rewrite take_app_length. rewrite (cons_middle s), (assoc (++)).
    rewrite drop_app_length'; [done|]. rewrite length_app. simpl. lia.
  - by apply (undo_scan_at _ _ pre s post).
  - rewrite Hsplit. by rewrite list_lookup_middle.
Qed.

(** X3. [undoStroke] returns the last of the strokes [getUserStrokes] lists
    for the requester ([null] when the list is empty), and afterwards
    [getUserStrokes] lists the same strokes without that last one. *)
Theorem undo_takes_last_own_stroke (roomId p : string) (sm : StateManager) :
  rooms_agree sm →
  ∃ mine sm0 res sm' sm1,
    getUserStrokes roomId p sm = Some (mine, sm0)
    ∧ undoStroke roomId p sm = Some (res, sm')
    ∧ res = last mine
    ∧ getUserStrokes roomId p sm' = Some (take (length mine - 1) mine, sm1).
Proof.
  intros Hag.
  assert (Hget : ∀ sm2, rooms_agree sm2 →
            getUserStrokes roomId p sm2
            = Some (filter (owned_by p) (history roomId sm2), initRoom roomId sm2)).
  { intros sm2 Hag2. unfold getUserStrokes.
    by destruct (initRoom_lookups roomId sm2 Hag2) as [-> _]. }
  rewrite Hget by done.
  destruct (undo_scan (history roomId sm) p (length (history roomId sm)))
    as [i|] eqn:Hscan.
  - destruct (undo_scan_split _ _ _ Hscan) as (s & _ & Hsplit & Hown & Hpost).
    remember (take i (history roomId sm)) as pre eqn:Hpre.
    remember (drop (S i) (history roomId sm)) as post eqn:Hpst.
    clear Hpre Hpst Hscan.
    rewrite (undoStroke_at _ _ _ pre s post) by done.
    eexists _, _, _, _, _. split; [done|]. split; [done|].
    rewrite Hget by (by apply rooms_agree_put).
    rewrite history_put, decide_True by done.
    rewrite Hsplit, !filter_app, filter_cons_True by done.
    rewrite (filter_none _ _ Hpost), app_nil_r.
    split; [by rewrite last_snoc|].
    rewrite length_app. simpl.
    replace (length (filter (owned_by p) pre) + 1 - 1)
      with (length (filter (owned_by p) pre)) by lia.
    by rewrite take_app_length.
  - rewrite undoStroke_nothing by done.
    eexists _, _, _, _, _. split; [done|]. split; [done|].
    rewrite Hget by (by apply rooms_agree_initRoom).
    rewrite initRoom_history.
    rewrite (filter_none _ _ (undo_scan_None_Forall _ _ Hscan)). done.
Qed.

Lemma undo_takes_last_own_stroke_witness :
  ∃ mine sm0 res sm' sm1,
    getUserStrokes "main" "A" store_AB = Some (mine, sm0)
    ∧ undoStroke "main" "A" store_AB = Some (res, sm')
    ∧ res = last mine
    ∧ getUserStrokes "main" "A" sm' = Some (take (length mine - 1) mine, sm1).
Proof.
  apply (undo_takes_last_own_stroke "main" "A" store_AB).
  apply rooms_agree_dom. vm_compute. reflexivity.
Defined.

(** ** What one call reaches *)

(** Every call rewrites at most the two entries of its own room; only
    [addStroke] advances the counter. *)
Lemma exec_room c sm :
  rooms_agree sm →
  if is_addStroke c then
    ∃ h m, exec c sm = Some (put_room (room_of c) h m (bump sm))
  else
    exec c sm = Some sm
    ∨ ∃ h m, exec c sm = Some (put_room (room_of c) h m sm).
Proof.
  intros Hag.
  assert (Hinit : ∀ r, ∃ h m, Some (initRoom r sm) = Some (put_room r h m sm)).
  { intros r. eexists _, _. by rewrite initRoom_put. }
  destruct c as [r sd tId tC|r|r u|r u|r|r i|r|r u|r u]; simpl.
  - rewrite addStroke_put by done. simpl. by eexists _, _.
  - right. unfold getStrokes.
    destruct (initRoom_lookups r sm Hag) as [-> _]. simpl. apply Hinit.
  - right.
    destruct (undo_scan (history r sm) u (length (history r sm)))
      as [i|] eqn:Hscan.
    + destruct (undo_scan_split _ _ _ Hscan) as (s & Hs & _).
      rewrite (undoStroke_found _ _ _ _ _ Hag Hscan Hs). simpl.
      by eexists _, _.
    + rewrite undoStroke_nothing by done. simpl. apply Hinit.
  - right.
    destruct (redoMap r sm !! u) as [stack|] eqn:Hu.
    + destruct stack as [|s rest _] using rev_ind.
      * rewrite redoStroke_nothing; [|done|by unfold redoStack; rewrite Hu].
        simpl. apply Hinit.
      * rewrite (redoStroke_found _ _ _ rest s) by done. simpl.
        by eexists _, _.
    + rewrite redoStroke_nothing; [|done|by unfold redoStack; rewrite Hu].
      simpl. apply Hinit.
  - right. rewrite clearStrokes_put by done. by eexists _, _.
  - right. destruct (removeStroke_put r i sm Hag) as (found & h & -> & _).
    simpl. by eexists _, _.
  - right. unfold getStrokeCount.
    destruct (initRoom_lookups r sm Hag) as [-> _]. simpl. apply Hinit.
  - destruct (cleanupUserHistory_put r u sm Hag) as [->| ->]; [by left|].
    right. by eexists _, _.
  - right. unfold getUserStrokes.
    destruct (initRoom_lookups r sm Hag) as [-> _]. simpl. apply Hinit.
Qed.

(** X4. Rooms are isolated in the store: a call about one room changes
    neither the history nor a redo stack of any other room. *)
Theorem calls_leave_other_rooms (c : call) (sm : StateManager) :
  rooms_agree sm →
  ∃ sm',
    exec c sm = Some sm'
    ∧ ∀ r, r ≠ room_of c →
        history r sm' = history r sm
        ∧ redoMap r sm' = redoMap r sm
        ∧ ∀ u, redoStack r u sm' = redoStack r u sm.
Proof.
  intros Hag. pose proof (exec_room c sm Hag) as Hshape.
  assert (Hput : ∀ h m sm0 r, r ≠ room_of c →
            history r (put_room (room_of c) h m sm0) = history r sm0
            ∧ redoMap r (put_room (room_of c) h m sm0) = redoMap r sm0
            ∧ ∀ u, redoStack r u (put_room (room_of c) h m sm0)
                   = redoStack r u sm0).
  { intros h m sm0 r Hr. unfold redoStack.
    rewrite history_put, redoMap_put, !decide_False by done. done. }
  destruct (is_addStroke c).
  - destruct Hshape as (h & m & ->). eexists. split; [done|].
    intros r Hr. by apply (Hput h m (bump sm)).
  - destruct Hshape as [->|(h & m & ->)]; (eexists; split; [done|]).
    + done.
    + intros r Hr. by apply Hput.
Qed.

Lemma calls_leave_other_rooms_witness :
  ∃ sm',
    exec (call_clearStrokes "lobby") store_AB = Some sm'
    ∧ ∀ r, r ≠ room_of (call_clearStrokes "lobby") →
        history r sm' = history r store_AB
        ∧ redoMap r sm' = redoMap r store_AB
        ∧ ∀ u, redoStack r u sm' = redoStack r u store_AB.
Proof.
  apply (calls_leave_other_rooms (call_clearStrokes "lobby") store_AB).
  apply rooms_agree_dom. vm_compute. reflexivity.
Defined.

(** ** Strokes are conserved *)

Lemma history_put_eq r h m sm : history r (put_room r h m sm) = h.
Proof. by rewrite history_put, decide_True. Qed.

Lemma redoStack_put_eq r u h m sm :
  redoStack r u (put_room r h m sm) = default [] (m !! u).
Proof. unfold redoStack. by rewrite redoMap_put, decide_True. Qed.

Lemma room_pool_put_eq r h m sm :
  room_pool r (put_room r h m sm) = h ++ stacked m.
Proof. by rewrite room_pool_put, decide_True. Qed.

(** X5. Undo and redo only move strokes between the history and the redo
    stacks of the room: together these hold the same strokes before and
    after, and the history gets shorter by one on a successful undo and
    longer by one on a successful redo. *)
Theorem undo_redo_conserve_strokes (roomId p : string) (sm : StateManager) :
  rooms_agree sm →
  (∃ res sm',
     undoStroke roomId p sm = Some (res, sm')
     ∧ room_pool roomId sm' ≡ₚ room_pool roomId sm
     ∧ length (history roomId sm') + (if res is Some _ then 1 else 0)
       = length (history roomId sm)
     ∧ length (redoStack roomId p sm')
       = length (redoStack roomId p sm) + (if res is Some _ then 1 else 0))
  ∧ (∃ res sm',
       redoStroke roomId p sm = Some (res, sm')
       ∧ room_pool roomId sm' ≡ₚ room_pool roomId sm
       ∧ length (history roomId sm')
         = length (history roomId sm) + (if res is Some _ then 1 else 0)
       ∧ length (redoStack roomId p sm') + (if res is Some _ then 1 else 0)
         = length (redoStack roomId p sm)).
Proof.
  intros Hag. split.
  - destruct (undo_scan (history roomId sm) p (length (history roomId sm)))
      as [i|] eqn:Hscan.
    + destruct (undo_scan_split _ _ _ Hscan) as (s & _ & Hsplit & Hown & Hpost).
      remember (take i (history roomId sm)) as pre eqn:Hpre.
      remember (drop (S i) (history roomId sm)) as post eqn:Hpst.
      clear Hpre Hpst Hscan.
      rewrite (undoStroke_at _ _ _ pre s post) by done.
      eexists _, _. split; [done|].
      rewrite room_pool_put_eq, history_put_eq, redoStack_put_eq.
      rewrite lookup_insert_eq. simpl. split; [|split].
      * unfold room_pool.
        rewrite stacked_insert, (stacked_lookup (redoMap roomId sm) p).
        rewrite Hsplit. unfold redoStack. solve_Permutation.
      * rewrite Hsplit, !length_app. simpl. lia.
      * rewrite length_app. simpl. lia.
    + rewrite undoStroke_nothing by done. eexists _, _. split; [done|].
      unfold room_pool, redoStack.
      rewrite initRoom_history, initRoom_redoMap by done.
      split; [done|]. simpl. lia.
  - destruct (redoMap roomId sm !! p) as [stack|] eqn:Hu.
    + destruct stack as [|s rest _] using rev_ind.
      * rewrite redoStroke_nothing; [|done|by unfold redoStack; rewrite Hu].
        eexists _, _. split; [done|]. unfold room_pool, redoStack.
        rewrite initRoom_history, initRoom_redoMap by done.
        split; [done|]. simpl. lia.
      * rewrite (redoStroke_found _ _ _ rest s) by done.
        eexists _, _. split; [done|].
        rewrite room_pool_put_eq, history_put_eq, redoStack_put_eq.
        rewrite lookup_insert_eq. unfold redoStack. rewrite Hu. simpl.
        split; [|split].
        -- unfold room_pool.
           rewrite stacked_insert, (stacked_lookup (redoMap roomId sm) p), Hu.
           simpl. solve_Permutation.
        -- rewrite length_app. simpl. lia.
        -- rewrite length_app. simpl. lia.
    + rewrite redoStroke_nothing; [|done|by unfold redoStack; rewrite Hu].
      eexists _, _. split; [done|]. unfold room_pool, redoStack.
      rewrite initRoom_history, initRoom_redoMap by done.
      split; [done|]. simpl. lia.
Qed.

Lemma undo_redo_conserve_strokes_witness :
  (∃ res sm',
     undoStroke "main" "A" store_AB = Some (res, sm')
     ∧ room_pool "main" sm' ≡ₚ room_pool "main" store_AB
     ∧ length (history "main" sm') + (if res is Some _ then 1 else 0)
       = length (history "main" store_AB)
     ∧ length (redoStack "main" "A" sm')
       = length (redoStack "main" "A" store_AB) + (if res is Some _ then 1 else 0))
  ∧ (∃ res sm',
       redoStroke "main" "A" store_AB = Some (res, sm')
       ∧ room_pool "main" sm' ≡ₚ room_pool "main" store_AB
       ∧ length (history "main" sm')
         = length (history "main" store_AB) + (if res is Some _ then 1 else 0)
       ∧ length (redoStack "main" "A" sm') + (if res is Some _ then 1 else 0)
         = length (redoStack "main" "A" store_AB)).
Proof.
  apply (undo_redo_conserve_strokes "main" "A" store_AB).
  apply rooms_agree_dom. vm_compute. reflexivity.
Defined.

(** ** Redo stacks belong to their participant *)

Lemma cleared_for_other strokeData m u :
  string_prop strokeData "userId" ≠ Some u →
  cleared_for strokeData m !! u = m !! u.
Proof.
  intros Hne. unfold cleared_for.
  destruct (string_prop strokeData "userId") as [p|]; [|done].
  destruct (m !! p) eqn:Hp; [|done].
  rewrite lookup_insert_ne; [done|]. congruence.
Qed.

(** X6. A commit, an undo or a redo of one participant leaves the redo stack
    of every other participant as it was. *)
Theorem redo_stacks_of_others_stay (roomId p : string) (strokeData : obj)
    (tId tCreated : Z) (sm : StateManager) :
  rooms_agree sm →
  string_prop strokeData "userId" = Some p →
  (∃ s sm', addStroke roomId strokeData tId tCreated sm = Some (s, sm')
            ∧ ∀ r u, u ≠ p → redoStack r u sm' = redoStack r u sm)
  ∧ (∃ res sm', undoStroke roomId p sm = Some (res, sm')
                ∧ ∀ r u, u ≠ p → redoStack r u sm' = redoStack r u sm)
  ∧ (∃ res sm', redoStroke roomId p sm = Some (res, sm')
                ∧ ∀ r u, u ≠ p → redoStack r u sm' = redoStack r u sm).
Proof.
  intros Hag Hp.
  assert (Hput : ∀ h m sm0,
            (∀ u, u ≠ p → m !! u = redoMap roomId sm !! u) →
            redoStacks sm0 = redoStacks sm →
            ∀ r u, u ≠ p →
              redoStack r u (put_room roomId h m sm0) = redoStack r u sm).
  { intros h m sm0 Hm Hsm0 r u Hu. unfold redoStack.
    rewrite redoMap_put. destruct (decide (roomId = r)) as [<-|].
    - by rewrite Hm.
    - unfold redoMap. by rewrite Hsm0. }
  assert (Hinit : ∀ r u, redoStack r u (initRoom roomId sm) = redoStack r u sm).
  { intros r u. unfold redoStack. by rewrite initRoom_redoMap. }
  split; [|split].
  - rewrite addStroke_put by done. eexists _, _. split; [done|].
    apply Hput; [|done]. intros u Hu. apply cleared_for_other. congruence.
  - destruct (undo_scan (history roomId sm) p (length (history roomId sm)))
      as [i|] eqn:Hscan.
    + destruct (undo_scan_split _ _ _ Hscan) as (s & Hs & _).
      rewrite (undoStroke_found _ _ _ _ _ Hag Hscan Hs).
      eexists _, _. split; [done|]. apply Hput; [|done].
      intros u Hu. by rewrite lookup_insert_ne.
    + rewrite undoStroke_nothing by done. eexists _, _. split; [done|].
      intros r u _. apply Hinit.
  - destruct (redoMap roomId sm !! p) as [stack|] eqn:Hu.
    + destruct stack as [|s rest _] using rev_ind.
      * rewrite redoStroke_nothing; [|done|by unfold redoStack; rewrite Hu].
        eexists _, _. split; [done|]. intros r u _. apply Hinit.
      * rewrite (redoStroke_found _ _ _ rest s) by done.
        eexists _, _. split; [done|]. apply Hput; [|done].
        intros u Hne. by rewrite lookup_insert_ne.
    + rewrite redoStroke_nothing; [|done|by unfold redoStack; rewrite Hu].
      eexists _, _. split; [done|]. intros r u _. apply Hinit.
Qed.

Lemma redo_stacks_of_others_stay_witness :
  (∃ s sm',
     addStroke "main" (sample_strokeData "B" "SwiftPainter2" 3000) 3000 3001
       store_AB_undone = Some (s, sm')
     ∧ ∀ r u, u ≠ "B" → redoStack r u sm' = redoStack r u store_AB_undone)
  ∧ (∃ res sm', undoStroke "main" "B" store_AB_undone = Some (res, sm')
                ∧ ∀ r u, u ≠ "B" →
                    redoStack r u sm' = redoStack r u store_AB_undone)
  ∧ (∃ res sm', redoStroke "main" "B" store_AB_undone = Some (res, sm')
                ∧ ∀ r u, u ≠ "B" →
                    redoStack r u sm' = redoStack r u store_AB_undone).
Proof.
  apply (redo_stacks_of_others_stay "main" "B"
           (sample_strokeData "B" "SwiftPainter2" 3000) 3000 3001 store_AB_undone).
  - apply rooms_agree_dom. vm_compute. reflexivity.
  - vm_compute. reflexivity.
Defined.

(** ** Clear cannot be undone *)

(** X7. After [clearStrokes] no participant has anything to undo or to redo
    in the room: both return [null] and the store stays cleared. *)
Theorem clear_cannot_be_undone (roomId p : string) (sm : StateManager) :
  rooms_agree sm →
  let cleared := clearStrokes roomId sm in
  undoStroke roomId p cleared = Some (None, cleared)
  ∧ redoStroke roomId p cleared = Some (None, cleared)
  ∧ getStrokes roomId cleared = Some ([], cleared).
Proof.
  intros Hag cleared. subst cleared. rewrite clearStrokes_put by done.
  set (cleared := put_room roomId [] ∅ sm).
  assert (Hag' : rooms_agree cleared) by (by apply rooms_agree_put).
  assert (Hknown : initRoom roomId cleared = cleared).
  { apply initRoom_known. simpl. rewrite lookup_insert_eq. eauto. }
  assert (Hh : history roomId cleared = []) by apply history_put_eq.
  split; [|split].
  - rewrite undoStroke_nothing, Hknown; [done|done|]. by rewrite Hh.
  - rewrite redoStroke_nothing, Hknown; [done|done|].
    unfold cleared. by rewrite redoStack_put_eq, lookup_empty.
  - rewrite getStrokes_history, Hknown, Hh; done.
Qed.

Lemma clear_cannot_be_undone_witness :
  let cleared := clearStrokes "main" store_AB_undone in
  undoStroke "main" "B" cleared = Some (None, cleared)
  ∧ redoStroke "main" "A" cleared = Some (None, cleared)
  ∧ getStrokes "main" cleared = Some ([], cleared).
Proof.
  intros cleared.
  destruct (clear_cannot_be_undone "main" "B" store_AB_undone) as (Hu & _ & Hg).
  { apply rooms_agree_dom. vm_compute. reflexivity. }
  destruct (clear_cannot_be_undone "main" "A" store_AB_undone) as (_ & Hr & _).
  { apply rooms_agree_dom. vm_compute. reflexivity. }
  split; [exact Hu|]. split; [exact Hr|exact Hg].
Defined.

(** ** Leaving *)

(** X8. [cleanupUserHistory] forgets the redo stack of one participant in one
    room and nothing else; a redo of that participant then returns
    [null], while the strokes the participant committed stay in the
    history. *)
Theorem cleanup_forgets_one_redo_stack (roomId userId : string) (sm : StateManager) :
  rooms_agree sm →
  let sm' := cleanupUserHistory roomId userId sm in
  rooms_agree sm'
  ∧ strokeIdCounter sm' = strokeIdCounter sm
  ∧ (∀ r, history r sm' = history r sm)
  ∧ redoStack roomId userId sm' = []
  ∧ (∀ r u, (r, u) ≠ (roomId, userId) → redoStack r u sm' = redoStack r u sm)
  ∧ ∃ sm'', redoStroke roomId userId sm' = Some (None, sm'')
            ∧ same_view sm' sm''.
Proof.
  intros Hag sm'. subst sm'.
  destruct (cleanupUserHistory_view roomId userId sm Hag)
    as (Hag' & Hh & Hstack & Hothers).
  split; [done|]. split.
  { unfold cleanupUserHistory. by destruct (redoStacks sm !! roomId). }
  split; [done|]. split; [done|]. split; [done|].
  eexists. split; [by apply redoStroke_nothing|].
  by apply same_view_initRoom.
Qed.

Lemma cleanup_forgets_one_redo_stack_witness :
  let sm' := cleanupUserHistory "main" "A" store_AB_undone in
  rooms_agree sm'
  ∧ strokeIdCounter sm' = strokeIdCounter store_AB_undone
  ∧ (∀ r, history r sm' = history r store_AB_undone)
  ∧ redoStack "main" "A" sm' = []
  ∧ (∀ r u, (r, u) ≠ ("main", "A") →
       redoStack r u sm' = redoStack r u store_AB_undone)
  ∧ ∃ sm'', redoStroke "main" "A" sm' = Some (None, sm'')
            ∧ same_view sm' sm''.
Proof.
  apply (cleanup_forgets_one_redo_stack "main" "A" store_AB_undone).
  apply rooms_agree_dom. vm_compute. reflexivity.
Defined.

(** ** Undo twice, redo twice *)

(** X9. Redo goes through the undone strokes last in, first out: after two
    undos and two redos the requester's two latest strokes are back, at
    the end of the history and in their original order, and the redo
    stack is what it was. *)
Theorem two_undos_two_redos (roomId p : string) (sm : StateManager)
    (pre mid post : list stroke) (s1 s2 : stroke) :
  rooms_agree sm →
  history roomId sm = pre ++ s1 :: mid ++ s2 :: post →
  owned_by p s1 → owned_by p s2 →
  Forall (λ s, ¬ owned_by p s) mid →
  Forall (λ s, ¬ owned_by p s) post →
  ∃ sm1 sm2 sm3 sm4,
    undoStroke roomId p sm = Some (Some s2, sm1)
    ∧ undoStroke roomId p sm1 = Some (Some s1, sm2)
    ∧ history roomId sm2 = pre ++ mid ++ post
    ∧ redoStroke roomId p sm2 = Some (Some s1, sm3)
    ∧ redoStroke roomId p sm3 = Some (Some s2, sm4)
    ∧ history roomId sm4 = pre ++ mid ++ post ++ [s1; s2]
    ∧ redoStack roomId p sm4 = redoStack roomId p sm.
Proof.
  intros Hag Hh Hs1 Hs2 Hmid Hpost.
  set (sm1 := put_room roomId ((pre ++ s1 :: mid) ++ post)
                (<[p := redoStack roomId p sm ++ [s2]]> (redoMap roomId sm)) sm).
  set (sm2 := put_room roomId (pre ++ mid ++ post)
                (<[p := redoStack roomId p sm1 ++ [s1]]> (redoMap roomId sm1)) sm1).
  set (sm3 := put_room roomId (history roomId sm2 ++ [s1])
                (<[p := redoStack roomId p sm ++ [s2]]> (redoMap roomId sm2)) sm2).
  set (sm4 := put_room roomId (history roomId sm3 ++ [s2])
                (<[p := redoStack roomId p sm]> (redoMap roomId sm3)) sm3).
  assert (Hag1 : rooms_agree sm1) by (by apply rooms_agree_put).
  assert (Hag2 : rooms_agree sm2) by (by apply rooms_agree_put).
  assert (Hag3 : rooms_agree sm3) by (by apply rooms_agree_put).
  assert (Hst1 : redoStack roomId p sm1 = redoStack roomId p sm ++ [s2]).
  { unfold sm1. by rewrite redoStack_put_eq, lookup_insert_eq. }
  exists sm1, sm2, sm3, sm4.
  split.
  { apply (undoStroke_at _ _ _ (pre ++ s1 :: mid) s2 post); [done| |done..].
    by rewrite Hh, <- (assoc (++)). }
  split.
  { apply (undoStroke_at _ _ _ pre s1 (mid ++ post)); [done| |done|].
    - unfold sm1. by rewrite history_put_eq, <- (assoc (++)).
    - by apply Forall_app. }
  split; [apply history_put_eq|].
  split.
  { apply (redoStroke_found _ _ _ (redoStack roomId p sm ++ [s2]) s1);
      [done|]. unfold sm2. rewrite redoMap_put, decide_True by done.
    by rewrite lookup_insert_eq, Hst1. }
  split.
  { apply (redoStroke_found _ _ _ (redoStack roomId p sm) s2); [done|].
    unfold sm3. rewrite redoMap_put, decide_True by done.
    by rewrite lookup_insert_eq. }
  split.
  - unfold sm4. rewrite history_put_eq. unfold sm3. rewrite history_put_eq.
    unfold sm2. rewrite history_put_eq.
    by rewrite <- !(assoc (++)).
  - unfold sm4. by rewrite redoStack_put_eq, lookup_insert_eq.
Qed.

Lemma two_undos_two_redos_witness :
  ∃ sm1 sm2 sm3 sm4,
    undoStroke "main" "A" store_ABA = Some (Some stroke_A2, sm1)
    ∧ undoStroke "main" "A" sm1 = Some (Some stroke_A, sm2)
    ∧ history "main" sm2 = [] ++ [stroke_B] ++ []
    ∧ redoStroke "main" "A" sm2 = Some (Some stroke_A, sm3)
    ∧ redoStroke "main" "A" sm3 = Some (Some stroke_A2, sm4)
    ∧ history "main" sm4 = [] ++ [stroke_B] ++ [] ++ [stroke_A; stroke_A2]
    ∧ redoStack "main" "A" sm4 = redoStack "main" "A" store_ABA.
Proof.
  apply (two_undos_two_redos "main" "A" store_ABA [] [stroke_B] [] stroke_A stroke_A2).
  - apply rooms_agree_dom. vm_compute. reflexivity.
  - vm_compute. reflexivity.
  - vm_compute. reflexivity.
  - vm_compute. reflexivity.
  - repeat constructor. vm_compute. intros H. discriminate H.
  - constructor.
Defined.

(** ** The counter and the strokes of a run *)

Lemma strokeIdCounter_put r h m sm :
  strokeIdCounter (put_room r h m sm) = strokeIdCounter sm.
Proof. done. Qed.

(** One call: the counter moves by one exactly for [addStroke], and the
    strokes a room holds afterwards are among those it held and the
    stroke the call made for it. *)
Lemma exec_pool c sm r :
  rooms_agree sm →
  ∃ sm',
    exec c sm = Some sm' ∧ rooms_agree sm'
    ∧ strokeIdCounter sm'
      = (strokeIdCounter sm + if is_addStroke c then 1 else 0)%N
    ∧ assigned c sm = ids_from (strokeIdCounter sm) (commit_times [c])
    ∧ room_pool r sm'
      ⊆+ room_pool r sm ++ strokes_made r [c] (strokeIdCounter sm).
Proof.
  intros Hag.
  destruct (decide (is_addStroke c = true)) as [Hadd|Hadd].
  - destruct c as [r' sd tId tC| | | | | | | |]; try done. simpl.
    rewrite addStroke_put by done. simpl. rewrite initRoom_counter.
    eexists. split; [done|].
    split; [by apply rooms_agree_put, rooms_agree_bump|].
    split; [done|]. split; [done|].
    rewrite room_pool_put. case_bool_decide as Hr; case_decide; try done.
    + unfold room_pool, cleared_for. subst r'.
      destruct (string_prop sd "userId") as [u|]; [|solve_submseteq].
      destruct (redoMap r sm !! u) as [l|] eqn:Hu; [|solve_submseteq].
      rewrite stacked_insert, (stacked_lookup (redoMap r sm) u), Hu. simpl.
      solve_submseteq.
    + rewrite room_pool_bump. simpl. by rewrite app_nil_r.
  - apply not_true_is_false in Hadd.
    assert (Hmade : strokes_made r [c] (strokeIdCounter sm) = [])
      by (by destruct c).
    assert (Htimes : commit_times [c] = []) by (by destruct c).
    rewrite Hmade, Htimes, Hadd, app_nil_r, N.add_0_r.
    destruct (exec_shape c sm Hag)
      as [[-> ->]|[(r' & h & m & -> & -> & Hsub)
                  |(r' & h & m & s & t & _ & Hassigned & _)]].
    + by exists sm.
    + eexists. split; [done|]. split; [by apply rooms_agree_put|].
      split; [done|]. split; [done|].
      rewrite room_pool_put. by case_decide; subst.
    + by destruct c.
Qed.

Lemma strokes_made_cons r c cs n :
  strokes_made r (c :: cs) n
  = strokes_made r [c] n
    ++ strokes_made r cs (n + if is_addStroke c then 1 else 0)%N.
Proof.
  destruct c; simpl; rewrite ?N.add_0_r, ?app_nil_r; done.
Qed.

Lemma commit_times_cons c cs :
  commit_times (c :: cs) = commit_times [c] ++ commit_times cs.
Proof. by destruct c. Qed.

Lemma ids_from_cons c cs n :
  ids_from n (commit_times (c :: cs))
  = ids_from n (commit_times [c])
    ++ ids_from (n + if is_addStroke c then 1 else 0)%N (commit_times cs).
Proof.
  rewrite commit_times_cons. destruct c; simpl; rewrite ?N.add_0_r; done.
Qed.

Lemma run_pool cs sm r :
  rooms_agree sm →
  ∃ sm' ids,
    run cs sm = Some (sm', ids)
    ∧ strokeIdCounter sm'
      = (strokeIdCounter sm + N.of_nat (length (commit_times cs)))%N
    ∧ ids = ids_from (strokeIdCounter sm) (commit_times cs)
    ∧ room_pool r sm'
      ⊆+ room_pool r sm ++ strokes_made r cs (strokeIdCounter sm).
Proof.
  revert sm. induction cs as [|c cs IH]; intros sm Hag.
  - exists sm, []. simpl. split; [done|]. split; [lia|]. split; [done|].
    by rewrite app_nil_r.
  - destruct (exec_pool c sm r Hag) as (sm1 & Hexec & Hag1 & Hn1 & Hids1 & Hsub1).
    destruct (IH sm1 Hag1) as (sm2 & ids & Hrun & Hn2 & Hids2 & Hsub2).
    exists sm2, (assigned c sm ++ ids). split.
    { cbn [run]. rewrite Hexec. cbn [mbind option_bind]. by rewrite Hrun. }
    split; [|split].
    + rewrite Hn2, Hn1, commit_times_cons, length_app.
      destruct c; simpl; lia.
    + rewrite ids_from_cons, Hids1, Hids2, Hn1. done.
    + rewrite strokes_made_cons, (assoc (++)). etrans; [apply Hsub2|].
      rewrite Hn1. by apply submseteq_app.
Qed.

(** X10. The counter counts the commits of the whole process: after any run
    of calls on a new state manager it is the number of [addStroke] calls
    made, and the n-th identifier handed out carries the number n,
    whatever was undone or cleared in between. *)
Theorem counter_counts_commits (cs : list call) :
  ∃ sm ids,
    run cs newStateManager = Some (sm, ids)
    ∧ strokeIdCounter sm = N.of_nat (length (commit_times cs))
    ∧ ids = ids_from 0 (commit_times cs)
    ∧ length ids = length (filter (λ c, is_addStroke c = true) cs).
Proof.
  destruct (run_pool cs newStateManager "main" rooms_agree_new)
    as (sm & ids & Hrun & Hn & Hids & _).
  exists sm, ids. split; [done|]. split; [by rewrite Hn|]. split; [done|].
  rewrite Hids. clear. generalize (strokeIdCounter newStateManager).
  induction cs as [|c cs IH]; intros n; [done|].
  rewrite ids_from_cons, length_app, IH.
  destruct c; simpl; done.
Qed.

(** X11. No stroke is invented, altered or duplicated: after any run of calls
    on a new state manager, the strokes a room holds in its history and
    on its redo stacks are among the strokes the [addStroke] calls of the
    run made for that room, each at most once. *)
Theorem strokes_come_from_commits (cs : list call) (roomId : string) :
  ∃ sm ids,
    run cs newStateManager = Some (sm, ids)
    ∧ room_pool roomId sm ⊆+ strokes_made roomId cs 0
    ∧ history roomId sm ⊆+ strokes_made roomId cs 0
    ∧ ∀ s, s ∈ history roomId sm → s ∈ strokes_made roomId cs 0.
Proof.
  destruct (run_pool cs newStateManager roomId rooms_agree_new)
    as (sm & ids & Hrun & _ & _ & Hsub).
  exists sm, ids. split; [done|].
  assert (Hpool : room_pool roomId sm ⊆+ strokes_made roomId cs 0).
  { etrans; [apply Hsub|]. unfold room_pool, history, redoMap, stacked. simpl.
    rewrite !lookup_empty. simpl. by rewrite map_to_list_empty. }
  assert (Hhist : history roomId sm ⊆+ strokes_made roomId cs 0).
  { etrans; [|apply Hpool]. unfold room_pool. by apply submseteq_inserts_r. }
  split; [done|]. split; [done|].
  intros s Hs. by eapply elem_of_submseteq.
Qed.

(** * The room registry *)

Lemma rm_eq rm1 rm2 : rooms rm1 = rooms rm2 → rm1 = rm2.
Proof. destruct rm1, rm2. simpl. by intros ->. Qed.

Lemma addUser_rooms roomId u rm :
  rooms (addUser roomId u rm)
  = <[roomId := <[user_id u := u]> (members roomId rm)]> (rooms rm).
Proof.
  unfold addUser, createRoom, members.
  destruct (rooms rm !! roomId) as [room|] eqn:Hr; simpl.
  - by rewrite ?Hr.
  - rewrite ?Hr. simpl. rewrite lookup_insert_eq. simpl.
    by rewrite insert_insert_eq.
Qed.

Lemma members_addUser roomId r u rm :
  members r (addUser roomId u rm)
  = if decide (roomId = r) then <[user_id u := u]> (members roomId rm)
    else members r rm.
Proof.
  unfold members at 1. rewrite addUser_rooms, lookup_insert.
  by destruct (decide (roomId = r)).
Qed.

Lemma getUser_members roomId userId rm :
  getUser roomId userId rm = members roomId rm !! userId.
Proof.
  unfold getUser, members. by destruct (rooms rm !! roomId).
Qed.

Lemma getUserCount_members roomId rm :
  getUserCount roomId rm = size (members roomId rm).
Proof.
  unfold getUserCount, members. by destruct (rooms rm !! roomId).
Qed.

Lemma no_empty_room_members rm roomId :
  no_empty_room rm →
  (is_Some (rooms rm !! roomId) ↔ size (members roomId rm) ≠ 0).
Proof.
  intros Hne. unfold members. split.
  - intros [room Hr]. rewrite Hr. simpl. by apply (Hne roomId).
  - destruct (rooms rm !! roomId); [by eauto|]. simpl.
    by rewrite map_size_empty.
Qed.

(** X12. [addUser] puts the user into the room under its [id], creating the
    room if need be: the user can be read back, the room exists, the
    count grows by one unless the id was already a member (then the entry
    is replaced), and no other member and no other room changes. *)
Theorem addUser_joins (roomId : string) (u : userData) (rm : RoomManager) :
  let rm' := addUser roomId u rm in
  getUser roomId (user_id u) rm' = Some u
  ∧ roomExists roomId rm' = true
  ∧ getUserCount roomId rm'
    = (if getUser roomId (user_id u) rm is Some _ then 0 else 1)
      + getUserCount roomId rm
  ∧ (∀ i, i ≠ user_id u → getUser roomId i rm' = getUser roomId i rm)
  ∧ (∀ r, r ≠ roomId → rooms rm' !! r = rooms rm !! r)
  ∧ (no_empty_room rm → no_empty_room rm').
Proof.
  intros rm'. subst rm'.
  rewrite !getUser_members, !getUserCount_members, members_addUser.
  rewrite decide_True by done. split; [by rewrite lookup_insert_eq|].
  split. { unfold roomExists. rewrite addUser_rooms, lookup_insert_eq.
           apply bool_decide_eq_true_2. eauto. }
  split. { rewrite map_size_insert.
           by destruct (members roomId rm !! user_id u). }
  split. { intros i Hi. rewrite !getUser_members, members_addUser.
           rewrite decide_True by done. by rewrite lookup_insert_ne. }
  split. { intros r Hr. rewrite addUser_rooms. by rewrite lookup_insert_ne. }
  intros Hne. unfold no_empty_room. rewrite addUser_rooms.
  apply map_Forall_insert_2; [|done].
  rewrite map_size_insert.
  destruct (members roomId rm !! user_id u) eqn:Hu; simpl; [|done].
  apply map_size_ne_0_lookup. eauto.
Qed.

(** X13. [removeUser] answers whether the user was a member.  A member is
    taken out: it can no longer be read, the count drops by one, the
    room stays exactly when another member is left, and no other member
    and no other room changes.  For a non-member the registry is
    unchanged. *)
Theorem removeUser_leaves (roomId userId : string) (rm : RoomManager) :
  ∃ rm',
    removeUser roomId userId rm
    = (bool_decide (is_Some (getUser roomId userId rm)), rm')
    ∧ getUser roomId userId rm' = None
    ∧ (∀ i, i ≠ userId → getUser roomId i rm' = getUser roomId i rm)
    ∧ (∀ r, r ≠ roomId → rooms rm' !! r = rooms rm !! r)
    ∧ (getUser roomId userId rm = None → rm' = rm)
    ∧ (is_Some (getUser roomId userId rm) →
       S (getUserCount roomId rm') = getUserCount roomId rm
       ∧ roomExists roomId rm' = bool_decide (1 < getUserCount roomId rm))
    ∧ (no_empty_room rm → no_empty_room rm').
Proof.
  remember (getUser roomId userId rm) as g eqn:Hg.
  remember (getUserCount roomId rm) as n eqn:Hn.
  unfold getUser in Hg. unfold getUserCount in Hn. unfold removeUser.
  destruct (rooms rm !! roomId) as [room|] eqn:Hr.
  - destruct (room !! userId) as [u|] eqn:Hu; subst g n.
    + assert (Hsize : S (size (delete userId room)) = size room).
      { rewrite map_size_delete, Hu. simpl.
        assert (size room ≠ 0); [|lia].
        apply map_size_ne_0_lookup. eauto. }
      rewrite (bool_decide_eq_true_2 (is_Some (Some u))) by eauto.
      case_bool_decide as Hempty.
      * eexists. split; [done|].
        unfold getUser, getUserCount, roomExists. simpl.
        rewrite lookup_delete_eq, Hr. split; [done|].
        split. { intros i Hi. apply map_size_empty_iff in Hempty.
                 apply (f_equal (λ m, m !! i)) in Hempty.
                 rewrite lookup_delete_ne, lookup_empty in Hempty by done.
                 by rewrite Hempty. }
        split. { intros r Hne. by rewrite lookup_delete_ne. }
        split; [done|]. split.
        { intros _. split; [lia|].
          rewrite (bool_decide_eq_false_2 (1 < _)) by lia.
          apply bool_decide_eq_false_2. by intros [? ?]. }
        intros Hne. by apply map_Forall_delete.
      * eexists. split; [done|].
        unfold getUser, getUserCount, roomExists. simpl.
        rewrite lookup_insert_eq, Hr, lookup_delete_eq. split; [done|].
        split. { intros i Hi. by rewrite lookup_delete_ne. }
        split. { intros r Hne. by rewrite lookup_insert_ne. }
        split; [done|]. split.
        { intros _. split; [done|].
          rewrite (bool_decide_eq_true_2 (1 < _)) by lia.
          apply bool_decide_eq_true_2. eauto. }
        intros Hne. by apply map_Forall_insert_2.
    + exists rm.
      rewrite (bool_decide_eq_false_2 (is_Some None)) by (by intros [? ?]).
      split; [done|]. unfold getUser. rewrite Hr. split; [done|].
      split; [done|]. split; [done|]. split; [done|].
      split; [|done]. by intros [? ?].
  - subst g n. exists rm.
    rewrite (bool_decide_eq_false_2 (is_Some None)) by (by intros [? ?]).
    split; [done|]. unfold getUser. rewrite Hr. split; [done|].
    split; [done|]. split; [done|]. split; [done|].
    split; [|done]. by intros [? ?].
Qed.

Lemma registry_AB_no_empty_room : no_empty_room registry_AB.
Proof. apply (bool_decide_unpack _). vm_compute. exact I. Qed.

Lemma addUser_joins_witness :
  getUser "lobby" "A" (addUser "lobby" socket_A registry_AB) = Some socket_A
  ∧ no_empty_room (addUser "lobby" socket_A registry_AB).
Proof.
  destruct (addUser_joins "lobby" socket_A registry_AB)
    as (Hget & _ & _ & _ & _ & Hne).
  split; [exact Hget|]. apply Hne.
  apply (bool_decide_unpack _). vm_compute. exact I.
Defined.

Lemma removeUser_leaves_witness :
  ∃ rm',
    removeUser "main" "A" registry_AB = (true, rm')
    ∧ S (getUserCount "main" rm') = getUserCount "main" registry_AB
    ∧ roomExists "main" rm' = true
    ∧ no_empty_room rm'.
Proof.
  destruct (removeUser_leaves "main" "A" registry_AB)
    as (rm' & Hrem & _ & _ & _ & _ & Hmember & Hne).
  exists rm'. destruct Hmember as [Hcount Hexists].
  { vm_compute. eauto. }
  split; [exact Hrem|]. split; [exact Hcount|]. split.
  - rewrite Hexists. vm_compute. reflexivity.
  - apply Hne. apply (bool_decide_unpack _). vm_compute. exact I.
Defined.

(** X14. [updateUser] answers whether the user is a member; for a member it
    replaces the stored data by the merge, under the same key, and
    changes neither who is a member of which room nor anybody else's
    data; for a non-member it changes nothing. *)
Theorem updateUser_keeps_membership (roomId userId : string)
    (updates : userUpdates) (rm : RoomManager) :
  ∃ found rm',
    updateUser roomId userId updates rm = (found, rm')
    ∧ (found = true ↔ is_Some (getUser roomId userId rm))
    ∧ getUser roomId userId rm'
      = (λ u, merge_user u updates) <$> getUser roomId userId rm
    ∧ (∀ r i, (r, i) ≠ (roomId, userId) → getUser r i rm' = getUser r i rm)
    ∧ (∀ r, getUserCount r rm' = getUserCount r rm)
    ∧ (∀ r, roomExists r rm' = roomExists r rm)
    ∧ (found = false → rm' = rm)
    ∧ (no_empty_room rm → no_empty_room rm').
Proof.
  unfold updateUser.
  destruct (rooms rm !! roomId) as [room|] eqn:Hr.
  - destruct (room !! userId) as [u|] eqn:Hu.
    + eexists _, _. split; [done|].
      split. { unfold getUser. rewrite Hr, Hu. split; eauto. }
      split. { unfold getUser. simpl. rewrite Hr, lookup_insert_eq.
               by rewrite lookup_insert_eq, Hu. }
      split. { intros r i Hne. unfold getUser. simpl.
               destruct (decide (roomId = r)) as [<-|].
               - rewrite lookup_insert_eq, Hr.
                 rewrite lookup_insert_ne; [done|]. congruence.
               - by rewrite lookup_insert_ne. }
      split. { intros r. unfold getUserCount. simpl.
               destruct (decide (roomId = r)) as [<-|].
               - rewrite lookup_insert_eq, Hr.
                 apply map_size_insert_Some. eauto.
               - by rewrite lookup_insert_ne. }
      split. { intros r. unfold roomExists. simpl.
               destruct (decide (roomId = r)) as [<-|].
               - rewrite lookup_insert_eq, Hr.
                 rewrite !bool_decide_eq_true_2; eauto.
               - by rewrite lookup_insert_ne. }
      split; [done|]. intros Hne. apply map_Forall_insert_2; [|done].
      rewrite map_size_insert_Some by eauto. by apply (Hne roomId).
    + exists false, rm. split; [done|].
      split. { unfold getUser. rewrite Hr, Hu. split; [done|]. by intros [? ?]. }
      split. { unfold getUser. by rewrite Hr, Hu. }
      done.
  - exists false, rm. split; [done|].
    split. { unfold getUser. rewrite Hr. split; [done|]. by intros [? ?]. }
    split. { unfold getUser. by rewrite Hr. }
    done.
Qed.

Lemma updateUser_keeps_membership_witness :
  ∃ found rm',
    updateUser "main" "A"
      {| up_id := None; up_username := Some "CalmMaker7"; up_color := None;
         up_cursorX := Some (VNum 10); up_cursorY := Some (VNum 20);
         up_isDrawing := None |} registry_AB = (found, rm')
    ∧ found = true
    ∧ no_empty_room rm'.
Proof.
  destruct (updateUser_keeps_membership "main" "A"
              {| up_id := None; up_username := Some "CalmMaker7";
                 up_color := None; up_cursorX := Some (VNum 10);
                 up_cursorY := Some (VNum 20); up_isDrawing := None |}
              registry_AB)
    as (found & rm' & Hupd & Hfound & _ & _ & _ & _ & _ & Hne).
  exists found, rm'. split; [exact Hupd|]. split.
  - apply Hfound. vm_compute. eauto.
  - apply Hne. apply (bool_decide_unpack _). vm_compute. exact I.
Defined.

(** ** The registry over a run *)

Lemma addUser_no_empty_room roomId u rm :
  no_empty_room rm → no_empty_room (addUser roomId u rm).
Proof.
  intros Hne. unfold no_empty_room. rewrite addUser_rooms.
  apply map_Forall_insert_2; [|done].
  rewrite map_size_insert.
  destruct (members roomId rm !! user_id u) eqn:Hu; simpl; [|done].
  apply map_size_ne_0_lookup. eauto.
Qed.

Lemma removeUser_no_empty_room roomId userId rm :
  no_empty_room rm → no_empty_room (removeUser roomId userId rm).2.
Proof.
  intros Hne. unfold removeUser.
  destruct (rooms rm !! roomId) as [room|]; [|done].
  destruct (room !! userId); [|done].
  case_bool_decide; simpl.
  - by apply map_Forall_delete.
  - by apply map_Forall_insert_2.
Qed.

Lemma updateUser_no_empty_room roomId userId updates rm :
  no_empty_room rm → no_empty_room (updateUser roomId userId updates rm).2.
Proof.
  intros Hne. unfold updateUser.
  destruct (rooms rm !! roomId) as [room|] eqn:Hr; [|done].
  destruct (room !! userId) eqn:Hu; [|done]. simpl.
  apply map_Forall_insert_2; [|done].
  rewrite map_size_insert_Some by eauto. by apply (Hne roomId).
Qed.

Lemma reg_exec_no_empty_room c rm :
  no_empty_room rm → no_empty_room (reg_exec c rm).
Proof.
  intros Hne. destruct c as [r u|r i|r i updates]; simpl.
  - by apply addUser_no_empty_room.
  - by apply removeUser_no_empty_room.
  - by apply updateUser_no_empty_room.
Qed.

Lemma reg_run_no_empty_room cs rm :
  no_empty_room rm → no_empty_room (reg_run cs rm).
Proof.
  revert rm. induction cs as [|c cs IH]; intros rm Hne; [done|].
  simpl. by apply IH, reg_exec_no_empty_room.
Qed.

Lemma no_empty_room_new : no_empty_room newRoomManager.
Proof. apply map_Forall_empty. Qed.

(** X15. Through [addUser], [removeUser] and [updateUser] the registry never
    keeps a room without members: after any run of them on a new
    registry a room exists exactly when it has at least one member, and
    [getAllRooms] lists exactly the rooms that exist, each once. *)
Theorem room_exists_iff_it_has_members (cs : list registry_call) (roomId : string) :
  let rm := reg_run cs newRoomManager in
  roomExists roomId rm = bool_decide (0 < getUserCount roomId rm)
  ∧ (roomId ∈ getAllRooms rm ↔ roomExists roomId rm = true)
  ∧ (roomExists roomId rm = false → getUsers roomId rm = [])
  ∧ NoDup (getAllRooms rm).
Proof.
  intros rm.
  assert (Hne : no_empty_room rm)
    by apply reg_run_no_empty_room, no_empty_room_new.
  split; [|split; [|split]].
  - unfold roomExists, getUserCount.
    destruct (rooms rm !! roomId) as [room|] eqn:Hr.
    + rewrite !bool_decide_eq_true_2; [done| |by eauto].
      pose proof (Hne roomId room Hr) as Hsize. simpl in Hsize. lia.
    + rewrite !bool_decide_eq_false_2; [done|lia|by intros [? ?]].
  - unfold getAllRooms, roomExists. rewrite bool_decide_eq_true.
    rewrite list_elem_of_fmap. split.
    + intros ([r room] & -> & Hin). apply elem_of_map_to_list in Hin. eauto.
    + intros [room Hr]. exists (roomId, room). split; [done|].
      by apply elem_of_map_to_list.
  - unfold roomExists, getUsers. intros Hex.
    apply bool_decide_eq_false in Hex.
    destruct (rooms rm !! roomId); [|done]. destruct Hex. eauto.
  - apply NoDup_fst_map_to_list.
Qed.

(** X16. Outside of such runs [createRoom] can leave a room without members:
    on an unknown room it makes the room exist with nobody in it, and on
    a known room it does nothing. *)
Theorem createRoom_makes_empty_room (roomId : string) (rm : RoomManager) :
  roomExists roomId (createRoom roomId rm) = true
  ∧ members roomId (createRoom roomId rm) = members roomId rm
  ∧ (∀ r, r ≠ roomId → rooms (createRoom roomId rm) !! r = rooms rm !! r)
  ∧ (roomExists roomId rm = true → createRoom roomId rm = rm)
  ∧ (roomExists roomId rm = false →
     getUserCount roomId (createRoom roomId rm) = 0
     ∧ getUsers roomId (createRoom roomId rm) = []
     ∧ ¬ no_empty_room (createRoom roomId rm)).
Proof.
  unfold createRoom, roomExists, members, getUserCount, getUsers.
  destruct (rooms rm !! roomId) as [room|] eqn:Hr; simpl.
  - rewrite Hr. split; [done|].
    split; [done|]. split; [done|]. split; [done|].
    intros Hex. done.
  - rewrite lookup_insert_eq. simpl.
    split; [done|].
    split; [done|]. split; [by intros r Hne; rewrite lookup_insert_ne|].
    split. { intros Hex. done. }
    intros _. split; [by rewrite map_size_empty|].
    split; [by rewrite map_to_list_empty|].
    intros Hne. apply (Hne roomId ∅); [apply lookup_insert_eq|].
    by rewrite map_size_empty.
Qed.

Lemma createRoom_makes_empty_room_witness :
  createRoom "main" registry_AB = registry_AB
  ∧ getUserCount "lobby" (createRoom "lobby" registry_AB) = 0
  ∧ ¬ no_empty_room (createRoom "lobby" registry_AB).
Proof.
  destruct (createRoom_makes_empty_room "main" registry_AB)
    as (_ & _ & _ & Hknown & _).
  destruct (createRoom_makes_empty_room "lobby" registry_AB)
    as (_ & _ & _ & _ & Hnew).
  split.
  - apply Hknown. vm_compute. reflexivity.
  - destruct Hnew as (Hcount & _ & Hempty); [vm_compute; reflexivity|].
    split; [exact Hcount|exact Hempty].
Defined.

(** X17. The lists the registry hands out agree with its lookups:
    [getUsers] has [getUserCount] entries, and holds exactly the data
    [getUser] finds under some id. *)
Theorem getUsers_lists_the_members (roomId : string) (rm : RoomManager) :
  length (getUsers roomId rm) = getUserCount roomId rm
  ∧ (∀ u, u ∈ getUsers roomId rm ↔ ∃ i, getUser roomId i rm = Some u)
  ∧ (getUsers roomId rm = [] ↔ getUserCount roomId rm = 0).
Proof.
  unfold getUsers, getUserCount, getUser.
  destruct (rooms rm !! roomId) as [room|].
  - split; [by rewrite length_fmap, length_map_to_list|]. split.
    + intros u. rewrite list_elem_of_fmap. split.
      * intros ([i u'] & -> & Hin). apply elem_of_map_to_list in Hin. eauto.
      * intros [i Hi]. exists (i, u). split; [done|].
        by apply elem_of_map_to_list.
    + rewrite map_size_empty_iff, <- map_to_list_empty_iff. split.
      * apply fmap_nil_inv.
      * by intros ->.
  - split; [done|]. split; [|done]. intros u. split.
    + by intros ?%elem_of_nil.
    + by intros [? ?].
Qed.

(** X18. Joining and leaving undo each other: in a registry without empty
    rooms, adding a user who is not a member and removing it again gives
    back the registry as it was. *)
Theorem join_then_leave_restores (roomId : string) (u : userData) (rm : RoomManager) :
  no_empty_room rm →
  getUser roomId (user_id u) rm = None →
  removeUser roomId (user_id u) (addUser roomId u rm) = (true, rm).
Proof.
  intros Hne Hnot. rewrite getUser_members in Hnot.
  unfold removeUser. rewrite addUser_rooms, lookup_insert_eq, lookup_insert_eq.
  rewrite delete_insert_id by done.
  unfold members in *. destruct (rooms rm !! roomId) as [room|] eqn:Hr; simpl.
  - rewrite bool_decide_eq_false_2 by (by apply (Hne roomId)).
    f_equal. apply rm_eq. simpl. rewrite insert_insert_eq. by apply insert_id.
  - rewrite bool_decide_eq_true_2 by apply map_size_empty.
    f_equal. apply rm_eq. simpl. by rewrite delete_insert_id.
Qed.

Lemma join_then_leave_restores_witness :
  removeUser "lobby" "A" (addUser "lobby" socket_A registry_AB)
  = (true, registry_AB).
Proof.
  apply (join_then_leave_restores "lobby" socket_A registry_AB).
  - apply (bool_decide_unpack _). vm_compute. exact I.
  - vm_compute. reflexivity.
Defined.

(** * The server over its events *)

Lemma undoStroke_total roomId userId sm :
  rooms_agree sm →
  ∃ res sm', undoStroke roomId userId sm = Some (res, sm') ∧ rooms_agree sm'.
Proof.
  intros Hag.
  destruct (exec_agree (call_undoStroke roomId userId) sm Hag) as (sm' & Hex & Hag').
  simpl in Hex. destruct (undoStroke roomId userId sm) as [[res sm'']|]; [|done].
  simpl in Hex. injection Hex as ->. by exists res, sm'.
Qed.

Lemma redoStroke_total roomId userId sm :
  rooms_agree sm →
  ∃ res sm', redoStroke roomId userId sm = Some (res, sm') ∧ rooms_agree sm'.
Proof.
  intros Hag.
  destruct (exec_agree (call_redoStroke roomId userId) sm Hag) as (sm' & Hex & Hag').
  simpl in Hex. destruct (redoStroke roomId userId sm) as [[res sm'']|]; [|done].
  simpl in Hex. injection Hex as ->. by exists res, sm'.
Qed.

Lemma size_alter {A} (f : A → A) (m : gmap string A) i :
  size (alter f i m) = size m.
Proof. by rewrite <- !size_dom, dom_alter_L. Qed.

Lemma handle_ok ev s :
  server_ok s → has_payload ev = true →
  ∃ s' out, handle ev s = Some (s', out) ∧ server_ok s'.
Proof.
  intros [Hag Hne] Hpay.
  destruct ev as [i n c|socket data now|socket data now tId tC|socket [data|]
                 |socket|socket|socket|socket]; simpl; try done.
  - unfold on_connection. rewrite getStrokes_history by done. simpl.
    eexists _, _. split; [done|]. split; simpl.
    + by apply rooms_agree_initRoom.
    + by apply addUser_no_empty_room.
  - eexists _, _. by split.
  - rewrite on_stroke_complete_put by done.
    eexists _, _. split; [done|]. split; simpl; [|done].
    by apply rooms_agree_put, rooms_agree_bump.
  - unfold on_cursor_move. eexists _, _. split; [done|]. split; [done|]. simpl.
    intros r room Hroom. simpl in Hroom.
    apply lookup_alter_Some in Hroom as [(_ & room' & Hr & ->)|[_ Hr]].
    + rewrite size_alter. by apply (Hne r).
    + by apply (Hne r).
  - unfold on_undo.
    destruct (undoStroke_total defaultRoom (user_id socket) (stateManager s) Hag)
      as (res & sm' & -> & Hag'). simpl.
    destruct res as [undone|].
    + rewrite getStrokes_history by done. simpl.
      eexists _, _. split; [done|]. split; simpl; [|done].
      by apply rooms_agree_initRoom.
    + eexists _, _. by split.
  - unfold on_redo.
    destruct (redoStroke_total defaultRoom (user_id socket) (stateManager s) Hag)
      as (res & sm' & -> & Hag'). simpl.
    destruct res as [redone|].
    + rewrite getStrokes_history by done. simpl.
      eexists _, _. split; [done|]. split; simpl; [|done].
      by apply rooms_agree_initRoom.
    + eexists _, _. by split.
  - unfold on_clear_canvas. eexists _, _. split; [done|]. split; simpl; [|done].
    rewrite clearStrokes_put by done. by apply rooms_agree_put.
  - unfold on_disconnect.
    pose proof (removeUser_no_empty_room defaultRoom (user_id socket)
                  (roomManager s) Hne) as Hne'.
    destruct (removeUser defaultRoom (user_id socket) (roomManager s))
      as [found rm'].
    eexists _, _. split; [done|]. split; simpl; [|done].
    by apply cleanupUserHistory_view.
Qed.

Lemma server_ok_new : server_ok newServer.
Proof. split; [apply rooms_agree_new|apply no_empty_room_new]. Qed.

Lemma serve_ok evs s :
  server_ok s → Forall (λ ev, has_payload ev = true) evs →
  ∃ s' out, serve evs s = Some (s', out) ∧ server_ok s'.
Proof.
  revert s. induction evs as [|ev evs IH]; intros s Hok Hpay.
  - by exists s, [].
  - apply Forall_cons in Hpay as [Hev Hevs'].
    destruct (handle_ok ev s Hok Hev) as (s1 & out1 & Hev1 & Hok1).
    rename Hev1 into Hev0.
    destruct (IH s1 Hok1 Hevs') as (s2 & out2 & Hevs & Hok2).
    exists s2, (out1 ++ out2). split; [|done].
    cbn [serve]. rewrite Hev0. cbn [mbind option_bind]. by rewrite Hevs.
Qed.

(** X19. No sequence of connections, drawing steps, commits, cursor moves,
    undos, redos, clears and disconnects makes a handler throw, as long
    as every cursor move comes with a payload: from a new server every
    such sequence is served to the end, and leaves the store well formed
    and the registry without empty rooms.  A cursor move without a
    payload does throw. *)
Theorem server_never_throws (evs : list event) :
  Forall (λ ev, has_payload ev = true) evs →
  (∃ s out, serve evs newServer = Some (s, out) ∧ server_ok s)
  ∧ ∀ socket s, handle (ev_cursor_move socket None) s = None.
Proof.
  intros Hpay. split; [|done]. apply serve_ok; [apply server_ok_new|done].
Qed.

Lemma server_never_throws_witness :
  (∃ s out,
     serve [ ev_connection "A" "HappyArtist1" "#e74c3c";
             ev_stroke_complete socket_A pointless_data 1000 1000 1001;
             ev_cursor_move socket_A (Some ∅);
             ev_undo socket_A; ev_undo socket_A; ev_redo socket_A;
             ev_clear_canvas socket_A; ev_disconnect socket_A;
             ev_disconnect socket_A ] newServer = Some (s, out)
     ∧ server_ok s)
  ∧ ∀ socket s, handle (ev_cursor_move socket None) s = None.
Proof.
  apply server_never_throws. repeat constructor.
Defined.

(** ** Ephemeral relays *)

(** X20. A drawing step is relayed and nothing else: the server state is
    unchanged and the one emit goes to the other sockets of the room,
    carrying the client's data with [userId] set to the sender's socket
    id and [timestamp] to the server's clock, whatever the client put
    there. *)
Theorem drawing_step_is_relayed_only (socket : userData) (data : obj)
    (now : Z) (s : Server) :
  ∃ payload,
    on_drawing_step socket data now s
    = Some (s, [ (ToOthers (user_id socket) defaultRoom, drawing_step payload) ])
    ∧ payload !! "userId" = Some (VStr (user_id socket))
    ∧ payload !! "timestamp" = Some (VNum now)
    ∧ ∀ k, k ≠ "userId" → k ≠ "timestamp" → payload !! k = data !! k.
Proof.
  eexists. split; [done|]. split; [|split].
  - by rewrite lookup_insert_ne, lookup_insert_eq.
  - by rewrite lookup_insert_eq.
  - intros k ??. by rewrite !lookup_insert_ne.
Qed.

(** X21. A cursor move leaves the history store alone and changes in the
    registry only the cursor of the sender's entry: who is a member of
    which room, and everybody's name and color, stay; the position goes
    to the other sockets only. *)
Theorem cursor_move_updates_own_cursor (socket : userData) (data : obj)
    (s : Server) :
  ∃ s' x y,
    on_cursor_move socket data s
    = Some (s', [ (ToOthers (user_id socket) defaultRoom,
                   cursor_update (user_id socket) (username socket)
                     (color socket) x y) ])
    ∧ x = default VUndefined (data !! "x")
    ∧ y = default VUndefined (data !! "y")
    ∧ stateManager s' = stateManager s
    ∧ (∀ r i, (r, i) ≠ (defaultRoom, user_id socket) →
         getUser r i (roomManager s') = getUser r i (roomManager s))
    ∧ (∀ r, getUserCount r (roomManager s') = getUserCount r (roomManager s))
    ∧ (∀ u, getUser defaultRoom (user_id socket) (roomManager s) = Some u →
         ∃ u', getUser defaultRoom (user_id socket) (roomManager s') = Some u'
               ∧ cursorX u' = x ∧ cursorY u' = y
               ∧ user_id u' = user_id u ∧ username u' = username u
               ∧ color u' = color u ∧ isDrawing u' = isDrawing u).
Proof.
  eexists _, _, _. split; [done|]. split; [done|]. split; [done|].
  split; [done|]. simpl. split; [|split].
  - intros r i Hne. unfold getUser. simpl. rewrite lookup_alter.
    case_decide as Hr; [|done]. subst r.
    destruct (rooms (roomManager s) !! defaultRoom) as [room|]; [|done].
    simpl. rewrite lookup_alter_ne; [done|]. congruence.
  - intros r. unfold getUserCount. simpl. rewrite lookup_alter.
    case_decide as Hr; [|done]. subst r.
    destruct (rooms (roomManager s) !! defaultRoom) as [room|]; [|done].
    simpl. apply size_alter.
  - intros u. unfold getUser. simpl. rewrite lookup_alter_eq.
    destruct (rooms (roomManager s) !! defaultRoom) as [room|]; [|done].
    simpl. rewrite lookup_alter_eq. intros ->. simpl. by eexists.
Qed.

(** ** Commits through the server *)

Lemma strokeData_of_own socket data now :
  strokeData_of socket data now !! "userId" = Some (VStr (user_id socket))
  ∧ strokeData_of socket data now !! "username" = Some (VStr (username socket))
  ∧ strokeData_of socket data now !! "timestamp" = Some (VNum now).
Proof.
  unfold strokeData_of. repeat split.
  - rewrite 2!lookup_insert_ne by done. by rewrite lookup_insert_eq.
  - rewrite lookup_insert_ne by done. by rewrite lookup_insert_eq.
  - by rewrite lookup_insert_eq.
Qed.

Lemma owned_by_sender socket data now id tCreated :
  owned_by (user_id socket) (finalize id (strokeData_of socket data now) tCreated).
Proof.
  unfold owned_by, prop_is. rewrite finalize_other by done.
  destruct (strokeData_of_own socket data now) as [-> _].
  by apply bool_decide_eq_true_2.
Qed.

(** X22. The stroke a commit leaves in the history is attributed by the
    server: its [userId] and [username] are the sender's, its
    [timestamp] and [createdAt] the server's clock, whatever the client's
    data says; the other properties are the client's, and so is [id] if
    the client sent one (the generated identifier is used otherwise). *)
Theorem committed_stroke_is_attributed (socket : userData) (data : obj)
    (now tId tCreated : Z) (s : Server) :
  rooms_agree (stateManager s) →
  ∃ s' out persisted,
    on_stroke_complete socket data now tId tCreated s = Some (s', out)
    ∧ history defaultRoom (stateManager s')
      = history defaultRoom (stateManager s) ++ [persisted]
    ∧ owned_by (user_id socket) persisted
    ∧ persisted !! "username" = Some (VStr (username socket))
    ∧ persisted !! "timestamp" = Some (VNum now)
    ∧ persisted !! "createdAt" = Some (VNum tCreated)
    ∧ id_of persisted
      = Some (default
                (VStr (strokeIdOf tId (strokeIdCounter (stateManager s) + 1)))
                (data !! "id"))
    ∧ (∀ k, k ∉ ["id"; "userId"; "username"; "timestamp"; "createdAt"] →
         persisted !! k = data !! k)
    ∧ roomManager s' = roomManager s.
Proof.
  intros Hag. rewrite on_stroke_complete_put by done.
  eexists _, _, _. split; [done|]. simpl.
  rewrite history_put_eq. split; [done|].
  split; [apply owned_by_sender|].
  destruct (strokeData_of_own socket data now) as (_ & Hname & Htime).
  split; [by rewrite finalize_other|]. split; [by rewrite finalize_other|].
  split; [apply finalize_createdAt|]. split.
  - unfold id_of.
    destruct (data !! "id") as [v|] eqn:Hid; simpl.
    + unfold finalize. rewrite lookup_insert_ne by done.
      apply lookup_union_Some_l. by rewrite strokeData_of_other.
    + apply finalize_id. by rewrite strokeData_of_other.
  - split; [|done]. intros k Hk.
    rewrite !not_elem_of_cons in Hk. destruct Hk as (? & ? & ? & ? & ? & _).
    rewrite finalize_other by done. by apply strokeData_of_other.
Qed.

Lemma committed_stroke_is_attributed_witness :
  ∃ s' out persisted,
    on_stroke_complete socket_B
      (<["userId" := VStr "A"]> (<["id" := VStr "mine"]> sample_data))
      2000 2000 2001 server_AB = Some (s', out)
    ∧ history defaultRoom (stateManager s')
      = history defaultRoom (stateManager server_AB) ++ [persisted]
    ∧ owned_by (user_id socket_B) persisted
    ∧ persisted !! "username" = Some (VStr (username socket_B))
    ∧ persisted !! "timestamp" = Some (VNum 2000)
    ∧ persisted !! "createdAt" = Some (VNum 2001)
    ∧ id_of persisted
      = Some (default
                (VStr (strokeIdOf 2000
                         (strokeIdCounter (stateManager server_AB) + 1)))
                (<["userId" := VStr "A"]> (<["id" := VStr "mine"]> sample_data)
                   !! "id"))
    ∧ (∀ k, k ∉ ["id"; "userId"; "username"; "timestamp"; "createdAt"] →
         persisted !! k
         = <["userId" := VStr "A"]> (<["id" := VStr "mine"]> sample_data) !! k)
    ∧ roomManager s' = roomManager server_AB.
Proof.
  apply (committed_stroke_is_attributed socket_B
           (<["userId" := VStr "A"]> (<["id" := VStr "mine"]> sample_data))
           2000 2000 2001 server_AB).
  apply rooms_agree_dom. vm_compute. reflexivity.
Defined.

(** X23. An undo right after one's own commit takes that commit back: the
    history is again what it was before the commit, and the whole room is
    sent that history. *)
Theorem commit_then_undo_restores_history (socket : userData) (data : obj)
    (now tId tCreated : Z) (s : Server) :
  rooms_agree (stateManager s) →
  ∃ s1 out1 s2 persisted,
    on_stroke_complete socket data now tId tCreated s = Some (s1, out1)
    ∧ last (history defaultRoom (stateManager s1)) = Some persisted
    ∧ on_undo socket s1
      = Some (s2, [ (ToRoom defaultRoom,
                     undo_stroke (default VUndefined (persisted !! "id"))
                       (user_id socket)
                       (history defaultRoom (stateManager s))) ])
    ∧ history defaultRoom (stateManager s2) = history defaultRoom (stateManager s)
    ∧ redoStack defaultRoom (user_id socket) (stateManager s2) = [persisted].
Proof.
  intros Hag. rewrite on_stroke_complete_put by done.
  set (strokeData := strokeData_of socket data now).
  set (persisted := finalize _ strokeData tCreated).
  set (sm1 := put_room defaultRoom _ _ (bump (stateManager s))).
  assert (Hag1 : rooms_agree sm1) by (by apply rooms_agree_put, rooms_agree_bump).
  assert (Hstack : redoStack defaultRoom (user_id socket) sm1 = []).
  { unfold sm1. rewrite redoStack_put_eq. apply cleared_for_own.
    apply strokeData_of_own. }
  eexists _, _, _, persisted. split; [done|]. simpl.
  split. { unfold sm1. by rewrite history_put_eq, last_snoc. }
  unfold on_undo. simpl.
  rewrite (undoStroke_at _ _ _ (history defaultRoom (stateManager s)) persisted []);
    [|done|by unfold sm1; rewrite history_put_eq|apply owned_by_sender|constructor].
  simpl. rewrite app_nil_r, Hstack.
  rewrite getStrokes_history by (by apply rooms_agree_put). simpl.
  rewrite history_put_eq. split; [done|]. simpl.
  rewrite initRoom_history, history_put_eq. split; [done|].
  unfold redoStack. rewrite initRoom_redoMap by (by apply rooms_agree_put).
  rewrite redoMap_put, decide_True by done. by rewrite lookup_insert_eq.
Qed.

Lemma commit_then_undo_restores_history_witness :
  ∃ s1 out1 s2 persisted,
    on_stroke_complete socket_A sample_data 3000 3000 3001 server_B_drew
    = Some (s1, out1)
    ∧ last (history defaultRoom (stateManager s1)) = Some persisted
    ∧ on_undo socket_A s1
      = Some (s2, [ (ToRoom defaultRoom,
                     undo_stroke (default VUndefined (persisted !! "id"))
                       (user_id socket_A)
                       (history defaultRoom (stateManager server_B_drew))) ])
    ∧ history defaultRoom (stateManager s2)
      = history defaultRoom (stateManager server_B_drew)
    ∧ redoStack defaultRoom (user_id socket_A) (stateManager s2) = [persisted].
Proof.
  apply (commit_then_undo_restores_history socket_A sample_data 3000 3000 3001
           server_B_drew).
  apply rooms_agree_dom. vm_compute. reflexivity.
Defined.

(** ** What undo, redo and a connection send *)

(** X24. An undo or redo that does something is announced to the whole room
    with the room's entire history as it is afterwards; one that does
    nothing is announced to nobody. *)
Theorem undo_redo_broadcast_whole_history (socket : userData) (s : Server) :
  rooms_agree (stateManager s) →
  (∃ s' out,
     on_undo socket s = Some (s', out)
     ∧ (out = []
        ∨ ∃ undone,
            out = [ (ToRoom defaultRoom,
                     undo_stroke (default VUndefined (undone !! "id"))
                       (user_id socket)
                       (history defaultRoom (stateManager s'))) ]
            ∧ owned_by (user_id socket) undone
            ∧ undone ∈ history defaultRoom (stateManager s)
            ∧ length (history defaultRoom (stateManager s))
              = S (length (history defaultRoom (stateManager s')))))
  ∧ (∃ s' out,
       on_redo socket s = Some (s', out)
       ∧ (out = []
          ∨ ∃ redone,
              out = [ (ToRoom defaultRoom,
                       redo_stroke redone (user_id socket)
                         (history defaultRoom (stateManager s'))) ]
              ∧ last (history defaultRoom (stateManager s')) = Some redone
              ∧ last (redoStack defaultRoom (user_id socket) (stateManager s))
                = Some redone)).
Proof.
  intros Hag. remember (stateManager s) as sm eqn:Hsm.
  remember (user_id socket) as p eqn:Hp. split.
  - unfold on_undo. rewrite <- Hsm, <- Hp.
    destruct (undo_scan (history defaultRoom sm) p (length (history defaultRoom sm)))
      as [i|] eqn:Hscan.
    + destruct (undo_scan_split _ _ _ Hscan) as (undone & Hi & Hsplit & Hown & _).
      rewrite (undoStroke_found _ _ _ _ _ Hag Hscan Hi). simpl.
      rewrite getStrokes_history by (by apply rooms_agree_put). simpl.
      eexists _, _. split; [done|]. right. exists undone. simpl.
      rewrite initRoom_history, history_put_eq.
      split; [done|]. split; [done|].
      split; [by apply list_elem_of_lookup_2 in Hi|].
      rewrite length_delete by eauto.
      apply lookup_lt_Some in Hi. lia.
    + rewrite undoStroke_nothing by done. simpl. eexists _, _. split; [done|].
      by left.
  - unfold on_redo. rewrite <- Hsm, <- Hp.
    destruct (redoMap defaultRoom sm !! p) as [stack|] eqn:Hu.
    + destruct stack as [|redone rest _] using rev_ind.
      * rewrite redoStroke_nothing; [|done|by unfold redoStack; rewrite Hu].
        simpl. eexists _, _. split; [done|]. by left.
      * rewrite (redoStroke_found _ _ _ rest redone) by done. simpl.
        rewrite getStrokes_history by (by apply rooms_agree_put). simpl.
        eexists _, _. split; [done|]. right. exists redone. simpl.
        rewrite initRoom_history, history_put_eq.
        split; [done|]. split; [by rewrite last_snoc|].
        unfold redoStack. rewrite Hu. simpl. by rewrite last_snoc.
    + rewrite redoStroke_nothing; [|done|by unfold redoStack; rewrite Hu].
      simpl. eexists _, _. split; [done|]. by left.
Qed.

Lemma undo_redo_broadcast_whole_history_witness :
  (∃ s' out,
     on_undo socket_B server_B_drew = Some (s', out)
     ∧ (out = []
        ∨ ∃ undone,
            out = [ (ToRoom defaultRoom,
                     undo_stroke (default VUndefined (undone !! "id"))
                       (user_id socket_B)
                       (history defaultRoom (stateManager s'))) ]
            ∧ owned_by (user_id socket_B) undone
            ∧ undone ∈ history defaultRoom (stateManager server_B_drew)
            ∧ length (history defaultRoom (stateManager server_B_drew))
              = S (length (history defaultRoom (stateManager s')))))
  ∧ (∃ s' out,
       on_redo socket_B server_B_drew = Some (s', out)
       ∧ (out = []
          ∨ ∃ redone,
              out = [ (ToRoom defaultRoom,
                       redo_stroke redone (user_id socket_B)
                         (history defaultRoom (stateManager s'))) ]
              ∧ last (history defaultRoom (stateManager s')) = Some redone
              ∧ last (redoStack defaultRoom (user_id socket_B)
                        (stateManager server_B_drew))
                = Some redone)).
Proof.
  apply (undo_redo_broadcast_whole_history socket_B server_B_drew).
  apply rooms_agree_dom. vm_compute. reflexivity.
Defined.

(** X25. A connection registers the new socket in room [main] and sends two
    messages: [init], to the new socket alone, with the room's history
    and the list of members, the new one included; and [user_joined], to
    the others.  The history itself is not changed. *)
Theorem connection_sends_snapshot (socketId uname ucolor : string) (s : Server) :
  rooms_agree (stateManager s) →
  let socket := {| user_id := socketId; username := uname; color := ucolor;
                   cursorX := VNum 0; cursorY := VNum 0; isDrawing := false |} in
  ∃ s' users,
    on_connection socketId uname ucolor s
    = Some (s', [ (ToSocket socketId,
                   init socketId uname ucolor
                     (history defaultRoom (stateManager s)) users);
                  (ToOthers socketId defaultRoom, user_joined socket) ])
    ∧ users = getUsers defaultRoom (roomManager s')
    ∧ socket ∈ users
    ∧ (∀ i u, i ≠ socketId →
         getUser defaultRoom i (roomManager s) = Some u → u ∈ users)
    ∧ getUser defaultRoom socketId (roomManager s') = Some socket
    ∧ same_view (stateManager s) (stateManager s')
    ∧ is_Some (roomStrokes (stateManager s') !! defaultRoom).
Proof.
  intros Hag socket. unfold on_connection. fold socket.
  rewrite getStrokes_history by done. simpl.
  eexists _, _. split; [done|]. split; [done|]. cbn [roomManager stateManager].
  assert (Hin : ∀ u, u ∈ getUsers defaultRoom (addUser defaultRoom socket (roomManager s))
                     ↔ ∃ i, <[socketId := socket]> (members defaultRoom (roomManager s)) !! i
                            = Some u).
  { intros u. unfold getUsers. rewrite addUser_rooms, lookup_insert_eq.
    rewrite list_elem_of_fmap. split.
    - intros ([i u'] & -> & Hu). apply elem_of_map_to_list in Hu. eauto.
    - intros [i Hi]. exists (i, u). split; [done|]. by apply elem_of_map_to_list. }
  split. { apply Hin. exists socketId. by rewrite lookup_insert_eq. }
  split. { intros i u Hi Hold. apply Hin. exists i.
           rewrite getUser_members in Hold. by rewrite lookup_insert_ne. }
  split. { rewrite getUser_members, members_addUser, decide_True by done.
           by rewrite lookup_insert_eq. }
  split; [by apply same_view_initRoom|].
  destruct (initRoom_lookups defaultRoom (stateManager s) Hag) as [-> _]. eauto.
Qed.

Lemma connection_sends_snapshot_witness :
  ∃ s' users,
    on_connection "C" "CalmMaker7" "#2ecc71" server_B_drew
    = Some (s', [ (ToSocket "C",
                   init "C" "CalmMaker7" "#2ecc71"
                     (history defaultRoom (stateManager server_B_drew)) users);
                  (ToOthers "C" defaultRoom,
                   user_joined
                     {| user_id := "C"; username := "CalmMaker7";
                        color := "#2ecc71"; cursorX := VNum 0;
                        cursorY := VNum 0; isDrawing := false |}) ])
    ∧ socket_A ∈ users ∧ socket_B ∈ users
    ∧ same_view (stateManager server_B_drew) (stateManager s').
Proof.
  destruct (connection_sends_snapshot "C" "CalmMaker7" "#2ecc71" server_B_drew)
    as (s' & users & Hconn & _ & _ & Hold & _ & Hview & _).
  { apply rooms_agree_dom. vm_compute. reflexivity. }
  exists s', users. split; [exact Hconn|].
  split; [apply (Hold "A"); [discriminate|vm_compute; reflexivity]|].
  split; [apply (Hold "B"); [discriminate|vm_compute; reflexivity]|].
  exact Hview.
Defined.

(** * The drawing client *)

Lemma canvas_run_app es1 es2 c c1 out1 :
  canvas_run es1 c = Some (c1, out1) →
  canvas_run (es1 ++ es2) c
  = '(c2, out2) ← canvas_run es2 c1; Some (c2, out1 ++ out2).
Proof.
  revert c c1 out1. induction es1 as [|e es1 IH]; intros c c1 out1; simpl.
  - intros [= <- <-]. by destruct (canvas_run es2 c) as [[c2 out2]|].
  - destruct (canvas_step e c) as [[c' out]|]; [|done]. simpl.
    destruct (canvas_run es1 c') as [[c'' out']|] eqn:Hrun; [|done]. simpl.
    intros [= <- <-]. rewrite (IH _ _ _ Hrun).
    destruct (canvas_run es2 c'') as [[c2 out2]|]; [|done]. simpl.
    by rewrite (assoc (++)).
Qed.

(** The moves of a gesture in progress: every move draws a line from the
    previous point, reports it, and adds its point to the path. *)
Lemma canvas_run_draws ps c q cs :
  cm_isDrawing (core c) = true →
  currentStroke (core c) = Some cs →
  onDrawStep c = true →
  lastX c = q.1 → lastY c = q.2 →
  ∃ c',
    canvas_run (map (λ p, ce_draw p.1 p.2) ps) c
    = Some (c', moves q ps (default VUndefined (cs !! "color"))
                  (default VUndefined (cs !! "width")) (tool c))
    ∧ cm_isDrawing (core c') = true
    ∧ currentPath (core c')
      = currentPath (core c) ++ map (λ p, point p.1 p.2) ps
    ∧ currentStroke (core c') = Some cs
    ∧ onStrokeComplete (core c') = onStrokeComplete (core c)
    ∧ strokeColor c' = strokeColor c ∧ strokeWidth c' = strokeWidth c
    ∧ tool c' = tool c ∧ onDrawStep c' = onDrawStep c.
Proof.
  revert c q. induction ps as [|p ps IH]; intros c q Hd Hcs Hstep Hx Hy.
  - exists c. simpl. by rewrite app_nil_r.
  - pose (c1 := {| core :=
                     {| cm_isDrawing := true;
                        currentPath := currentPath (core c) ++ [point p.1 p.2];
                        currentStroke := Some cs;
                        onStrokeComplete := onStrokeComplete (core c) |};
                   lastX := p.1; lastY := p.2;
                   strokeColor := strokeColor c; strokeWidth := strokeWidth c;
                   tool := tool c; onDrawStep := onDrawStep c |}).
    destruct (IH c1 p)
      as (c' & Hrun & Hd' & Hpath & Hcs' & Hcb & Hc & Hw & Ht & Hs);
      try done.
    assert (Hdraw : draw p.1 p.2 c
              = Some (c1, moves q [p] (default VUndefined (cs !! "color"))
                            (default VUndefined (cs !! "width")) (tool c))).
    { unfold draw, c1. by rewrite Hd, Hcs, Hstep, Hx, Hy. }
    cbn [map canvas_run canvas_step]. rewrite Hdraw.
    cbn [mbind option_bind]. rewrite Hrun. cbn [mbind option_bind].
    exists c'. split; [done|]. simpl in *.
    rewrite Hpath, <- (assoc (++)). done.
Qed.

(** X26. A gesture (down, moves, up) on a canvas with both callbacks
    installed reports each move as a segment from the previous point to
    the new one, and on release hands over one stroke whose points are
    the starting point followed by the end of every segment, in the
    color, width and tool chosen at the start (white and three times as
    wide for the eraser).  A press and release without a move hands over
    nothing. *)
Theorem gesture_commits_its_points (c : Canvas) (p0 : value * value)
    (ps : list (value * value)) :
  onDrawStep c = true →
  onStrokeComplete (core c) = true →
  let eraser := bool_decide (tool c = "eraser") in
  let lcolor := VStr (if eraser then "#ffffff" else strokeColor c) in
  let lwidth := VNum (if eraser then strokeWidth c * 3 else strokeWidth c) in
  ∃ c',
    canvas_run (ce_start p0.1 p0.2 :: map (λ p, ce_draw p.1 p.2) ps ++ [ce_stop]) c
    = Some (c',
            moves p0 ps lcolor lwidth (tool c)
            ++ (if ps is [] then []
                else [fx_complete
                        (<["tool" := VStr (tool c)]>
                           (<["width" := lwidth]>
                              (<["color" := lcolor]>
                                 {["points" :=
                                     VArr (map (λ p, point p.1 p.2) (p0 :: ps))]})))]))
    ∧ cm_isDrawing (core c') = false
    ∧ currentPath (core c') = []
    ∧ currentStroke (core c') = None.
Proof.
  intros Hstep Hcomplete eraser lcolor lwidth.
  set (cs := ({[ "color" := lcolor; "width" := lwidth;
                 "tool" := VStr (tool c) ]} : obj)).
  destruct (canvas_run_draws ps (startDrawing p0.1 p0.2 c) p0 cs)
    as (c1 & Hrun & Hd & Hpath & Hcs & Hcb & _ & _ & Ht & _); try done.
  cbn [canvas_run canvas_step]. cbn [mbind option_bind].
  rewrite (canvas_run_app _ [ce_stop] _ _ _ Hrun).
  cbn [canvas_run canvas_step]. unfold stop, stopDrawing.
  rewrite Hd, Hcs, Hcb, Hpath. simpl. rewrite Hcomplete.
  destruct ps as [|p ps].
  - simpl. eexists. split.
    + reflexivity.
    + simpl. done.
  - rewrite bool_decide_eq_true_2 by (simpl; lia). simpl.
    eexists. split.
    + reflexivity.
    + simpl. done.
Qed.

Lemma gesture_commits_its_points_witness :
  ∃ c',
    canvas_run
      (ce_start (VNum 100) (VNum 150)
       :: map (λ p, ce_draw p.1 p.2) [(VNum 102, VNum 153); (VNum 105, VNum 155)]
       ++ [ce_stop]) (setTool "eraser" wired_canvas)
    = Some (c',
            moves (VNum 100, VNum 150) [(VNum 102, VNum 153); (VNum 105, VNum 155)]
              (VStr "#ffffff") (VNum 9) "eraser"
            ++ [fx_complete
                  (<["tool" := VStr "eraser"]>
                     (<["width" := VNum 9]>
                        (<["color" := VStr "#ffffff"]>
                           {["points" :=
                               VArr [point (VNum 100) (VNum 150);
                                     point (VNum 102) (VNum 153);
                                     point (VNum 105) (VNum 155)]]})))])
    ∧ cm_isDrawing (core c') = false
    ∧ currentPath (core c') = []
    ∧ currentStroke (core c') = None.
Proof.
  apply (gesture_commits_its_points (setTool "eraser" wired_canvas)
           (VNum 100, VNum 150) [(VNum 102, VNum 153); (VNum 105, VNum 155)]);
    reflexivity.
Defined.

Lemma canvas_run_during es c cs :
  cm_isDrawing (core c) = true →
  currentStroke (core c) = Some cs →
  Forall (λ e, during_gesture e = true) es →
  ∃ c1 out1,
    canvas_run es c = Some (c1, out1)
    ∧ cm_isDrawing (core c1) = true
    ∧ currentStroke (core c1) = Some cs
    ∧ onStrokeComplete (core c1) = onStrokeComplete (core c)
    ∧ completed out1 = []
    ∧ ∀ d, fx_step d ∈ out1 →
        d !! "color" = Some (default VUndefined (cs !! "color"))
        ∧ d !! "width" = Some (default VUndefined (cs !! "width")).
Proof.
  revert c. induction es as [|e es IH]; intros c Hd Hcs Hes.
  - exists c, []. do 5 (split; [done|]). intros d Hin.
    by apply elem_of_nil in Hin.
  - apply Forall_cons in Hes as [He Hes].
    assert (Hstep : ∃ c' out,
              canvas_step e c = Some (c', out)
              ∧ cm_isDrawing (core c') = true
              ∧ currentStroke (core c') = Some cs
              ∧ onStrokeComplete (core c') = onStrokeComplete (core c)
              ∧ completed out = []
              ∧ ∀ d, fx_step d ∈ out →
                  d !! "color" = Some (default VUndefined (cs !! "color"))
                  ∧ d !! "width" = Some (default VUndefined (cs !! "width"))).
    { destruct e as [x y|x y| |v|w|t]; try done; simpl;
        try (eexists _, _; do 5 (split; [done|]); intros d Hin;
             by apply elem_of_nil in Hin).
      unfold draw. rewrite Hd, Hcs. simpl. eexists _, _.
      split; [done|]. do 3 (split; [done|]).
      split; [by destruct (onDrawStep c)|].
      intros d Hin. apply elem_of_cons in Hin as [?|Hin]; [done|].
      destruct (onDrawStep c); [|by apply elem_of_nil in Hin].
      apply list_elem_of_singleton in Hin. injection Hin as ->. split.
      - rewrite 2!lookup_insert_ne by done. by rewrite lookup_insert_eq.
      - rewrite 3!lookup_insert_ne by done. by rewrite lookup_insert_eq. }
    destruct Hstep as (c' & out & Hstep & Hd' & Hcs' & Hcb' & Hcomp & Hst).
    destruct (IH c' Hd' Hcs' Hes) as (c1 & out1 & Hrun & Hd1 & Hcs1 & Hcb1 & Hcomp1 & Hst1).
    exists c1, (out ++ out1). split.
    { cbn [canvas_run]. rewrite Hstep. cbn [mbind option_bind]. by rewrite Hrun. }
    split; [done|]. split; [done|]. split; [congruence|]. split.
    + unfold completed in *. by rewrite omap_app, Hcomp, Hcomp1.
    + intros d Hin. apply elem_of_app in Hin as [Hin|Hin]; eauto.
Qed.

(** X27. The look of a stroke is fixed when the gesture starts: whatever is
    drawn or changed on the controls meanwhile, every reported segment
    and the stroke handed over at the end carry the color and width the
    gesture started with, the stroke also its tool.  The stroke is handed
    over once: a second stop (mouse up followed by mouse out) hands over
    nothing. *)
Theorem stroke_style_is_fixed_at_start (c : Canvas) (cs : obj)
    (es : list canvas_event) :
  cm_isDrawing (core c) = true →
  currentStroke (core c) = Some cs →
  Forall (λ e, during_gesture e = true) es →
  ∃ c1 out1 c2 out2 c3,
    canvas_run es c = Some (c1, out1)
    ∧ completed out1 = []
    ∧ (∀ d, fx_step d ∈ out1 →
         d !! "color" = Some (default VUndefined (cs !! "color"))
         ∧ d !! "width" = Some (default VUndefined (cs !! "width")))
    ∧ stop c1 = Some (c2, out2)
    ∧ length (completed out2) ≤ 1
    ∧ (∀ d, d ∈ completed out2 →
         d !! "points" = Some (VArr (currentPath (core c1)))
         ∧ d !! "color" = Some (default VUndefined (cs !! "color"))
         ∧ d !! "width" = Some (default VUndefined (cs !! "width"))
         ∧ d !! "tool" = Some (default VUndefined (cs !! "tool")))
    ∧ stop c2 = Some (c3, [])
    ∧ core c3 = core c2.
Proof.
  intros Hd Hcs Hes.
  destruct (canvas_run_during es c cs Hd Hcs Hes)
    as (c1 & out1 & Hrun & Hd1 & Hcs1 & _ & Hcomp & Hsteps).
  assert (Hstop2 : ∀ c2, cm_isDrawing (core c2) = false →
            ∃ c3, stop c2 = Some (c3, []) ∧ core c3 = core c2).
  { intros c2 Hoff. unfold stop, stopDrawing. rewrite Hoff. simpl.
    by eexists. }
  assert (Hstop1 : ∃ c2 out2,
            stop c1 = Some (c2, out2)
            ∧ cm_isDrawing (core c2) = false
            ∧ length (completed out2) ≤ 1
            ∧ ∀ d, d ∈ completed out2 →
                d !! "points" = Some (VArr (currentPath (core c1)))
                ∧ d !! "color" = Some (default VUndefined (cs !! "color"))
                ∧ d !! "width" = Some (default VUndefined (cs !! "width"))
                ∧ d !! "tool" = Some (default VUndefined (cs !! "tool"))).
  { unfold stop, stopDrawing. rewrite Hd1, Hcs1. simpl.
    destruct (bool_decide (1 < length (currentPath (core c1)))
              && onStrokeComplete (core c1)); simpl.
    - eexists _, _. split; [reflexivity|]. split; [done|]. simpl.
      split; [lia|]. intros d Hin. apply list_elem_of_singleton in Hin as ->.
      split; [by rewrite !lookup_insert_ne, lookup_singleton_eq by done|].
      split; [by rewrite 2!lookup_insert_ne, lookup_insert_eq by done|].
      split; [by rewrite lookup_insert_ne, lookup_insert_eq by done|].
      by rewrite lookup_insert_eq.
    - eexists _, _. split; [reflexivity|]. split; [done|]. simpl.
      split; [lia|]. intros d Hin. by apply elem_of_nil in Hin. }
  destruct Hstop1 as (c2 & out2 & Hs2 & Hoff & Hlen & Hstyle).
  destruct (Hstop2 c2 Hoff) as (c3 & Hs3 & Hc3).
  by exists c1, out1, c2, out2, c3.
Qed.

Lemma stroke_style_is_fixed_at_start_witness :
  ∃ c1 out1 c2 out2 c3,
    canvas_run [ce_draw (VNum 1) (VNum 2); ce_setColor "#3498db";
                ce_setTool "eraser"; ce_draw (VNum 3) (VNum 4)]
      (startDrawing (VNum 0) (VNum 0) wired_canvas) = Some (c1, out1)
    ∧ completed out1 = []
    ∧ stop c1 = Some (c2, out2)
    ∧ length (completed out2) ≤ 1
    ∧ (∀ d, d ∈ completed out2 →
         d !! "color" = Some (VStr "#000000")
         ∧ d !! "tool" = Some (VStr "brush"))
    ∧ stop c2 = Some (c3, []).
Proof.
  destruct (stroke_style_is_fixed_at_start
              (startDrawing (VNum 0) (VNum 0) wired_canvas)
              {[ "color" := VStr "#000000"; "width" := VNum 3;
                 "tool" := VStr "brush" ]}
              [ce_draw (VNum 1) (VNum 2); ce_setColor "#3498db";
               ce_setTool "eraser"; ce_draw (VNum 3) (VNum 4)])
    as (c1 & out1 & c2 & out2 & c3 & Hrun & Hcomp & _ & Hstop & Hlen & Hstyle & Hstop2 & _).
  - reflexivity.
  - reflexivity.
  - repeat constructor.
  - exists c1, out1, c2, out2, c3. split; [exact Hrun|]. split; [exact Hcomp|].
    split; [exact Hstop|]. split; [exact Hlen|]. split; [|exact Hstop2].
    intros d Hd. destruct (Hstyle d Hd) as (_ & Hcol & _ & Htool).
    split; [exact Hcol|exact Htool].
Defined.

(** ** The socket of the client *)

Lemma ws_on_dom event callback c :
  dom (callbacks (ws_on event callback c)) = dom (callbacks c).
Proof.
  unfold ws_on. destruct (callbacks c !! callback_name event) eqn:Hk; [|done].
  simpl. rewrite dom_insert_L. apply subseteq_union_1_L.
  apply singleton_subseteq_l, elem_of_dom. eauto.
Qed.

Lemma ws_step_dom e c : dom (callbacks (ws_step e c).1.1) = dom (callbacks c).
Proof. destruct e; simpl; [done..|]. apply ws_on_dom. Qed.

Lemma ws_run_cons e es c :
  ws_run (e :: es) c
  = ((ws_run es (ws_step e c).1.1).1,
     (ws_step e c).1.2 ++ (ws_run es (ws_step e c).1.1).2).
Proof.
  simpl. destruct (ws_step e c) as [[c' sent] called]. simpl.
  by destruct (ws_run es c') as [c'' sent'].
Qed.

(** X28. [on] installs a callback only under a name the client already has:
    the callback stored under that name is replaced, every other one is
    kept, and a name the client does not know is ignored without a
    trace.  So the set of callback names never changes, whatever is
    registered. *)
Theorem on_registers_known_names_only (event : string) (callback : nat)
    (c : WebSocketClient) (es : list ws_event) :
  (∀ k, k ≠ callback_name event →
     callbacks (ws_on event callback c) !! k = callbacks c !! k)
  ∧ (is_Some (callbacks c !! callback_name event) →
     callbacks (ws_on event callback c) !! callback_name event
     = Some (Some callback))
  ∧ (callbacks c !! callback_name event = None → ws_on event callback c = c)
  ∧ connected (ws_on event callback c) = connected c
  ∧ dom (callbacks (ws_run es c).1) = dom (callbacks c).
Proof.
  split; [|split; [|split; [|split]]].
  - intros k Hk. unfold ws_on.
    destruct (callbacks c !! callback_name event); [|done]. simpl.
    by rewrite lookup_insert_ne.
  - intros [v Hv]. unfold ws_on. rewrite Hv. simpl. by rewrite lookup_insert_eq.
  - intros Hnone. unfold ws_on. by rewrite Hnone.
  - unfold ws_on. by destruct (callbacks c !! callback_name event).
  - revert c. induction es as [|e es IH]; intros c; [done|].
    rewrite ws_run_cons. simpl. by rewrite IH, ws_step_dom.
Qed.

Lemma on_registers_known_names_only_witness :
  callbacks (ws_on "undoStroke" 7 newWebSocketClient) !! "onUndoStroke"
  = Some (Some 7)
  ∧ ws_on "reconnecting" 8 newWebSocketClient = newWebSocketClient.
Proof.
  destruct (on_registers_known_names_only "undoStroke" 7 newWebSocketClient [])
    as (_ & Hknown & _).
  destruct (on_registers_known_names_only "reconnecting" 8 newWebSocketClient [])
    as (_ & _ & Hunknown & _).
  split.
  - apply Hknown. vm_compute. eauto.
  - apply Hunknown. vm_compute. reflexivity.
Defined.

Lemma ws_run_requests rs c :
  Forall (λ e, is_request e = true) rs →
  ws_run rs c = (c, if connected c then requests_of rs else []).
Proof.
  induction 1 as [|e rs He _ IH]; simpl.
  - by destruct (connected c).
  - destruct e as [| |r|]; try done. simpl.
    rewrite IH. unfold ws_emit. by destruct (connected c).
Qed.

(** X29. The client sends only while connected, and never later: what goes
    out is part of what was asked for, in the same order; nothing goes
    out before the first connect; and what is asked for between a
    disconnect and the next connect is dropped, not queued. *)
Theorem offline_requests_are_dropped (es rs : list ws_event)
    (c : WebSocketClient) :
  (ws_run es c).2 `sublist_of` requests_of es
  ∧ (connected c = false → ws_connect ∉ es → (ws_run es c).2 = [])
  ∧ (connected c = true → Forall (λ e, is_request e = true) rs →
     (ws_run rs c).2 = requests_of rs)
  ∧ (Forall (λ e, is_request e = true) rs →
     (ws_run (ws_disconnect :: rs ++ [ws_connect]) c).2 = []
     ∧ connected (ws_run (ws_disconnect :: rs ++ [ws_connect]) c).1 = true).
Proof.
  split; [|split; [|split]].
  - revert c. induction es as [|e es IH]; intros c; [done|].
    rewrite ws_run_cons. cbn [snd].
    destruct e as [| |r|ev cb]; simpl; try apply IH.
    unfold ws_emit. destruct (connected c); simpl.
    + apply sublist_skip, IH.
    + apply sublist_cons, IH.
  - revert c. induction es as [|e es IH]; intros c Hoff Hnc; [done|].
    rewrite ws_run_cons. cbn [snd].
    apply not_elem_of_cons in Hnc as [Hne Hnc].
    destruct e as [| |r|ev cb]; simpl; try done.
    + by apply IH.
    + unfold ws_emit. rewrite Hoff. simpl. by apply IH.
    + apply IH; [|done]. unfold ws_on.
      by destruct (callbacks c !! callback_name ev).
  - intros Hon Hrs. by rewrite ws_run_requests, Hon.
  - intros Hrs.
    assert (Hrun : ∀ c1, connected c1 = false →
              ws_run (rs ++ [ws_connect]) c1 = (set_connected true c1, [])).
    { induction Hrs as [|e rs' He _ IH]; intros c1 Hoff1; [done|].
      destruct e as [| |r|]; try done.
      change ((ws_request r :: rs') ++ [ws_connect])
        with (ws_request r :: (rs' ++ [ws_connect])).
      rewrite ws_run_cons. simpl. unfold ws_emit. rewrite Hoff1. simpl.
      by rewrite IH. }
    rewrite ws_run_cons. simpl. by rewrite Hrun.
Qed.

Lemma offline_requests_are_dropped_witness :
  (ws_run [ws_request rq_undo; ws_request (rq_stroke_complete sample_data)]
     newWebSocketClient).2 = []
  ∧ (ws_run [ws_request rq_undo; ws_request rq_redo]
       (set_connected true newWebSocketClient)).2
    = requests_of [ws_request rq_undo; ws_request rq_redo]
  ∧ (ws_run (ws_disconnect
             :: [ws_request (rq_stroke_complete sample_data)] ++ [ws_connect])
       (set_connected true newWebSocketClient)).2 = [].
Proof.
  destruct (offline_requests_are_dropped
              [ws_request rq_undo; ws_request (rq_stroke_complete sample_data)]
              [ws_request rq_undo; ws_request rq_redo]
              newWebSocketClient) as (_ & Hoff & _ & _).
  destruct (offline_requests_are_dropped []
              [ws_request rq_undo; ws_request rq_redo]
              (set_connected true newWebSocketClient)) as (_ & _ & Hon & _).
  destruct (offline_requests_are_dropped []
              [ws_request (rq_stroke_complete sample_data)]
              (set_connected true newWebSocketClient)) as (_ & _ & _ & Hdrop).
  split; [|split].
  - apply Hoff; [reflexivity|]. intros Hin.
    repeat (apply elem_of_cons in Hin as [Hin|Hin]; [discriminate Hin|]).
    by apply elem_of_nil in Hin.
  - apply Hon; [reflexivity|]. repeat constructor.
  - apply Hdrop. repeat constructor.
Defined.


(** ** Clients and the server's history *)



(** * Further instances *)

Lemma strokes_come_from_commits_witness :
  stroke_A
  ∈ strokes_made "main"
      [ call_addStroke "main" (sample_strokeData "A" "HappyArtist1" 1000) 1000 1000;
        call_addStroke "main" (sample_strokeData "B" "SwiftPainter2" 2000) 2000 2000 ]
      0.
Proof.
  destruct (strokes_come_from_commits
              [ call_addStroke "main" (sample_strokeData "A" "HappyArtist1" 1000) 1000 1000;
                call_addStroke "main" (sample_strokeData "B" "SwiftPainter2" 2000) 2000 2000 ]
              "main") as (sm & ids & Hrun & _ & _ & Hin).
  apply Hin. vm_compute in Hrun. injection Hrun as <- _.
  apply (list_elem_of_lookup_2 _ 0). vm_compute. reflexivity.
Defined.

Lemma room_exists_iff_it_has_members_witness :
  getUsers "main"
    (reg_run [reg_addUser "main" socket_A; reg_removeUser "main" "A"]
       newRoomManager) = [].
Proof.
  destruct (room_exists_iff_it_has_members
              [reg_addUser "main" socket_A; reg_removeUser "main" "A"] "main")
    as (_ & _ & Hnone & _).
  apply Hnone. vm_compute. reflexivity.
Defined.

Lemma getUsers_lists_the_members_witness :
  socket_A ∈ getUsers "main" registry_AB.
Proof.
  destruct (getUsers_lists_the_members "main" registry_AB) as (_ & Hin & _).
  apply Hin. exists "A". vm_compute. reflexivity.
Defined.

Lemma drawing_step_is_relayed_only_witness :
  ∃ payload,
    on_drawing_step socket_A (<["userId" := VStr "B"]> sample_data) 5 server_AB
    = Some (server_AB, [ (ToOthers "A" defaultRoom, drawing_step payload) ])
    ∧ payload !! "userId" = Some (VStr "A")
    ∧ payload !! "color" = Some (VStr "#e74c3c").
Proof.
  destruct (drawing_step_is_relayed_only socket_A
              (<["userId" := VStr "B"]> sample_data) 5 server_AB)
    as (payload & Hstep & Hid & _ & Hrest).
  exists payload. split; [exact Hstep|]. split; [exact Hid|].
  rewrite (Hrest "color"); [vm_compute; reflexivity|discriminate..].
Defined.

Lemma cursor_move_updates_own_cursor_witness :
  ∃ s' u',
    fst <$> on_cursor_move socket_A {[ "x" := VNum 10; "y" := VNum 20 ]} server_AB
    = Some s'
    ∧ getUser defaultRoom "B" (roomManager s')
      = getUser defaultRoom "B" (roomManager server_AB)
    ∧ getUser defaultRoom "A" (roomManager s') = Some u'
    ∧ cursorX u' = VNum 10 ∧ username u' = "HappyArtist1".
Proof.
  destruct (cursor_move_updates_own_cursor socket_A
              {[ "x" := VNum 10; "y" := VNum 20 ]} server_AB)
    as (s' & x & y & Hmove & Hx & _ & _ & Hothers & _ & Hown).
  destruct (Hown socket_A) as (u' & Hu' & Hcx & _ & _ & Hname & _).
  { vm_compute. reflexivity. }
  exists s', u'. split; [by rewrite Hmove|].
  split; [apply Hothers; discriminate|]. split; [exact Hu'|].
  split; [rewrite Hcx, Hx; vm_compute; reflexivity|exact Hname].
Defined.

(** ** Identifiers supplied by the client *)

Lemma finalize_payload_id id strokeData createdAt v :
  strokeData !! "id" = Some v →
  id_of (finalize id strokeData createdAt) = Some v.
Proof.
  intros Hid. unfold id_of, finalize. rewrite lookup_insert_ne by done.
  by apply lookup_union_Some_l.
Qed.

Lemma not_NoDup_twice {A} (l : list A) (x : A) : ¬ NoDup (l ++ [x; x]).
Proof.
  intros Hnd. apply NoDup_app in Hnd as (_ & _ & Hnd).
  apply NoDup_cons in Hnd as [Hx _]. apply Hx. by left.
Qed.

Lemma addStroke_twice roomId sd1 sd2 v t1 c1 t2 c2 sm :
  rooms_agree sm →
  sd1 !! "id" = Some v → sd2 !! "id" = Some v →
  ∃ s1 s2 sm1 sm2,
    addStroke roomId sd1 t1 c1 sm = Some (s1, sm1)
    ∧ addStroke roomId sd2 t2 c2 sm1 = Some (s2, sm2)
    ∧ rooms_agree sm2
    ∧ history roomId sm2 = history roomId sm ++ [s1; s2]
    ∧ id_of s1 = Some v ∧ id_of s2 = Some v
    ∧ s1 = finalize (strokeIdOf t1 (strokeIdCounter sm + 1)) sd1 c1
    ∧ s2 = finalize (strokeIdOf t2 (strokeIdCounter sm + 1 + 1)) sd2 c2.
Proof.
  intros Hag Hid1 Hid2.
  pose proof (addStroke_put roomId sd1 t1 c1 sm Hag) as H1. simpl in H1.
  assert (Hag1 : rooms_agree
            (put_room roomId
               (history roomId sm
                ++ [finalize (strokeIdOf t1 (strokeIdCounter sm + 1)) sd1 c1])
               (cleared_for sd1 (redoMap roomId sm)) (bump sm)))
    by (by apply rooms_agree_put, rooms_agree_bump).
  pose proof (addStroke_put roomId sd2 t2 c2 _ Hag1) as H2. simpl in H2.
  eexists _, _, _, _. split; [exact H1|]. split; [exact H2|].
  split; [by apply rooms_agree_put, rooms_agree_bump|].
  split; [by rewrite !history_put_eq, <- app_assoc|].
  split; [by apply finalize_payload_id|].
  split; [by apply finalize_payload_id|].
  by split.
Qed.

Lemma exec_issues c sm :
  rooms_agree sm →
  ∃ sm',
    exec c sm = Some sm' ∧ rooms_agree sm'
    ∧ (strokeIdCounter sm ≤ strokeIdCounter sm')%N
    ∧ Forall (λ i, ∃ t c', i = strokeIdOf t c'
                ∧ (strokeIdCounter sm < c' ≤ strokeIdCounter sm')%N)
             (assigned c sm)
    ∧ length (assigned c sm) ≤ 1.
Proof.
  intros Hag.
  destruct (exec_shape c sm Hag)
    as [[-> ->]|[(r & h & m & -> & -> & _)
                |(r & h & m & s & t & -> & -> & _)]].
  - exists sm. split; [done|]. split; [done|].
    split; [lia|]. split; [constructor|simpl; lia].
  - eexists. split; [done|]. split; [by apply rooms_agree_put|].
    simpl. split; [lia|]. split; [constructor|lia].
  - eexists. split; [done|].
    split; [by apply rooms_agree_put, rooms_agree_bump|].
    simpl. split; [lia|]. split; [|lia].
    repeat constructor. exists t, (strokeIdCounter sm + 1)%N.
    split; [done|lia].
Qed.

Lemma run_issues cs sm :
  rooms_agree sm →
  ∃ sm' ids,
    run cs sm = Some (sm', ids) ∧ rooms_agree sm'
    ∧ (strokeIdCounter sm ≤ strokeIdCounter sm')%N
    ∧ NoDup ids
    ∧ Forall (λ i, ∃ t c', i = strokeIdOf t c'
                ∧ (strokeIdCounter sm < c' ≤ strokeIdCounter sm')%N) ids.
Proof.
  revert sm. induction cs as [|c cs IH]; intros sm Hag; simpl.
  - exists sm, []. split; [done|]. split; [done|].
    split; [lia|]. split; constructor.
  - destruct (exec_issues c sm Hag)
      as (sm1 & -> & Hag1 & Hle1 & Hnew & Hlen). simpl.
    destruct (IH sm1 Hag1)
      as (sm2 & ids & -> & Hag2 & Hle2 & Hnd & Hids). simpl.
    eexists _, _. split; [done|]. split; [done|].
    split; [lia|]. split.
    + apply NoDup_app. split; [|split; [|done]].
      * destruct (assigned c sm) as [|i [|]]; simpl in Hlen; try lia.
        -- constructor.
        -- apply NoDup_singleton.
      * intros i Hi Hi'. rewrite Forall_forall in Hnew, Hids.
        destruct (Hnew i Hi) as (t & c1 & -> & Hc1).
        destruct (Hids _ Hi') as (t' & c2 & Heq & Hc2).
        apply strokeIdOf_inj in Heq as [_ Heq]. lia.
    + apply Forall_app. split.
      * eapply Forall_impl; [done|]. intros i (t & c' & -> & Hc').
        exists t, c'. split; [done|lia].
      * eapply Forall_impl; [done|]. intros i (t & c' & -> & Hc').
        exists t, c'. split; [done|lia].
Qed.

Lemma run_app cs1 cs2 sm :
  run (cs1 ++ cs2) sm
  = '(sm1, ids1) ← run cs1 sm;
    '(sm2, ids2) ← run cs2 sm1;
    Some (sm2, ids1 ++ ids2).
Proof.
  revert sm. induction cs1 as [|c cs1 IH]; intros sm; simpl.
  - by destruct (run cs2 sm) as [[??]|].
  - destruct (exec c sm) as [sm1|]; [|done]. simpl. rewrite IH.
    destruct (run cs1 sm1) as [[sm2 ids1]|]; [|done]. simpl.
    destruct (run cs2 sm2) as [[sm3 ids2]|]; [|done]. simpl.
    by rewrite app_assoc.
Qed.

Lemma serve_app evs1 evs2 s :
  serve (evs1 ++ evs2) s
  = '(s1, out1) ← serve evs1 s;
    '(s2, out2) ← serve evs2 s1;
    Some (s2, out1 ++ out2).
Proof.
  revert s. induction evs1 as [|ev evs1 IH]; intros s; simpl.
  - by destruct (serve evs2 s) as [[??]|].
  - destruct (handle ev s) as [[s1 o1]|]; [|done]. simpl. rewrite IH.
    destruct (serve evs1 s1) as [[s2 o2]|]; [|done]. simpl.
    destruct (serve evs2 s2) as [[s3 o3]|]; [|done]. simpl.
    by rewrite app_assoc.
Qed.

(** C9. The identifiers [generateStrokeId] hands out never repeat, but
    they are not always the identifiers the strokes carry: [addStroke]
    writes [id] before it spreads the stroke data, so an [id] property of
    the data replaces the generated one, and the [stroke_complete] handler
    passes the client's data on unchecked.  After any run of calls on a
    new state manager, two [addStroke] calls whose data carry the same
    [id] leave the room's history ending in two strokes with that one
    identifier; and after any sequence of events served by a new server,
    two [stroke_complete] events whose payloads carry the same [id], from
    any two sockets, do the same to the history of the main room. *)
Theorem client_id_breaks_uniqueness
    (cs : list call) (roomId : string) (evs : list event) (a b : userData)
    (data1 data2 : obj) (v : value) (now1 t1 c1 now2 t2 c2 : Z) :
  data1 !! "id" = Some v →
  data2 !! "id" = Some v →
  Forall (λ ev, has_payload ev = true) evs →
  (∃ sm ids h s1 s2,
     run (cs ++ [ call_addStroke roomId data1 t1 c1;
                  call_addStroke roomId data2 t2 c2 ]) newStateManager
     = Some (sm, ids)
     ∧ NoDup ids
     ∧ history roomId sm = h ++ [s1; s2]
     ∧ id_of s1 = Some v ∧ id_of s2 = Some v
     ∧ ¬ NoDup (id_of <$> history roomId sm))
  ∧ (∃ s out h s1 s2,
       serve (evs ++ [ ev_stroke_complete a data1 now1 t1 c1;
                       ev_stroke_complete b data2 now2 t2 c2 ]) newServer
       = Some (s, out)
       ∧ history defaultRoom (stateManager s) = h ++ [s1; s2]
       ∧ owned_by (user_id a) s1 ∧ owned_by (user_id b) s2
       ∧ id_of s1 = Some v ∧ id_of s2 = Some v
       ∧ ¬ NoDup (id_of <$> history defaultRoom (stateManager s))).
Proof.
  intros Hid1 Hid2 Hpay. split.
  - destruct (run_issues (cs ++ [ call_addStroke roomId data1 t1 c1;
                                  call_addStroke roomId data2 t2 c2 ])
                newStateManager rooms_agree_new)
      as (sm & ids & Hrun & _ & _ & Hnd & _).
    destruct (run_agree cs newStateManager rooms_agree_new)
      as (sm0 & ids0 & Hrun0 & Hag0).
    destruct (addStroke_twice roomId data1 data2 v t1 c1 t2 c2 sm0 Hag0 Hid1 Hid2)
      as (s1 & s2 & sm1 & sm2 & Hadd1 & Hadd2 & _ & Hh & Hs1 & Hs2 & _).
    rewrite run_app, Hrun0 in Hrun. simpl in Hrun.
    rewrite Hadd1 in Hrun. simpl in Hrun. rewrite Hadd2 in Hrun.
    simpl in Hrun. injection Hrun as <- <-.
    eexists sm2, _, (history roomId sm0), s1, s2.
    rewrite run_app, Hrun0. simpl. rewrite Hadd1. simpl. rewrite Hadd2. simpl.
    split; [done|]. split; [done|]. split; [done|].
    split; [done|]. split; [done|].
    rewrite Hh, fmap_app. simpl. rewrite Hs1, Hs2. apply not_NoDup_twice.
  - destruct (serve_ok evs newServer server_ok_new Hpay)
      as (s0 & out0 & Hserve0 & [Hag0 _]).
    assert (Hd1 : strokeData_of a data1 now1 !! "id" = Some v)
      by (by rewrite strokeData_of_other).
    assert (Hd2 : strokeData_of b data2 now2 !! "id" = Some v)
      by (by rewrite strokeData_of_other).
    destruct (addStroke_twice defaultRoom _ _ v t1 c1 t2 c2 _ Hag0 Hd1 Hd2)
      as (s1 & s2 & sm1 & sm2 & Hadd1 & Hadd2 & _ & Hh & Hs1 & Hs2 & Hf1 & Hf2).
    eexists _, _, (history defaultRoom (stateManager s0)), s1, s2.
    rewrite serve_app, Hserve0. simpl. unfold on_stroke_complete.
    rewrite Hadd1. simpl. rewrite Hadd2. simpl.
    split; [done|]. split; [done|].
    split; [rewrite Hf1; apply owned_by_sender|].
    split; [rewrite Hf2; apply owned_by_sender|].
    split; [done|]. split; [done|]. cbn [stateManager].
    rewrite Hh, fmap_app. simpl. rewrite Hs1, Hs2. apply not_NoDup_twice.
Qed.

Lemma client_id_breaks_uniqueness_witness :
  (∃ sm ids h s1 s2,
     run ([ call_addStroke "main" (sample_strokeData "A" "HappyArtist1" 1000) 1000 1001;
            call_undoStroke "main" "A" ]
          ++ [ call_addStroke "main" named_data 2000 2001;
               call_addStroke "main" named_data 3000 3001 ]) newStateManager
     = Some (sm, ids)
     ∧ NoDup ids
     ∧ history "main" sm = h ++ [s1; s2]
     ∧ id_of s1 = Some (VStr "mine") ∧ id_of s2 = Some (VStr "mine")
     ∧ ¬ NoDup (id_of <$> history "main" sm))
  ∧ (∃ s out h s1 s2,
       serve ([ ev_connection "A" "HappyArtist1" "#e74c3c";
                ev_connection "B" "SwiftPainter2" "#3498db" ]
              ++ [ ev_stroke_complete socket_A named_data 2000 2000 2001;
                   ev_stroke_complete socket_B named_data 3000 3000 3001 ])
         newServer
       = Some (s, out)
       ∧ history defaultRoom (stateManager s) = h ++ [s1; s2]
       ∧ owned_by "A" s1 ∧ owned_by "B" s2
       ∧ id_of s1 = Some (VStr "mine") ∧ id_of s2 = Some (VStr "mine")
       ∧ ¬ NoDup (id_of <$> history defaultRoom (stateManager s))).
Proof.
  apply (client_id_breaks_uniqueness
           [ call_addStroke "main" (sample_strokeData "A" "HappyArtist1" 1000) 1000 1001;
             call_undoStroke "main" "A" ]
           "main"
           [ ev_connection "A" "HappyArtist1" "#e74c3c";
             ev_connection "B" "SwiftPainter2" "#3498db" ]
           socket_A socket_B named_data named_data (VStr "mine")
           2000 2000 2001 3000 3000 3001).
  - vm_compute. reflexivity.
  - vm_compute. reflexivity.
  - repeat constructor.
Defined.

Example two_strokes_named_mine :
  (λ r, (id_of <$> history defaultRoom (stateManager r.1)))
  <$> serve [ ev_connection "A" "HappyArtist1" "#e74c3c";
           ev_stroke_complete socket_A named_data 2000 2000 2001;
           ev_stroke_complete socket_A named_data 3000 3000 3001 ] newServer
  = Some [Some (VStr "mine"); Some (VStr "mine")].
Proof. vm_compute. reflexivity. Qed.
